(** * licenses: the license identification engine of pmezard/licenses

    A shallow embedding of [licenses.go]: the tokenizer ([cleanLicenseData],
    [makeWordSet]), the template parser ([parseTemplate]), the similarity
    scorer ([matchTemplates]), the license file locator ([scoreLicenseName],
    [findLicense]) and the grouping reducer ([longestCommonPrefix],
    [groupLicenses]), followed by the properties established about them.

    Go values are represented as follows.
    - [[]byte] and [string] are Rocq strings, that is sequences of bytes.
    - [map[string]int] is [gmap string nat]; a [range] loop over a map visits
      its entries in an order chosen by the runtime, which is a parameter of
      the functions that contain such a loop.
    - [float64] is the type [float64] below.
    - a pointer that may be [nil] is an [option].
    - a Go function returning [(T, error)] returns a [result]. *)

From Stdlib Require Import ZArith QArith Ascii String List Lia Lqa.
From stdpp Require Import gmap strings list fin_maps sorting.

Open Scope string_scope.
Open Scope list_scope.

(** ** Results of fallible functions *)

Inductive result (E A : Type) : Type :=
| Ok (a : A)
| Err (e : E).
Arguments Ok {E A} a.
Arguments Err {E A} e.

(** ** float64

    The scores of the program are quotients of small non-negative integers
    and a few decimal constants.  They are modelled by exact rationals
    extended with the two special values the program can produce: the
    quotient 0/0 is [FNaN] and x/0 for a positive x is [FInf].  Every
    comparison with [FNaN] is false, as in IEEE 754.  Rounding is not
    modelled: on operands below 2^26 the rounded quotients of two different
    fractions are different, so the comparisons agree with the exact ones. *)

Inductive float64 : Type :=
| FNaN
| FInf
| FVal (q : Q).

Definition float64_of_int (n : nat) : float64 := FVal (inject_Z (Z.of_nat n)).

Definition fmul (x y : float64) : float64 :=
  match x, y with
  | FVal a, FVal b => FVal (a * b)
  | FNaN, _ | _, FNaN => FNaN
  | FInf, FInf => FInf
  | FInf, FVal b | FVal b, FInf => if Qeq_bool b 0 then FNaN else FInf
  end.

Definition fadd (x y : float64) : float64 :=
  match x, y with
  | FVal a, FVal b => FVal (a + b)
  | FNaN, _ | _, FNaN => FNaN
  | FInf, _ | _, FInf => FInf
  end.

Definition fdiv (x y : float64) : float64 :=
  match x, y with
  | FVal a, FVal b =>
      if Qeq_bool b 0 then (if Qeq_bool a 0 then FNaN else FInf)
      else FVal (a / b)
  | FNaN, _ | _, FNaN => FNaN
  | FInf, FInf => FNaN
  | FInf, FVal _ => FInf
  | FVal _, FInf => FVal 0
  end.

(** [fgt x y] is the Go comparison [x > y]. *)
Definition fgt (x y : float64) : bool :=
  match x, y with
  | FVal a, FVal b => negb (Qle_bool a b)
  | FInf, FVal _ => true
  | _, _ => false
  end.

(** [x] is a number of the closed interval from 0 to 1. *)
Definition unit_interval (x : float64) : Prop :=
  match x with
  | FVal q => (0 <= q)%Q /\ (q <= 1)%Q
  | _ => False
  end.

(** [x] is the number one. *)
Definition is_one (x : float64) : Prop :=
  match x with
  | FVal q => (q == 1)%Q
  | _ => False
  end.

(** ** Bytes and character classes *)

Definition code (c : ascii) : N := N_of_ascii c.

Definition inRange (lo hi : N) (c : ascii) : bool :=
  ((lo <=? code c) && (code c <=? hi))%N.

Definition byte (n : N) : ascii := ascii_of_N n.

Definition newline : ascii := byte 10.

(** The class [\s] of Go regular expressions: tab, line feed, form feed,
    carriage return and space. *)
Definition isSpace (c : ascii) : bool :=
  let n := code c in
  ((n =? 9) || (n =? 10) || (n =? 12) || (n =? 13) || (n =? 32))%N.

(** The class [\d]. *)
Definition isDigit (c : ascii) : bool := inRange 48 57 c.

Definition isUpper (c : ascii) : bool := inRange 65 90 c.

Definition isLower (c : ascii) : bool := inRange 97 122 c.

(** The class [[\w']]: letters, digits, underscore and the apostrophe. *)
Definition isWordChar (c : ascii) : bool :=
  isDigit c || isUpper c || isLower c || (code c =? 95)%N || (code c =? 39)%N.

Definition isASCII (c : ascii) : bool := (code c <? 128)%N.

Definition lowerASCII (c : ascii) : ascii :=
  if isUpper c then byte (code c + 32) else c.

Fixpoint forallb_string (p : ascii -> bool) (s : string) : bool :=
  match s with
  | EmptyString => true
  | String c r => p c && forallb_string p r
  end.

Fixpoint map_string (f : ascii -> ascii) (s : string) : string :=
  match s with
  | EmptyString => EmptyString
  | String c r => String (f c) (map_string f r)
  end.

Definition isEmpty (s : string) : bool :=
  match s with
  | EmptyString => true
  | String _ _ => false
  end.

Fixpoint rev_string (s acc : string) : string :=
  match s with
  | EmptyString => acc
  | String c r => rev_string r (String c acc)
  end.

(** ** The Go standard library: package strings *)

(** [strings.HasPrefix(s, prefix)] together with the slice
    [s[len(prefix):]]: the rest of [s] after [prefix], when [s] starts
    with it. *)
Fixpoint strings_CutPrefix (prefix s : string) : option string :=
  match prefix with
  | EmptyString => Some s
  | String p prefix' =>
      match s with
      | EmptyString => None
      | String c s' =>
          if Ascii.eqb c p then strings_CutPrefix prefix' s' else None
      end
  end.

(** The white space of [unicode.IsSpace] that is one byte long. *)
Definition isSpace1 (c : ascii) : bool := inRange 9 13 c || (code c =? 32)%N.

(** U+0085 and U+00A0 in UTF-8. *)
Definition isSpace2 (c1 c2 : ascii) : bool :=
  (code c1 =? 194)%N && ((code c2 =? 133) || (code c2 =? 160))%N.

(** U+1680, U+2000 to U+200A, U+2028, U+2029, U+202F, U+205F and U+3000
    in UTF-8. *)
Definition isSpace3 (c1 c2 c3 : ascii) : bool :=
  let a := code c1 in
  let b := code c2 in
  let c := code c3 in
  ((a =? 225) && (b =? 154) && (c =? 128)
   || (a =? 226) && (b =? 128)
      && (inRange 128 138 c3 || (c =? 168) || (c =? 169) || (c =? 175))
   || (a =? 226) && (b =? 129) && (c =? 159)
   || (a =? 227) && (b =? 128) && (c =? 128))%N.

(** Removes the leading white space runes.  With [back] set the bytes of
    the string are in reverse order, and so are those of each rune. *)
Fixpoint trimLeading (back : bool) (s : string) : string :=
  match s with
  | EmptyString => EmptyString
  | String c1 r1 =>
      if isSpace1 c1 then trimLeading back r1
      else
        match r1 with
        | EmptyString => s
        | String c2 r2 =>
            if (if back then isSpace2 c2 c1 else isSpace2 c1 c2)
            then trimLeading back r2
            else
              match r2 with
              | EmptyString => s
              | String c3 r3 =>
                  if (if back then isSpace3 c3 c2 c1 else isSpace3 c1 c2 c3)
                  then trimLeading back r3
                  else s
              end
        end
  end.

(** [strings.TrimSpace]. *)
Definition strings_TrimSpace (s : string) : string :=
  rev_string (trimLeading true (rev_string (trimLeading false s) "")) "".

(** [strings.Split(s, "/")]: the elements between the separators; there is
    always at least one. *)
Fixpoint strings_Split (s : string) : list string :=
  match s with
  | EmptyString => [EmptyString]
  | String c r =>
      if Ascii.eqb c "/" then EmptyString :: strings_Split r
      else
        match strings_Split r with
        | h :: t => String c h :: t
        | [] => [String c EmptyString]
        end
  end.

(** [strings.Join(elems, "/")]. *)
Fixpoint strings_Join (elems : list string) : string :=
  match elems with
  | [] => EmptyString
  | [e] => e
  | e :: rest => e +:+ "/" +:+ strings_Join rest
  end.

(** ** The Go standard library: package bytes *)

Section ToLower.

(** [bytes.Map(unicode.ToLower, s)], the branch of [bytes.ToLower] for
    texts that are not pure ASCII; it depends on the Unicode tables. *)
Variable unicodeLower : string -> string.

(** [bytes.ToLower]: texts of ASCII bytes are lowered byte by byte. *)
Definition bytes_ToLower (s : string) : string :=
  if forallb_string isASCII s then map_string lowerASCII s
  else unicodeLower s.

End ToLower.

(** ** The Go standard library: bufio.Scanner with the default line splitter *)

Definition MaxScanTokenSize : N := 65536.

Inductive scanError : Type := ErrTooLong.

(** [dropCR]: a line loses one final carriage return. *)
Fixpoint dropCR (line : string) : string :=
  match line with
  | EmptyString => EmptyString
  | String c EmptyString => if (code c =? 13)%N then EmptyString else line
  | String c r => String c (dropCR r)
  end.

Definition tooLong (line : string) : bool :=
  (MaxScanTokenSize <=? N.of_nat (String.length line))%N.

(** The lines delivered by successive calls of [Scan] and the final value of
    [Err()].  [cur] holds, in reverse, the bytes of the line being read.  A
    line that does not fit the buffer of [MaxScanTokenSize] bytes stops the
    scanner with [ErrTooLong]; a final line without bytes is not
    delivered. *)
Fixpoint scanLines (s cur : string) : list string * option scanError :=
  match s with
  | EmptyString =>
      if isEmpty cur then ([], None)
      else if tooLong cur then ([], Some ErrTooLong)
      else ([dropCR (rev_string cur "")], None)
  | String c r =>
      if Ascii.eqb c newline then
        if tooLong cur then ([], Some ErrTooLong)
        else
          let '(ls, e) := scanLines r EmptyString in
          (dropCR (rev_string cur "") :: ls, e)
      else scanLines r (String c cur)
  end.

Definition bufio_Scan (content : string) : list string * option scanError :=
  scanLines content EmptyString.

(** ** The regular expressions of the tokenizer

    Go's [regexp] reads the text rune by rune and returns the match a
    backtracking search finds first.  The patterns below only name ASCII
    characters, the sign U+00A9 and the letter U+00C2, no byte below 128
    occurs inside the UTF-8 form of another rune, and [.] accepts every rune
    but the line feed; so the matchers work on bytes. *)

(** [reWords.FindAll(data, -1)] for [[\w']+]: the maximal runs of word
    characters, from left to right.  [cur] holds, in reverse, the bytes of
    the run being read. *)
Fixpoint findAllWords (data cur : string) : list string :=
  match data with
  | EmptyString => if isEmpty cur then [] else [rev_string cur ""]
  | String c r =>
      if isWordChar c then findAllWords r (String c cur)
      else if isEmpty cur then findAllWords r EmptyString
      else rev_string cur "" :: findAllWords r EmptyString
  end.

Definition reWords_FindAll (data : string) : list string :=
  findAllWords data EmptyString.

(** [\s*]: nothing follows it in [reCopyright] that could start with white
    space, so giving white space back never helps and the greedy choice is
    the only one. *)
Fixpoint skipSpaces (s : string) : string :=
  match s with
  | EmptyString => EmptyString
  | String c r => if isSpace c then skipSpaces r else s
  end.

(** [.*] at the end of the pattern: it takes the rest of the line and
    leaves the text from the line feed on. *)
Fixpoint restOfLine (s : string) : string :=
  match s with
  | EmptyString => EmptyString
  | String c r => if Ascii.eqb c newline then s else restOfLine r
  end.

(** A literal of lower case letters and signs under the flag [(?i)]: the
    rest of [s] after it.  None of the letters used has a fold outside
    ASCII. *)
Fixpoint litFold (lit s : string) : option string :=
  match lit with
  | EmptyString => Some s
  | String p lit' =>
      match s with
      | EmptyString => None
      | String c s' =>
          if Ascii.eqb (lowerASCII c) p then litFold lit' s' else None
      end
  end.

(** [(?:\d{4}|\[year\])]. *)
Definition matchYear (s : string) : option string :=
  match s with
  | String a (String b (String c (String d r))) =>
      if isDigit a && isDigit b && isDigit c && isDigit d then Some r
      else litFold "[year]" s
  | _ => litFold "[year]" s
  end.

(** The three spellings of the sign in [(?:©|\(c\)|\xC2\xA9)]: U+00A9, the
    letters [(c)] in either case, and U+00C2 (or its lower case U+00E2)
    followed by U+00A9. *)
Definition matchSign (s : string) : option string :=
  match s with
  | String a (String b r) =>
      if ((code a =? 194) && (code b =? 169))%N then Some r
      else
        match litFold "(c)" s with
        | Some r' => Some r'
        | None =>
            match r with
            | String c (String d r'') =>
                if ((code a =? 195) && ((code b =? 130) || (code b =? 162))
                    && (code c =? 194) && (code d =? 169))%N
                then Some r''
                else None
            | _ => None
            end
        end
  | _ => None
  end.

(** [\s*(?:\d{4}|\[year\]).*] *)
Definition matchDate (s : string) : option string :=
  match matchYear (skipSpaces s) with
  | Some r => Some (restOfLine r)
  | None => None
  end.

(** [reCopyright] tried at the start of [s]: the text that follows the
    match, if there is one.  The sign is optional and tried first. *)
Definition reCopyright_match (s : string) : option string :=
  match litFold "copyright " (skipSpaces s) with
  | None => None
  | Some s1 =>
      match
        match matchSign s1 with
        | Some s2 => matchDate s2
        | None => None
        end
      with
      | Some rest => Some rest
      | None => matchDate s1
      end
  end.

(** [reCopyright.ReplaceAll(data, nil)]: the matches are looked for from
    left to right, each search starting where the previous match ended, and
    are deleted.  A match is never empty, so [fuel] above the length of the
    text is enough. *)
Fixpoint replaceAll (fuel : nat) (data : string) : string :=
  match fuel with
  | O => data
  | S fuel' =>
      match reCopyright_match data with
      | Some rest => replaceAll fuel' rest
      | None =>
          match data with
          | EmptyString => EmptyString
          | String c r => String c (replaceAll fuel' r)
          end
      end
  end.

Definition reCopyright_ReplaceAll (data : string) : string :=
  replaceAll (S (String.length data)) data.

(** ** Templates and word sets *)

Record Template : Type := {
  Title : string;
  Nickname : string;
  Words : gmap string nat
}.

Record Word : Type := {
  Text : string;
  Pos : nat
}.

Module MatchResult.
Record t : Type := {
  Template : option Template;
  Score : float64;
  ExtraWords : list string;
  MissingWords : list string
}.
End MatchResult.

Section Tokenizer.

Variable unicodeLower : string -> string.

Definition cleanLicenseData (data : string) : string :=
  let data := bytes_ToLower unicodeLower data in
  let data := reCopyright_ReplaceAll data in
  data.

(** One turn of the loop of [makeWordSet]: the word [s] found at index
    [i] is recorded unless it is already there. *)
Definition addWord (words : gmap string nat) (im : nat * string)
  : gmap string nat :=
  let '(i, s) := im in
  match words !! s with
  | Some _ => words
  | None => <[s := i]> words
  end.

Definition makeWordSet (data : string) : gmap string nat :=
  let data := cleanLicenseData data in
  let matches := reWords_FindAll data in
  fold_left addWord (imap (fun i m => (i, m)) matches) ∅.

(** The state of the loop of [parseTemplate]. *)
Record parseState : Type := {
  ps_t : Template;
  ps_text : string;
  ps_state : nat
}.

Definition parseLine (st : parseState) (token : string) : parseState :=
  let line := strings_TrimSpace token in
  let t := ps_t st in
  match ps_state st with
  | 0 =>
      if String.eqb line "---"
      then {| ps_t := t; ps_text := ps_text st; ps_state := 1 |}
      else st
  | 1 =>
      if String.eqb line "---"
      then {| ps_t := t; ps_text := ps_text st; ps_state := 2 |}
      else
        match strings_CutPrefix "title:" line with
        | Some v =>
            {| ps_t := {| Title := strings_TrimSpace v;
                          Nickname := Nickname t;
                          Words := Words t |};
               ps_text := ps_text st; ps_state := 1 |}
        | None =>
            match strings_CutPrefix "nickname:" line with
            | Some v =>
                {| ps_t := {| Title := Title t;
                              Nickname := strings_TrimSpace v;
                              Words := Words t |};
                   ps_text := ps_text st; ps_state := 1 |}
            | None => st
            end
        end
  | 2 =>
      {| ps_t := t;
         ps_text := ps_text st +:+ token +:+ String newline "";
         ps_state := 2 |}
  | _ => st
  end.

(** [parseTemplate] returns its template together with [scanner.Err()]. *)
Definition parseTemplate (content : string) : Template * option scanError :=
  let '(lines, err) := bufio_Scan content in
  let st0 := {| ps_t := {| Title := ""; Nickname := ""; Words := ∅ |};
                ps_text := ""; ps_state := 0 |} in
  let st := fold_left parseLine lines st0 in
  let t := ps_t st in
  ({| Title := Title t; Nickname := Nickname t;
      Words := makeWordSet (ps_text st) |}, err).

(** [loadTemplates] over the contents of [assets.Assets]. *)
Fixpoint loadTemplates_from (contents : list string) (templates : list Template)
  : result scanError (list Template) :=
  match contents with
  | [] => Ok templates
  | a :: rest =>
      match parseTemplate a with
      | (_, Some err) => Err err
      | (templ, None) => loadTemplates_from rest (templates ++ [templ])
      end
  end.

Definition loadTemplates (assets : list string)
  : result scanError (list Template) :=
  loadTemplates_from assets [].

End Tokenizer.

(** ** The similarity scorer *)

(** What [sort.Sort] promises for [sortedWords]: the same words, by
    ascending position.  The order of words of equal position is not
    fixed. *)
Definition posLe (a b : Word) : Prop := Pos a <= Pos b.

#[export] Instance posLe_dec : RelDecision posLe.
Proof. intros a b. unfold posLe. apply _. Defined.

Definition sortsWords (sortWords : list Word -> list Word) : Prop :=
  forall l, sortWords l ≡ₚ l /\ Sorted posLe (sortWords l).

(** What the runtime promises for a [range] loop over a map: every entry
    once.  The first argument numbers the loops of one call, as the order
    may change from one loop to the next. *)
Definition rangesWords
    (rangeWords : nat -> gmap string nat -> list (string * nat)) : Prop :=
  forall n m, rangeWords n m ≡ₚ map_to_list m.

Section Scorer.

Variable unicodeLower : string -> string.
Variable rangeWords : nat -> gmap string nat -> list (string * nat).
Variable sortWords : list Word -> list Word.

Definition sortAndReturnWords (words : list Word) : list string :=
  let words := sortWords words in
  fold_left (fun tokens w => tokens ++ [Text w]) words [].

(** The variables [bestScore], [bestTemplate], [bestExtra] and
    [bestMissing] of [matchTemplates]. *)
Record best : Type := {
  bestScore : float64;
  bestTemplate : option Template;
  bestExtra : list Word;
  bestMissing : list Word
}.

(** The body of the loop over [words]. *)
Definition countWord (t : Template) (acc : nat * list Word)
    (e : string * nat) : nat * list Word :=
  let '(common, extra) := acc in
  let '(w, pos) := e in
  match Words t !! w with
  | Some _ => (S common, extra)
  | None => (common, extra ++ [{| Text := w; Pos := pos |}])
  end.

(** The body of the loop over [t.Words]. *)
Definition missWord (words : gmap string nat) (missing : list Word)
    (e : string * nat) : list Word :=
  let '(w, pos) := e in
  match words !! w with
  | Some _ => missing
  | None => missing ++ [{| Text := w; Pos := pos |}]
  end.

Definition score (common : nat) (words twords : gmap string nat) : float64 :=
  fdiv (fmul (FVal 2) (float64_of_int common))
       (fadd (float64_of_int (size words)) (float64_of_int (size twords))).

(** The body of the loop over [templates]; [i] is the index of [t]. *)
Definition matchTemplate (words : gmap string nat) (b : best)
    (it : nat * Template) : best :=
  let '(i, t) := it in
  let '(common, extra) :=
    fold_left (countWord t) (rangeWords (2 * i) words) (0, []) in
  let missing :=
    fold_left (missWord words) (rangeWords (2 * i + 1) (Words t)) [] in
  let score := score common words (Words t) in
  if fgt score (bestScore b)
  then {| bestScore := score; bestTemplate := Some t;
          bestExtra := extra; bestMissing := missing |}
  else b.

Definition matchTemplates (license : string) (templates : list Template)
  : MatchResult.t :=
  let b0 := {| bestScore := FVal (-1); bestTemplate := None;
               bestExtra := []; bestMissing := [] |} in
  let words := makeWordSet unicodeLower license in
  let b :=
    fold_left (matchTemplate words) (imap (fun i t => (i, t)) templates) b0 in
  {| MatchResult.Template := bestTemplate b;
     MatchResult.Score := bestScore b;
     MatchResult.ExtraWords := sortAndReturnWords (bestExtra b);
     MatchResult.MissingWords := sortAndReturnWords (bestMissing b) |}.

End Scorer.

(** A [sort.Sort] and a [range] to run the scorer with. *)
Definition mergeSortWords (l : list Word) : list Word :=
  merge_sort posLe l.

Definition rangeInOrder (n : nat) (m : gmap string nat) : list (string * nat) :=
  map_to_list m.

Definition rangeReversed (n : nat) (m : gmap string nat) : list (string * nat) :=
  rev (map_to_list m).

(** ** The Go standard library: package path/filepath, on Unix *)

(** The elements of a cleaned path, last one first.  [out] is the stack
    [Clean] writes to: empty elements and [.] are dropped, [..] removes the
    last real element if there is one, and otherwise is kept when the path
    is not rooted.  Only [..] elements are ever below a [..] element. *)
Definition cleanElem (rooted : bool) (out : list string) (e : string)
  : list string :=
  if String.eqb e "" || String.eqb e "." then out
  else if String.eqb e ".." then
    match out with
    | top :: below =>
        if String.eqb top ".." then e :: out else below
    | [] => if rooted then [] else [e]
    end
  else e :: out.

Definition isRooted (path : string) : bool :=
  match path with
  | String c _ => Ascii.eqb c "/"
  | EmptyString => false
  end.

(** [filepath.Clean]. *)
Definition filepath_Clean (path : string) : string :=
  if isEmpty path then "."
  else
    let rooted := isRooted path in
    let out := rev (fold_left (cleanElem rooted) (strings_Split path) []) in
    if rooted then "/" +:+ strings_Join out
    else if isEmpty (strings_Join out) then "."
    else strings_Join out.

(** The part of [path] up to its last separator, included. *)
Fixpoint dirPart (path : string) : string :=
  match path with
  | EmptyString => EmptyString
  | String c r =>
      match dirPart r with
      | EmptyString => if Ascii.eqb c "/" then "/" else EmptyString
      | d => String c d
      end
  end.

(** [filepath.Dir]. *)
Definition filepath_Dir (path : string) : string :=
  filepath_Clean (dirPart path).

(** [filepath.Join]: the elements from the first non-empty one on are
    joined and cleaned. *)
Fixpoint filepath_Join (elem : list string) : string :=
  match elem with
  | [] => ""
  | e :: rest =>
      if isEmpty e then filepath_Join rest
      else filepath_Clean (strings_Join elem)
  end.

(** ** The license file locator *)

(** One rune under the flag [(?i)] against the lower case letter or the
    sign [p].  Go folds U+017F on [s] and U+212A on [k]. *)
Definition foldRune (p : ascii) (s : string) : option string :=
  match s with
  | EmptyString => None
  | String c r =>
      if Ascii.eqb (lowerASCII c) p then Some r
      else
        match r with
        | String c2 r2 =>
            if (Ascii.eqb p "s" && (code c =? 197) && (code c2 =? 191))%N
            then Some r2
            else
              match r2 with
              | String c3 r3 =>
                  if (Ascii.eqb p "k" && (code c =? 226) && (code c2 =? 132)
                      && (code c3 =? 170))%N
                  then Some r3
                  else None
              | EmptyString => None
              end
        | EmptyString => None
        end
  end.

Fixpoint foldLit (lit s : string) : option string :=
  match lit with
  | EmptyString => Some s
  | String p lit' =>
      match foldRune p s with
      | Some r => foldLit lit' r
      | None => None
      end
  end.

Definition andThen (x : option string) (f : string -> option string)
  : option string :=
  match x with
  | Some r => f r
  | None => None
  end.

Definition orElse (x y : option string) : option string :=
  match x with
  | Some r => Some r
  | None => y
  end.

Definition atEnd (x : option string) : bool :=
  match x with
  | Some r => isEmpty r
  | None => false
  end.

(** [licen[sc]e] *)
Definition reLicence (s : string) : option string :=
  andThen (andThen (foldLit "licen" s)
                   (fun r => orElse (foldRune "s" r) (foldRune "c" r)))
          (foldLit "e").

(** [(?:un)?licen[sc]e] *)
Definition reUnlicence (s : string) : option string :=
  orElse (andThen (foldLit "un" s) reLicence) (reLicence s).

(** [[^.]+$] *)
Definition reExtension (s : string) : bool :=
  negb (isEmpty s) && forallb_string (fun c => negb (Ascii.eqb c ".")) s.

(** [(?:[-_\d\.]+)?\.[^.]+$]: either the dot that starts the extension is
    here, or the character belongs to the version. *)
Fixpoint reVersionExtension (s : string) : bool :=
  match s with
  | EmptyString => false
  | String c r =>
      (Ascii.eqb c "." && reExtension r)
      || ((Ascii.eqb c "-" || Ascii.eqb c "_" || isDigit c || Ascii.eqb c ".")
          && reVersionExtension r)
  end.

(** The four alternatives of [reLicense], each from [^] to [$]. *)
Definition reLicense1 (name : string) : bool := atEnd (reUnlicence name).

Definition reLicense2 (name : string) : bool :=
  match andThen (reUnlicence name) (foldLit ".") with
  | Some r =>
      atEnd (foldLit "md" r) || atEnd (foldLit "markdown" r)
      || atEnd (foldLit "txt" r)
  | None => false
  end.

Definition reLicense3 (name : string) : bool :=
  match andThen (foldLit "copy" name)
                (fun r => orElse (foldLit "ing" r) (foldLit "right" r)) with
  | Some r =>
      match r with
      | String c e => Ascii.eqb c "." && reExtension e
      | EmptyString => true
      end
  | None => false
  end.

Definition reLicense4 (name : string) : bool :=
  match reLicence name with
  | Some r => reVersionExtension r
  | None => false
  end.

(** [scoreLicenseName]: the first alternative that matches decides. *)
Definition scoreLicenseName (name : string) : float64 :=
  if reLicense1 name then FVal 1
  else if reLicense2 name then FVal (9 # 10)
  else if reLicense3 name then FVal (8 # 10)
  else if reLicense4 name then FVal (7 # 10)
  else FVal 0.

Module FileInfo.
Record t : Type := {
  Name : string;
  IsRegular : bool
}.
End FileInfo.

Module PkgInfo.
Record t : Type := {
  Name : string;
  Dir : string;
  Root : string;
  ImportPath : string;
  Error : option string
}.
End PkgInfo.

Section Locator.

(** [ioutil.ReadDir]: the entries of a directory, or an error. *)
Variable ReadDir : string -> result string (list FileInfo.t).

(** The body of the loop over the entries of one directory. *)
Definition pickName (acc : float64 * string) (fi : FileInfo.t)
  : float64 * string :=
  let '(bestScore, bestName) := acc in
  if negb (FileInfo.IsRegular fi) then acc
  else
    let score := scoreLicenseName (FileInfo.Name fi) in
    if fgt score bestScore then (score, FileInfo.Name fi) else acc.

(** The loop of [findLicense].  Each turn takes one unit of [fuel];
    without fuel left there is no result. *)
Fixpoint findLicense_loop (fuel : nat) (root path : string)
  : option (result string string) :=
  if String.eqb path "." then Some (Ok "")
  else
    match fuel with
    | O => None
    | S fuel' =>
        match ReadDir (filepath_Join [root; "src"; path]) with
        | Err err => Some (Err err)
        | Ok fis =>
            let '(_, bestName) := fold_left pickName fis (FVal 0, "") in
            if negb (String.eqb bestName "")
            then Some (Ok (filepath_Join [path; bestName]))
            else findLicense_loop fuel' root (filepath_Dir path)
        end
    end.

Definition findLicense (fuel : nat) (info : PkgInfo.t)
  : option (result string string) :=
  findLicense_loop fuel (PkgInfo.Root info) (PkgInfo.ImportPath info).

End Locator.

(** ** The grouping reducer *)

Module License.
Record t : Type := {
  Package : string;
  Score : float64;
  Template : option Template;
  Path : string;
  Err : string;
  ExtraWords : list string;
  MissingWords : list string
}.

Definition withPackage (l : t) (package : string) : t :=
  {| Package := package; Score := Score l; Template := Template l;
     Path := Path l; Err := Err l; ExtraWords := ExtraWords l;
     MissingWords := MissingWords l |}.
End License.

(** The prefix tree of [longestCommonPrefix]. *)
#[warnings="-register-all"]
Inductive Node : Type :=
| mkNode (Name : string) (Children : gmap string Node).

Definition Name (n : Node) : string :=
  match n with mkNode name _ => name end.

Definition Children (n : Node) : gmap string Node :=
  match n with mkNode _ children => children end.

(** The inner loop that builds the tree: the path of [parts] is added
    below [n]. *)
Fixpoint addParts (parts : list string) (n : Node) : Node :=
  match parts with
  | [] => n
  | part :: rest =>
      let c :=
        match Children n !! part with
        | Some c => c
        | None => mkNode part ∅
        end in
      mkNode (Name n) (<[part := addParts rest c]> (Children n))
  end.

(** The final loop: from [n] down, as long as there is exactly one child. *)
Fixpoint descend (n : Node) : list string :=
  match n with
  | mkNode _ children =>
      if Nat.eqb (size children) 1
      then map_fold (fun _ c _ => Name c :: descend c) [] children
      else []
  end.

Definition longestCommonPrefix (licenses : list License.t) : string :=
  let root :=
    fold_left (fun root l => addParts (strings_Split (License.Package l)) root)
              licenses (mkNode "" ∅) in
  strings_Join (descend root).

Inductive groupError : Type :=
| ErrNoCommonPrefix (v : list License.t)
| ErrIndexOutOfRange.

Section Grouping.

(** The order of the [range] loop over [paths]. *)
Variable rangePaths :
  gmap string (list License.t) -> list (string * list License.t).

(** The body of the first loop. *)
Definition collectPath (paths : gmap string (list License.t))
    (l : License.t) : gmap string (list License.t) :=
  if String.eqb (License.Path l) "" then paths
  else
    <[License.Path l := default [] (paths !! License.Path l) ++ [l]]> paths.

(** The body of the second loop; an error ends the function. *)
Definition mergePath
    (acc : result groupError (gmap string (list License.t)))
    (kv : string * list License.t)
  : result groupError (gmap string (list License.t)) :=
  match acc with
  | Err e => Err e
  | Ok paths =>
      let '(k, v) := kv in
      if Nat.leb (length v) 1 then Ok paths
      else
        let prefix := longestCommonPrefix v in
        if String.eqb prefix "" then Err (ErrNoCommonPrefix v)
        else
          match v with
          | l :: _ => Ok (<[k := [License.withPackage l prefix]]> paths)
          | [] => Err ErrIndexOutOfRange
          end
  end.

(** The body of the third loop. *)
Definition keepLicense
    (acc : result groupError
             (list License.t * gmap string (list License.t)))
    (l : License.t)
  : result groupError (list License.t * gmap string (list License.t)) :=
  match acc with
  | Err e => Err e
  | Ok (kept, paths) =>
      if String.eqb (License.Path l) "" then Ok (kept ++ [l], paths)
      else
        match paths !! License.Path l with
        | Some (l0 :: _) => Ok (kept ++ [l0], delete (License.Path l) paths)
        | Some [] => Err ErrIndexOutOfRange
        | None => Ok (kept, paths)
        end
  end.

Definition groupLicenses (licenses : list License.t)
  : result groupError (list License.t) :=
  let paths := fold_left collectPath licenses ∅ in
  match fold_left mergePath (rangePaths paths) (Ok paths) with
  | Err e => Err e
  | Ok paths =>
      match fold_left keepLicense licenses (Ok ([], paths)) with
      | Err e => Err e
      | Ok (kept, _) => Ok kept
      end
  end.

End Grouping.

(** ** Notions used to state the properties of the scorer *)

Definition toWord (e : string * nat) : Word := {| Text := e.1; Pos := e.2 |}.

(** The word of the entry [e] is a key of [m]. *)
Definition hit (m : gmap string nat) (e : string * nat) : Prop :=
  is_Some (m !! e.1).

(** The number of tokens present in both word sets. *)
Definition common (words twords : gmap string nat) : nat :=
  size (dom words ∩ dom twords).

(** The Dice coefficient of two word sets that are not both empty. *)
Definition dice (words twords : gmap string nat) : Q :=
  (2 * inject_Z (Z.of_nat (common words twords)))
  / (inject_Z (Z.of_nat (size words)) + inject_Z (Z.of_nat (size twords))).

(** The two word sets are not both empty: the score is defined. *)
Definition scored (words : gmap string nat) (t : Template) : Prop :=
  size words + size (Words t) <> 0.

(** No two words of the set have the same position. *)
Definition posInjective (m : gmap string nat) : Prop :=
  forall w1 w2 p, m !! w1 = Some p -> m !! w2 = Some p -> w1 = w2.

Section ScorerLoop.

Variable rangeWords : nat -> gmap string nat -> list (string * nat).

(** The words of the [n]-th loop over [m] that are not keys of [other]. *)
Definition absent (n : nat) (m other : gmap string nat) : list Word :=
  toWord <$> filter (fun e => ¬ hit other e) (rangeWords n m).

Definition b0 : best :=
  {| bestScore := FVal (-1); bestTemplate := None;
     bestExtra := []; bestMissing := [] |}.

(** The state of [matchTemplates] after the loop over [templates]. *)
Definition loop (words : gmap string nat) (templates : list Template) : best :=
  fold_left (matchTemplate rangeWords words)
            (imap (fun i t => (i, t)) templates) b0.

(** What holds of the state after the loop over [templates]. *)
Definition loopInv (words : gmap string nat) (templates : list Template)
    (b : best) : Prop :=
  match bestTemplate b with
  | None =>
      bestScore b = FVal (-1) /\ bestExtra b = [] /\ bestMissing b = []
      /\ forall t, t ∈ templates -> ~ scored words t
  | Some t =>
      exists i,
        templates !! i = Some t /\ scored words t
        /\ bestScore b = FVal (dice words (Words t))
        /\ bestExtra b = absent (2 * i) words (Words t)
        /\ bestMissing b = absent (2 * i + 1) (Words t) words
        /\ (forall j t', templates !! j = Some t' -> scored words t' ->
              (dice words (Words t') <= dice words (Words t))%Q)
        /\ (forall j t', j < i -> templates !! j = Some t' -> scored words t' ->
              (dice words (Words t') < dice words (Words t))%Q)
  end.

End ScorerLoop.

(** ** Runs of the scorer

    The texts below are ASCII; [bytes.ToLower] never takes its Unicode
    branch on them. *)

Definition noUnicode (s : string) : string := s.

Definition emptyTemplate : Template :=
  {| Title := ""; Nickname := ""; Words := ∅ |}.

Definition permissionAsset : string :=
  "Permission notice
---
title: Permission License
nickname: perm
---
Copyright (c) [year] [fullname]
Permission is hereby granted, free of charge
".

Definition warrantyAsset : string :=
  "---
title: Warranty License
---
The software is provided without warranty
".

Definition permissionTemplate : Template :=
  (parseTemplate noUnicode permissionAsset).1.

Definition warrantyTemplate : Template :=
  (parseTemplate noUnicode warrantyAsset).1.

Definition runMatch (license : string) (templates : list Template)
  : MatchResult.t :=
  matchTemplates noUnicode rangeInOrder mergeSortWords license templates.

(** ** Notions used to state the properties of the copyright stripping *)

(** [t] is what is left of [s] after some of its first bytes. *)
Inductive suffixOf (t : string) : string -> Prop :=
| suffixOf_refl : suffixOf t t
| suffixOf_cons c s : suffixOf t s -> suffixOf t (String c s).

(** [p] holds of the text and of everything that is left of it after some
    of its first bytes. *)
Fixpoint everySuffix (p : string -> bool) (s : string) : bool :=
  p s && match s with
         | EmptyString => true
         | String _ r => everySuffix p r
         end.

Definition isSome {A} (x : option A) : bool :=
  match x with
  | Some _ => true
  | None => false
  end.

(** If [t] starts with the word copyright, a space and one of the
    spellings of the sign, and no year or [[year]] follows the sign after
    optional white space, then no notice starts right after the sign
    either (a notice starts with its optional white space). *)
Definition noNoticeAfterSign (t : string) : bool :=
  match litFold "copyright " t with
  | Some t1 =>
      match matchSign t1 with
      | Some t2 =>
          isSome (matchDate t2) || negb (isSome (reCopyright_match t2))
      | None => true
      end
  | None => true
  end.

(** [reCopyright] matches nowhere in the text. *)
Definition noNotice (t : string) : bool :=
  everySuffix (fun u => negb (isSome (reCopyright_match u))) t.

(** The text is empty or starts with a line feed. *)
Definition atLineEnd (t : string) : Prop :=
  t = EmptyString \/ exists r, t = String newline r.

Definition danglingSign : string :=
  "copyright (c)copyright 1999
1999".

(** A notice to fill in, as in the appendix of the GNU licenses, before a
    dated one. *)
Definition noticeToFillIn : string :=
  "copyright (c) <year>  <name of author>
copyright (c) 2007 free software foundation, inc.
this program is free software".

Definition mitHeader : string :=
  "the mit license (mit)

copyright (c) 2013 ben johnson
copyright 2014
 the above copyright notice and this permission notice".

(** ** Notions used to state the properties of the template parser *)

(** The length of the longest line of [s], where [cur] bytes of the first
    line have been read already. *)
Fixpoint longestLine (s : string) (cur : nat) : nat :=
  match s with
  | EmptyString => cur
  | String c r =>
      if Ascii.eqb c newline then Nat.max cur (longestLine r 0)
      else longestLine r (S cur)
  end.

Definition plainText : string :=
  "Do what you want.
- - -
No front matter here.".

(** ** Notions used to state the properties of the locator *)

(** The [j]-th directory of the upward walk from [path]. *)
Fixpoint ancestor (j : nat) (path : string) : string :=
  match j with
  | O => path
  | S j' => ancestor j' (filepath_Dir path)
  end.

(** A regular file whose name has a positive score. *)
Definition isCandidate (fi : FileInfo.t) : Prop :=
  FileInfo.IsRegular fi = true
  /\ fgt (scoreLicenseName (FileInfo.Name fi)) (FVal 0) = true.

(** [fi] is a candidate of [fis] that no regular file of [fis] beats. *)
Definition bestCandidate (fi : FileInfo.t) (fis : list FileInfo.t) : Prop :=
  fi ∈ fis /\ isCandidate fi
  /\ forall fi', fi' ∈ fis -> FileInfo.IsRegular fi' = true ->
       fgt (scoreLicenseName (FileInfo.Name fi'))
           (scoreLicenseName (FileInfo.Name fi)) = false.

Section LocatorNotions.

Variable ReadDir : string -> result string (list FileInfo.t).

(** The directory of [path] can be read and holds no candidate. *)
Definition barren (root path : string) : Prop :=
  exists fis,
    ReadDir (filepath_Join [root; "src"; path]) = Ok fis
    /\ forall fi, fi ∈ fis -> ~ isCandidate fi.

End LocatorNotions.

Definition file (name : string) : FileInfo.t :=
  {| FileInfo.Name := name; FileInfo.IsRegular := true |}.

Definition directory (name : string) : FileInfo.t :=
  {| FileInfo.Name := name; FileInfo.IsRegular := false |}.

(** A source tree: [a/LICENSE], [a/b/COPYING] and [a/b/c/main.go], and a
    package [x/y] without any license file. *)
Definition sampleTree (dir : string) : result string (list FileInfo.t) :=
  if String.eqb dir "/gopath/src/a/b/c" then Ok [file "main.go"]
  else if String.eqb dir "/gopath/src/a/b"
  then Ok [file "COPYING"; directory "c"; file "doc.go"]
  else if String.eqb dir "/gopath/src/a"
  then Ok [file "LICENSE"; directory "b"]
  else if String.eqb dir "/gopath/src/x/y" then Ok [file "y.go"]
  else if String.eqb dir "/gopath/src/x" then Ok [directory "y"]
  else Err "no such file or directory".

(** A source tree in which the directory [p/q] cannot be read: the package
    [p/q/r] has no license file of its own, and [p/LICENSE] is above the
    directory that cannot be read. *)
Definition lockedTree (dir : string) : result string (list FileInfo.t) :=
  if String.eqb dir "/gopath/src/p/q/r" then Ok [file "r.go"; directory "s"]
  else if String.eqb dir "/gopath/src/p" then Ok [file "LICENSE"; directory "q"]
  else Err "permission denied".

Definition samplePkg (importPath : string) : PkgInfo.t :=
  {| PkgInfo.Name := importPath; PkgInfo.Dir := "";
     PkgInfo.Root := "/gopath"; PkgInfo.ImportPath := importPath;
     PkgInfo.Error := None |}.

(** The name of an element of a path: no separator in it. *)
Definition noSlash (s : string) : Prop :=
  forallb_string (fun c => negb (Ascii.eqb c "/")) s = true.

(** An element that [filepath.Clean] keeps. *)
Definition realElem (s : string) : Prop := noSlash s /\ s <> "".

(** What holds of [bestScore] and [bestName] after the loop of
    [findLicense] over the entries [fis] of a directory. *)
Definition pickInv (fis : list FileInfo.t) (acc : float64 * string) : Prop :=
  (acc = (FVal 0, "") /\ forall fi, fi ∈ fis -> ~ isCandidate fi)
  \/ exists fi,
       bestCandidate fi fis
       /\ acc = (scoreLicenseName (FileInfo.Name fi), FileInfo.Name fi).

(** ** Notions used to state the properties of the grouping reducer *)

(** What the runtime promises for the [range] loop over [paths]. *)
Definition rangesPaths
    (rangePaths : gmap string (list License.t) -> list (string * list License.t))
  : Prop :=
  forall m, rangePaths m ≡ₚ map_to_list m.

(** A report row of a package whose license file was matched exactly. *)
Definition row (package path : string) : License.t :=
  {| License.Package := package; License.Score := FVal 1;
     License.Template := Some emptyTemplate; License.Path := path;
     License.Err := ""; License.ExtraWords := []; License.MissingWords := [] |}.

(** [prefix] is made of the first elements of the import path [package]. *)
Definition isPathPrefix (prefix package : string) : Prop :=
  exists rest, strings_Split package = strings_Split prefix ++ rest.

(** ** Notions used to state further properties of the tokenizer and parser *)

(** A byte of a normalized token: a word character that is not an upper
    case letter. *)
Definition isTokenChar (c : ascii) : bool := isWordChar c && negb (isUpper c).

(** The word copyright followed by a space, in any letter case, occurs
    nowhere in the text. *)
Definition noCopyrightWord (t : string) : bool :=
  everySuffix (fun u => negb (isSome (litFold "copyright " u))) t.

(** The line is a delimiter of the front matter. *)
Definition isDelimiter (line : string) : Prop := strings_TrimSpace line = "---".

(** The text [parseTemplate] collects from the lines of a body. *)
Definition bodyText (lines : list string) : string :=
  fold_left (fun text line => text +:+ line +:+ String newline "") lines "".

Definition shoutedLicense : string :=
  "COPYRIGHT (C) 2016 ACME
PERMISSION is Hereby Granted, permission IS granted.".

#[export] Instance isDelimiter_dec line : Decision (isDelimiter line).
Proof. unfold isDelimiter. apply _. Defined.

(** [parseTemplate] returns no error on the asset. *)
Definition parses (unicodeLower : string -> string) (asset : string) : bool :=
  negb (isSome (parseTemplate unicodeLower asset).2).

Definition unclosedAsset : string :=
  "---
title: Unfinished License
Permission is hereby granted
".

Definition dashedAsset : string :=
  "notes
---
title: Dashed License
---
first part
---
second part
".

(** ** Notions used to state further properties of the locator *)

(** The outcome [res] of [findLicense] on [path] comes from the [k]-th
    directory of the upward walk, all the directories before it being
    readable and without candidate: the walk reached [.] and there is no
    license file, or the directory could not be read, or it holds the best
    candidate returned. *)
Definition decidedAt (ReadDir : string -> result string (list FileInfo.t))
    (root path : string) (k : nat) (res : result string string) : Prop :=
  (forall j, j < k ->
     ancestor j path <> "." /\ barren ReadDir root (ancestor j path))
  /\ ((ancestor k path = "." /\ res = Ok "")
      \/ (ancestor k path <> "."
          /\ exists err,
               ReadDir (filepath_Join [root; "src"; ancestor k path]) = Err err
               /\ res = Err err)
      \/ (ancestor k path <> "."
          /\ exists fis fi,
               ReadDir (filepath_Join [root; "src"; ancestor k path]) = Ok fis
               /\ bestCandidate fi fis
               /\ res = Ok (filepath_Join [ancestor k path; FileInfo.Name fi]))).

(** A file system in which every directory is empty. *)
Definition emptyTree (dir : string) : result string (list FileInfo.t) := Ok [].

(** ** Notions used to state further properties of the grouping reducer *)

(** The rows of [licenses] whose license file is [path], in order. *)
Definition rowsOf (path : string) (licenses : list License.t)
  : list License.t :=
  List.filter (fun l => String.eqb (License.Path l) path) licenses.

(** What the second loop of [groupLicenses] leaves of the rows [v] of one
    license file: two rows or more become the first one, named after their
    [longestCommonPrefix]. *)
Definition merged (v : list License.t) : list License.t :=
  match v with
  | l :: _ :: _ => [License.withPackage l (longestCommonPrefix v)]
  | _ => v
  end.

(** A report row of a package without license file. *)
Definition bareRow (package : string) : License.t :=
  {| License.Package := package; License.Score := FVal 0;
     License.Template := None; License.Path := "";
     License.Err := ""; License.ExtraWords := []; License.MissingWords := [] |}.

(** What the third loop relies on: the map holds, for a license file, rows
    of that file, and at least one. *)
Definition pathsInv (m : gmap string (list License.t)) : Prop :=
  forall k v, m !! k = Some v ->
    v <> [] /\ forall l, l ∈ v -> License.Path l = k.

(** ** Notions used to state further properties of [longestCommonPrefix] *)

(** The prefix tree after the first loop of [longestCommonPrefix]. *)
Definition buildTree (licenses : list License.t) : Node :=
  fold_left (fun root l => addParts (strings_Split (License.Package l)) root)
            licenses (mkNode "" ∅).

(** The node reached from [n] along the elements of [path]. *)
Fixpoint walk (n : Node) (path : list string) : option Node :=
  match path with
  | [] => Some n
  | part :: rest =>
      match Children n !! part with
      | Some c => walk c rest
      | None => None
      end
  end.

(** Every node below [n] is named after its key in the map of its parent. *)
Definition wellNamed (n : Node) : Prop :=
  forall q p c, walk n (q ++ [p]) = Some c -> Name c = p.

Fixpoint height (n : Node) : nat :=
  match n with
  | mkNode _ children =>
      S (map_fold (fun _ c h => Nat.max (height c) h) 0 children)
  end.

(** No import path of [licenses] is made of the first elements of another
    one. *)
Definition unnested (licenses : list License.t) : Prop :=
  forall l l', l ∈ licenses -> l' ∈ licenses ->
    isPathPrefix (License.Package l) (License.Package l') ->
    License.Package l = License.Package l'.

(** ** The Go standard library: more of package strings, and sort.Strings *)

(** [strings.HasPrefix]. *)
Definition strings_HasPrefix (s prefix : string) : bool :=
  String.prefix prefix s.

(** [strings.Contains]. *)
Fixpoint strings_Contains (s substr : string) : bool :=
  String.prefix substr s
  || match s with
     | EmptyString => false
     | String _ r => strings_Contains r substr
     end.

(** [strings.Split(s, sep)] for a separator [sep] of one byte. *)
Fixpoint strings_SplitOn (sep : ascii) (s : string) : list string :=
  match s with
  | EmptyString => [EmptyString]
  | String c r =>
      if Ascii.eqb c sep then EmptyString :: strings_SplitOn sep r
      else
        match strings_SplitOn sep r with
        | h :: t => String c h :: t
        | [] => [String c EmptyString]
        end
  end.

(** [strings.Join(elems, sep)]. *)
Fixpoint strings_JoinWith (sep : string) (elems : list string) : string :=
  match elems with
  | [] => EmptyString
  | [e] => e
  | e :: rest => e +:+ sep +:+ strings_JoinWith sep rest
  end.

(** The order of Go strings: byte by byte. *)
Definition strLe (s t : string) : Prop := String.leb s t = true.

#[export] Instance strLe_dec : RelDecision strLe.
Proof. intros s t. unfold strLe. apply _. Defined.

#[export] Instance strLe_total : Total strLe.
Proof. intros s t. unfold strLe. apply String.leb_total. Defined.

(** [sort.Strings].  Two strings that compare equal are the same string,
    so that every sort gives the same list. *)
Definition sort_Strings (l : list string) : list string :=
  merge_sort strLe l.

(** ** Listing the packages with the go command *)

(** The errors of [expandPackages] and [listPackagesAndDeps]: a
    [*MissingError], or the error of [fmt.Errorf]. *)
Inductive goError : Type :=
| MissingError (output : string)
| GoError (message : string).

(** The method [Error] of these errors. *)
Definition goError_Error (err : goError) : string :=
  match err with
  | MissingError output => output
  | GoError message => message
  end.

Section GoList.

(** [os.Environ]. *)
Variable environ : list string.

(** [exec.Command("go", args...)] run by [CombinedOutput] with the
    environment [Env]: the output, and whether the error is not nil. *)
Variable goCommand : option (list string) -> list string -> string * bool.

(** [fixEnv]; the result [nil] is [None]. *)
Definition fixEnv (gopath : string) : option (list string) :=
  if String.eqb gopath "" then None
  else
    Some (fold_left
            (fun kept env =>
               if negb (strings_HasPrefix env "GOPATH=") then kept ++ [env]
               else kept)
            environ ["GOPATH=" +:+ gopath]).

Definition goFailed (args : list string) (output : string) : goError :=
  GoError ("'go " +:+ strings_JoinWith " " args +:+ "' failed with:"
           +:+ String newline output).

Definition expandPackages (gopath : string) (pkgs : list string)
  : result goError (list string) :=
  let args := ["list"] ++ pkgs in
  let '(out, failed) := goCommand (fixEnv gopath) args in
  if failed then
    if strings_Contains out "cannot find package"
       || strings_Contains out "no buildable Go source files"
       || strings_Contains out "cmd: no Go files in"
    then Err (MissingError out)
    else Err (goFailed args out)
  else
    Ok (fold_left
          (fun names s =>
             let s := strings_TrimSpace s in
             if negb (String.eqb s "") then names ++ [s] else names)
          (strings_SplitOn newline out) []).

(** The body of the loop over the output of the second command. *)
Definition addDep (acc : list string * gmap string bool) (s : string)
  : list string * gmap string bool :=
  let '(deps, seen) := acc in
  let s := strings_TrimSpace s in
  if negb (String.eqb s "") && negb (default false (seen !! s))
  then (deps ++ [s], <[s := true]> seen)
  else acc.

(** The body of the loop over [pkgs]. *)
Definition addPkg (acc : list string * gmap string bool) (pkg : string)
  : list string * gmap string bool :=
  let '(deps, seen) := acc in
  if negb (default false (seen !! pkg))
  then (deps ++ [pkg], <[pkg := true]> seen)
  else acc.

Definition listPackagesAndDeps (gopath : string) (pkgs : list string)
  : result goError (list string) :=
  match expandPackages gopath pkgs with
  | Err err => Err err
  | Ok pkgs =>
      let args := ["list"; "-f"; "{{range .Deps}}{{.}}|{{end}}"] ++ pkgs in
      let '(out, failed) := goCommand (fixEnv gopath) args in
      if failed then
        if strings_Contains out "cannot find package"
           || strings_Contains out "no buildable Go source files"
        then Err (MissingError out)
        else Err (goFailed args out)
      else
        let acc := fold_left addDep (strings_SplitOn "|" out) ([], ∅) in
        let '(deps, _) := fold_left addPkg pkgs acc in
        Ok (sort_Strings deps)
  end.

Definition listStandardPackages (gopath : string)
  : result goError (list string) :=
  expandPackages gopath ["std"; "cmd"].

End GoList.

(** ** The report *)

(** The errors of [listLicenses]. *)
Inductive listError : Type :=
| ErrTemplates (err : scanError)
| ErrMissing (output : string)
| ErrMessage (message : string)
| ErrPackagesInfo (err : string)
| ErrReadDir (err : string)
| ErrReadFile (err : string).

Section Lister.

Variable unicodeLower : string -> string.

(** The order of the [range] loops and the [sort.Sort] of the calls of
    [matchTemplates], numbered in the order of the calls. *)
Variable rangeWords : nat -> nat -> gmap string nat -> list (string * nat).
Variable sortWords : nat -> list Word -> list Word.

(** The contents of [assets.Assets]. *)
Variable assets : list string.

Variable environ : list string.
Variable goCommand : option (list string) -> list string -> string * bool.

(** [getPackagesInfo]: the decoding of the output of [go list -e -json]
    is not modelled. *)
Variable getPackagesInfo :
  string -> list string -> result string (list PkgInfo.t).

Variable ReadDir : string -> result string (list FileInfo.t).

(** [ioutil.ReadFile]. *)
Variable ReadFile : string -> result string string.

(** The fuel of each call of [findLicense]. *)
Variable fuel : nat.

(** The row of a package that [go list] reports with an error. *)
Definition failedRow (info : PkgInfo.t) (err : string) : License.t :=
  {| License.Package := PkgInfo.Name info; License.Score := FVal 0;
     License.Template := None; License.Path := ""; License.Err := err;
     License.ExtraWords := []; License.MissingWords := [] |}.

(** The row of a package without license file. *)
Definition unlocatedRow (info : PkgInfo.t) (path : string) : License.t :=
  {| License.Package := PkgInfo.ImportPath info; License.Score := FVal 0;
     License.Template := None; License.Path := path; License.Err := "";
     License.ExtraWords := []; License.MissingWords := [] |}.

(** The row of a package with the match [m] of its license file. *)
Definition matchedRow (info : PkgInfo.t) (path : string) (m : MatchResult.t)
  : License.t :=
  {| License.Package := PkgInfo.ImportPath info;
     License.Score := MatchResult.Score m;
     License.Template := MatchResult.Template m;
     License.Path := path; License.Err := "";
     License.ExtraWords := MatchResult.ExtraWords m;
     License.MissingWords := MatchResult.MissingWords m |}.

(** The body of the loop over [infos]; [None] when a call of
    [findLicense] is out of fuel. *)
Definition listLicense (templates : list Template) (stdSet : gmap string bool)
    (acc : option (result listError
                     (gmap string MatchResult.t * list License.t)))
    (info : PkgInfo.t)
  : option (result listError (gmap string MatchResult.t * list License.t)) :=
  match acc with
  | None => None
  | Some (Err e) => Some (Err e)
  | Some (Ok (matched, licenses)) =>
      match PkgInfo.Error info with
      | Some err => Some (Ok (matched, licenses ++ [failedRow info err]))
      | None =>
          if default false (stdSet !! PkgInfo.ImportPath info)
          then Some (Ok (matched, licenses))
          else
            match findLicense ReadDir fuel info with
            | None => None
            | Some (Err err) => Some (Err (ErrReadDir err))
            | Some (Ok path) =>
                if negb (String.eqb path "") then
                  let fpath :=
                    filepath_Join [PkgInfo.Root info; "src"; path] in
                  match matched !! fpath with
                  | Some m =>
                      Some (Ok (matched,
                                licenses ++ [matchedRow info path m]))
                  | None =>
                      match ReadFile fpath with
                      | Err err => Some (Err (ErrReadFile err))
                      | Ok data =>
                          let m :=
                            matchTemplates unicodeLower
                              (rangeWords (size matched))
                              (sortWords (size matched)) data templates in
                          Some (Ok (<[fpath := m]> matched,
                                    licenses ++ [matchedRow info path m]))
                      end
                  end
                else Some (Ok (matched, licenses ++ [unlocatedRow info path]))
            end
      end
  end.

Definition listLicenses (gopath : string) (pkgs : list string)
  : option (result listError (list License.t)) :=
  match loadTemplates unicodeLower assets with
  | Err err => Some (Err (ErrTemplates err))
  | Ok templates =>
      match listPackagesAndDeps environ goCommand gopath pkgs with
      | Err (MissingError output) => Some (Err (ErrMissing output))
      | Err (GoError message) =>
          Some (Err (ErrMessage
                       ("could not list " +:+ strings_JoinWith " " pkgs
                        +:+ " dependencies: " +:+ message)))
      | Ok deps =>
          match listStandardPackages environ goCommand gopath with
          | Err err =>
              Some (Err (ErrMessage
                           ("could not list standard packages: "
                            +:+ goError_Error err)))
          | Ok std =>
              let stdSet := fold_left (fun s n => <[n := true]> s) std ∅ in
              match getPackagesInfo gopath deps with
              | Err err => Some (Err (ErrPackagesInfo err))
              | Ok infos =>
                  match fold_left (listLicense templates stdSet) infos
                          (Some (Ok (∅, []))) with
                  | None => None
                  | Some (Err e) => Some (Err e)
                  | Some (Ok (_, licenses)) => Some (Ok licenses)
                  end
              end
          end
      end
  end.

End Lister.

(** ** Notions used to state the properties of the package listing *)

Definition isGopath (env : string) : bool := strings_HasPrefix env "GOPATH=".

(** A go command: [go list a] prints the package [a], and the list of
    the dependencies of [a] names [b] twice and [c]. *)
Definition sampleGo (env : option (list string)) (args : list string)
  : string * bool :=
  match args with
  | [_; _] => ("a", false)
  | _ => (" b| c|b|", false)
  end.

(** What the two loops of [listPackagesAndDeps] keep. *)
Definition seenInv (acc : list string * gmap string bool) : Prop :=
  NoDup acc.1 /\ forall s, default false (acc.2 !! s) = true <-> s ∈ acc.1.

(** ** Notions used to state the properties of the report *)

(** The package [info] has a row in the report: [go list] reports it with
    an error, or it is not one of the standard packages [std]. *)
Definition reported (std : list string) (info : PkgInfo.t) : bool :=
  isSome (PkgInfo.Error info)
  || negb (bool_decide (PkgInfo.ImportPath info ∈ std)).

(** The same with the set [stdSet] of [listLicenses]. *)
Definition shown (stdSet : gmap string bool) (info : PkgInfo.t) : bool :=
  isSome (PkgInfo.Error info)
  || negb (default false (stdSet !! PkgInfo.ImportPath info)).

Section ListerNotions.

Variable unicodeLower : string -> string.
Variable rangeWords : nat -> nat -> gmap string nat -> list (string * nat).
Variable sortWords : nat -> list Word -> list Word.
Variable ReadDir : string -> result string (list FileInfo.t).
Variable ReadFile : string -> result string string.
Variable fuel : nat.

(** [m] is the result of a call of [matchTemplates] on the content of the
    file [fpath]. *)
Definition matchOf (templates : list Template) (fpath : string)
    (m : MatchResult.t) : Prop :=
  exists k data,
    ReadFile fpath = Ok data
    /\ m = matchTemplates unicodeLower (rangeWords k) (sortWords k) data
             templates.

(** Every entry of the cache of [listLicenses] is the match of its file. *)
Definition cacheInv (templates : list Template)
    (matched : gmap string MatchResult.t) : Prop :=
  forall fpath m, matched !! fpath = Some m -> matchOf templates fpath m.

(** [l] is the row of the package [info]: the error of [go list]; or no
    license file was found; or the license file that [findLicense] found,
    with its match, which is the entry of the file in [matched]. *)
Definition rowOf (templates : list Template)
    (matched : gmap string MatchResult.t) (info : PkgInfo.t) (l : License.t)
  : Prop :=
  match PkgInfo.Error info with
  | Some err => l = failedRow info err
  | None =>
      exists path,
        findLicense ReadDir fuel info = Some (Ok path)
        /\ if String.eqb path "" then l = unlocatedRow info path
           else
             exists m,
               matched !! filepath_Join [PkgInfo.Root info; "src"; path]
               = Some m
               /\ matchOf templates
                    (filepath_Join [PkgInfo.Root info; "src"; path]) m
               /\ l = matchedRow info path m
  end.

End ListerNotions.

(** A go command: the package asked for is [a/b/c], its dependencies are
    [a/b], [fmt] and [x/y], and the standard packages are [fmt]. *)
Definition listerGo (env : option (list string)) (args : list string)
  : string * bool :=
  match args with
  | [_; _] => ("a/b/c", false)
  | [_; _; _] => ("fmt", false)
  | _ => ("a/b|fmt|x/y|", false)
  end.

Definition sampleInfos (gopath : string) (pkgs : list string)
  : result string (list PkgInfo.t) :=
  Ok (samplePkg <$> pkgs).

Definition sampleFiles (fpath : string) : result string string :=
  if String.eqb fpath "/gopath/src/a/b/COPYING"
  then Ok "Permission is hereby granted, free of charge"
  else Err "no such file or directory".

Definition sampleReport : option (result listError (list License.t)) :=
  listLicenses noUnicode (fun _ => rangeInOrder) (fun _ => mergeSortWords)
    [permissionAsset; warrantyAsset] [] listerGo sampleInfos sampleTree
    sampleFiles 3 "" ["a/b/c"].

(** ** Facts about the scorer *)

Lemma fold_countWord t l c extra :
  fold_left (countWord t) l (c, extra)
  = (c + length (filter (hit (Words t)) l),
     extra ++ (toWord <$> filter (fun e => ¬ hit (Words t) e) l)).
Proof.
  revert c extra. induction l as [|[w pos] l IH]; intros c extra; simpl.
  - by rewrite Nat.add_0_r, app_nil_r.
  - destruct (Words t !! w) as [p|] eqn:E; rewrite IH.
    + rewrite filter_cons_True by (unfold hit; simpl; by rewrite E).
      rewrite filter_cons_False by (unfold hit; simpl; rewrite E; by intros []).
      simpl. f_equal. lia.
    + rewrite filter_cons_False by (unfold hit; simpl; rewrite E; by intros [? ?]).
      rewrite filter_cons_True by (unfold hit; simpl; rewrite E; by intros [? ?]).
      simpl. by rewrite <- app_assoc.
Qed.

Lemma fold_missWord words l missing :
  fold_left (missWord words) l missing
  = missing ++ (toWord <$> filter (fun e => ¬ hit words e) l).
Proof.
  revert missing. induction l as [|[w pos] l IH]; intros missing; simpl.
  - by rewrite app_nil_r.
  - destruct (words !! w) as [p|] eqn:E; rewrite IH.
    + by rewrite filter_cons_False by (unfold hit; simpl; rewrite E; by intros []).
    + rewrite filter_cons_True by (unfold hit; simpl; rewrite E; by intros [? ?]).
      simpl. by rewrite <- app_assoc.
Qed.

Lemma length_hits_map (words twords : gmap string nat) :
  length (filter (hit twords) (map_to_list words)) = common words twords.
Proof.
  unfold common. induction words as [|w p words Hw IH] using map_ind.
  - rewrite map_to_list_empty, dom_empty_L. simpl.
    replace (∅ ∩ dom twords) with (∅ : gset string) by set_solver. done.
  - rewrite (map_to_list_insert words w p Hw).
    rewrite filter_cons, dom_insert_L. unfold hit at 1. simpl.
    assert (w ∉ dom words) by by apply not_elem_of_dom.
    destruct (decide (is_Some (twords !! w))) as [Hin|Hout].
    + apply elem_of_dom in Hin.
      replace (({[w]} ∪ dom words) ∩ dom twords)
        with ({[w]} ∪ (dom words ∩ dom twords)) by set_solver.
      rewrite size_union by set_solver. rewrite size_singleton. simpl. by rewrite IH.
    + rewrite <- elem_of_dom in Hout.
      replace (({[w]} ∪ dom words) ∩ dom twords)
        with (dom words ∩ dom twords) by set_solver.
      done.
Qed.

Lemma common_le_l (words twords : gmap string nat) : common words twords <= size words.
Proof.
  unfold common. rewrite <- (size_dom (D := gset string) words).
  apply subseteq_size. set_solver.
Qed.

Lemma common_le_r (words twords : gmap string nat) : common words twords <= size twords.
Proof.
  unfold common. rewrite <- (size_dom (D := gset string) twords).
  apply subseteq_size. set_solver.
Qed.

Lemma common_full (words twords : gmap string nat) :
  2 * common words twords = size words + size twords <-> dom words = dom twords.
Proof.
  pose proof (common_le_l words twords) as Hl.
  pose proof (common_le_r words twords) as Hr.
  split.
  - intros H.
    assert (common words twords = size words) as El by lia.
    assert (common words twords = size twords) as Er by lia.
    unfold common in El, Er.
    rewrite <- (size_dom (D := gset string) words) in El.
    rewrite <- (size_dom (D := gset string) twords) in Er.
    assert (dom words ∩ dom twords = dom words) as Hw.
    { apply set_subseteq_size_eq; [set_solver | lia]. }
    assert (dom words ∩ dom twords = dom twords) as Ht.
    { apply set_subseteq_size_eq; [set_solver | lia]. }
    congruence.
  - intros E. unfold common. rewrite <- E.
    replace (dom words ∩ dom words) with (dom words) by set_solver.
    rewrite (size_dom (D := gset string) words).
    assert (size twords = size words) as ->; [|lia].
    rewrite <- (size_dom (D := gset string) twords), <- E. apply size_dom.
Qed.

(** The value of [score] on the count of common tokens: undefined when both
    sets are empty, the Dice coefficient otherwise. *)
Lemma score_common (words twords : gmap string nat) :
  score (common words twords) words twords
  = if Nat.eqb (size words + size twords) 0 then FNaN
    else FVal (dice words twords).
Proof.
  unfold score, dice, float64_of_int, fmul, fadd, fdiv.
  set (n := size words). set (m := size twords). set (c := common words twords).
  assert (c <= n) as Hc by apply common_le_l.
  destruct (Nat.eqb_spec (n + m) 0) as [E|E].
  - assert (n = 0) as -> by lia. assert (m = 0) as -> by lia.
    assert (c = 0) as -> by lia. reflexivity.
  - destruct (Qeq_bool (inject_Z (Z.of_nat n) + inject_Z (Z.of_nat m)) 0) eqn:B; [|done].
    exfalso. apply Qeq_bool_iff in B. rewrite <- inject_Z_plus in B.
    unfold Qeq in B. simpl in B. lia.
Qed.

Lemma dice_bounds (words twords : gmap string nat) :
  size words + size twords <> 0 ->
  (0 <= dice words twords)%Q /\ (dice words twords <= 1)%Q.
Proof.
  intros Hnz. unfold dice.
  pose proof (common_le_l words twords) as Hl.
  pose proof (common_le_r words twords) as Hr.
  set (n := size words) in *. set (m := size twords) in *.
  set (c := common words twords) in *.
  assert (0 < inject_Z (Z.of_nat n) + inject_Z (Z.of_nat m))%Q as Hpos.
  { rewrite <- inject_Z_plus. change 0%Q with (inject_Z 0). rewrite <- Zlt_Qlt. lia. }
  split.
  - apply Qle_shift_div_l; [done|]. rewrite Qmult_0_l.
    change 2%Q with (inject_Z 2). rewrite <- inject_Z_mult.
    change 0%Q with (inject_Z 0). rewrite <- Zle_Qle. lia.
  - apply Qle_shift_div_r; [done|]. rewrite Qmult_1_l.
    change 2%Q with (inject_Z 2). rewrite <- inject_Z_mult, <- inject_Z_plus.
    rewrite <- Zle_Qle. lia.
Qed.

Lemma dice_one (words twords : gmap string nat) :
  size words + size twords <> 0 ->
  (dice words twords == 1)%Q <-> dom words = dom twords.
Proof.
  intros Hnz. rewrite <- common_full. unfold dice.
  set (n := size words) in *. set (m := size twords) in *.
  set (c := common words twords) in *.
  assert (~ (inject_Z (Z.of_nat n) + inject_Z (Z.of_nat m) == 0)%Q) as Hne.
  { rewrite <- inject_Z_plus. unfold Qeq. simpl. lia. }
  split.
  - intros E. apply (Qmult_inj_r _ _ _ Hne) in E.
    rewrite Qmult_1_l in E. unfold Qdiv in E.
    rewrite <- Qmult_assoc, (Qmult_comm (/ _)), Qmult_inv_r, Qmult_1_r in E by done.
    change 2%Q with (inject_Z 2) in E.
    rewrite <- inject_Z_mult, <- inject_Z_plus in E. unfold Qeq in E. simpl in E. lia.
  - intros E. apply (Qmult_inj_r _ _ _ Hne).
    rewrite Qmult_1_l. unfold Qdiv.
    rewrite <- Qmult_assoc, (Qmult_comm (/ _)), Qmult_inv_r, Qmult_1_r by done.
    change 2%Q with (inject_Z 2).
    rewrite <- inject_Z_mult, <- inject_Z_plus. unfold Qeq. simpl. lia.
Qed.

Lemma fgt_FVal (a b : Q) : fgt (FVal a) (FVal b) = true <-> (b < a)%Q.
Proof.
  simpl. rewrite negb_true_iff. split.
  - intros H. apply Qnot_le_lt. intros Hle. apply Qle_bool_iff in Hle. congruence.
  - intros H. destruct (Qle_bool a b) eqn:E; [|done].
    apply Qle_bool_iff in E. exfalso. by apply (Qlt_not_le _ _ H).
Qed.

Lemma fgt_FVal_false (a b : Q) : fgt (FVal a) (FVal b) = false <-> (a <= b)%Q.
Proof.
  simpl. rewrite negb_false_iff. apply Qle_bool_iff.
Qed.

Section ScorerFacts.

Variable rangeWords : nat -> gmap string nat -> list (string * nat).
Hypothesis range_ok : rangesWords rangeWords.

Lemma length_hits n words twords :
  length (filter (hit twords) (rangeWords n words)) = common words twords.
Proof. by rewrite (range_ok n words), length_hits_map. Qed.

Lemma matchTemplate_eq words b i t :
  matchTemplate rangeWords words b (i, t)
  = let s := score (common words (Words t)) words (Words t) in
    if fgt s (bestScore b)
    then {| bestScore := s; bestTemplate := Some t;
            bestExtra := absent rangeWords (2 * i) words (Words t);
            bestMissing := absent rangeWords (2 * i + 1) (Words t) words |}
    else b.
Proof.
  unfold matchTemplate. rewrite fold_countWord, fold_missWord.
  rewrite length_hits. reflexivity.
Qed.

Lemma loop_snoc words templates t :
  loop rangeWords words (templates ++ [t])
  = matchTemplate rangeWords words (loop rangeWords words templates) (length templates, t).
Proof.
  unfold loop. rewrite imap_app, fold_left_app, imap_cons, imap_nil.
  cbn [fold_left]. by rewrite Nat.add_0_r.
Qed.

Lemma loop_inv words templates : loopInv rangeWords words templates (loop rangeWords words templates).
Proof.
  induction templates as [|t templates IH] using rev_ind.
  - unfold loopInv, loop. simpl. repeat split; try done.
    intros t Ht. by apply elem_of_nil in Ht.
  - rewrite loop_snoc, matchTemplate_eq. cbv zeta.
    rewrite score_common.
    destruct (Nat.eqb_spec (size words + size (Words t)) 0) as [Ez|Enz].
    + (* both sets empty: the score is not a number and nothing changes *)
      replace (fgt FNaN (bestScore (loop rangeWords words templates))) with false by done.
      revert IH. generalize (loop rangeWords words templates). intros b. unfold loopInv.
      destruct (bestTemplate b) as [t0|].
      * intros (i & Hi & Hs & Hb & He & Hm & Hmax & Hfirst).
        exists i. split; [by apply lookup_app_l_Some|].
        repeat split; try done.
        -- intros j t' Hj Hsc. apply lookup_app_Some in Hj as [Hj|[_ Hj]].
           ++ by eapply Hmax.
           ++ apply list_lookup_singleton_Some in Hj as [_ <-]. by destruct Hsc.
        -- intros j t' Hlt Hj Hsc. apply lookup_app_Some in Hj as [Hj|[_ Hj]].
           ++ by eapply Hfirst.
           ++ apply list_lookup_singleton_Some in Hj as [_ <-]. by destruct Hsc.
      * intros (Hb & He & Hm & Hall). repeat split; try done.
        intros t' Ht'. apply elem_of_app in Ht' as [Ht'|Ht'].
        -- by apply Hall.
        -- apply list_elem_of_singleton in Ht' as ->. intros Hsc. by apply Hsc.
    + pose proof (dice_bounds words (Words t) Enz) as [Hd0 Hd1].
      revert IH. generalize (loop rangeWords words templates). intros b. unfold loopInv at 1.
      destruct (bestTemplate b) as [t0|] eqn:Eb.
      * intros (i & Hi & Hs & Hb & He & Hm & Hmax & Hfirst). rewrite Hb.
        destruct (fgt (FVal (dice words (Words t))) (FVal (dice words (Words t0))))
          eqn:Egt.
        -- apply fgt_FVal in Egt. unfold loopInv. simpl.
           exists (length templates). split.
           { rewrite lookup_app_r by lia. by rewrite Nat.sub_diag. }
           repeat split; try done.
           ++ intros j t' Hj Hsc. apply lookup_app_Some in Hj as [Hj|[_ Hj]].
              ** apply Qlt_le_weak. eapply Qle_lt_trans; [by eapply Hmax|done].
              ** apply list_lookup_singleton_Some in Hj as [_ <-]. apply Qle_refl.
           ++ intros j t' Hlt Hj Hsc. apply lookup_app_Some in Hj as [Hj|[Hge _]].
              ** eapply Qle_lt_trans; [by eapply Hmax|done].
              ** lia.
        -- apply fgt_FVal_false in Egt. unfold loopInv. rewrite Eb.
           exists i. split; [by apply lookup_app_l_Some|].
           repeat split; try done.
           ++ intros j t' Hj Hsc. apply lookup_app_Some in Hj as [Hj|[_ Hj]].
              ** by eapply Hmax.
              ** by apply list_lookup_singleton_Some in Hj as [_ <-].
           ++ intros j t' Hlt Hj Hsc. apply lookup_app_Some in Hj as [Hj|[Hge Hj]].
              ** by eapply Hfirst.
              ** apply lookup_lt_Some in Hi. lia.
      * intros (Hb & He & Hm & Hall). rewrite Hb.
        assert (fgt (FVal (dice words (Words t))) (FVal (-1)) = true) as ->.
        { apply fgt_FVal. eapply Qlt_le_trans; [|exact Hd0]. reflexivity. }
        unfold loopInv. simpl. exists (length templates). split.
        { rewrite lookup_app_r by lia. by rewrite Nat.sub_diag. }
        repeat split; try done.
        -- intros j t' Hj Hsc. apply lookup_app_Some in Hj as [Hj|[_ Hj]].
           ++ exfalso. eapply Hall; [|exact Hsc]. by eapply list_elem_of_lookup_2.
           ++ apply list_lookup_singleton_Some in Hj as [_ <-]. apply Qle_refl.
        -- intros j t' Hlt Hj Hsc. apply lookup_app_Some in Hj as [Hj|[Hge _]].
           ++ exfalso. eapply Hall; [|exact Hsc]. by eapply list_elem_of_lookup_2.
           ++ lia.
Qed.

End ScorerFacts.

Lemma sortAndReturnWords_fmap sortWords (l : list Word) :
  sortAndReturnWords sortWords l = Text <$> sortWords l.
Proof.
  unfold sortAndReturnWords.
  assert (forall acc (ws : list Word),
    fold_left (fun tokens w => tokens ++ [Text w]) ws acc = acc ++ (Text <$> ws)) as H.
  { intros acc ws. revert acc. induction ws as [|w ws IH]; intros acc; simpl.
    - by rewrite app_nil_r.
    - rewrite IH. by rewrite <- app_assoc. }
  apply H.
Qed.

Section AbsentFacts.

Variable rangeWords : nat -> gmap string nat -> list (string * nat).
Hypothesis range_ok : rangesWords rangeWords.

Lemma elem_of_absent n (m other : gmap string nat) (w : Word) :
  w ∈ absent rangeWords n m other
  <-> m !! Text w = Some (Pos w) /\ other !! Text w = None.
Proof.
  unfold absent. rewrite list_elem_of_fmap. split.
  - intros ([k p] & -> & Hin). apply list_elem_of_filter in Hin as [Hno Hin].
    rewrite (range_ok n m) in Hin. apply elem_of_map_to_list in Hin.
    split; [done|]. unfold hit in Hno. simpl in *.
    destruct (other !! k) eqn:E; [|done]. destruct Hno. by eexists.
  - intros [Hm Ho]. exists (Text w, Pos w). split; [by destruct w|].
    apply list_elem_of_filter. split.
    + unfold hit. simpl. rewrite Ho. by intros [? ?].
    + rewrite (range_ok n m). by apply elem_of_map_to_list.
Qed.

Lemma elem_of_absent_text n (m other : gmap string nat) (s : string) :
  s ∈ Text <$> absent rangeWords n m other <-> s ∈ dom m /\ s ∉ dom other.
Proof.
  rewrite list_elem_of_fmap. rewrite elem_of_dom, not_elem_of_dom. split.
  - intros (w & -> & Hw). apply elem_of_absent in Hw as [Hm Ho]. split; [by eexists|done].
  - intros [[p Hp] Ho]. exists {| Text := s; Pos := p |}. split; [done|].
    by apply elem_of_absent.
Qed.

Lemma length_absent n (words twords : gmap string nat) :
  common words twords + length (absent rangeWords n words twords) = size words.
Proof.
  unfold absent. rewrite length_fmap, <- (length_hits rangeWords range_ok n).
  rewrite <- length_app.
  rewrite (Permutation_length (filter_app_complement (hit twords) (rangeWords n words))).
  rewrite (range_ok n words). apply length_map_to_list.
Qed.

End AbsentFacts.

Section ScorerTheorems.

Variable unicodeLower : string -> string.
Variable rangeWords : nat -> gmap string nat -> list (string * nat).
Variable sortWords : list Word -> list Word.

Lemma matchTemplates_loop license templates :
  let b := loop rangeWords (makeWordSet unicodeLower license) templates in
  matchTemplates unicodeLower rangeWords sortWords license templates
  = {| MatchResult.Template := bestTemplate b;
       MatchResult.Score := bestScore b;
       MatchResult.ExtraWords := sortAndReturnWords sortWords (bestExtra b);
       MatchResult.MissingWords := sortAndReturnWords sortWords (bestMissing b) |}.
Proof. reflexivity. Qed.

End ScorerTheorems.

(** C1, as amended.  When the template list is not empty and the candidate
    or at least one template has a word, the score returned by
    [matchTemplates] lies between 0 and 1, and it is 1 exactly when the
    candidate and the best template have the same set of tokens. *)
Theorem score_bounds_and_unit unicodeLower rangeWords sortWords license templates :
  rangesWords rangeWords ->
  templates <> [] ->
  (makeWordSet unicodeLower license <> ∅
   \/ exists t, t ∈ templates /\ Words t <> ∅) ->
  let words := makeWordSet unicodeLower license in
  let r := matchTemplates unicodeLower rangeWords sortWords license templates in
  exists t,
    MatchResult.Template r = Some t /\ t ∈ templates
    /\ unit_interval (MatchResult.Score r)
    /\ (is_one (MatchResult.Score r) <-> dom words = dom (Words t)).
Proof.
  intros Hrange Hne Hwords words r. subst r. rewrite matchTemplates_loop. simpl.
  fold words. pose proof (loop_inv rangeWords Hrange words templates) as Hinv.
  unfold loopInv in Hinv.
  destruct (bestTemplate (loop rangeWords words templates)) as [t|].
  - destruct Hinv as (i & Hi & Hs & Hb & _). exists t. rewrite Hb.
    split; [done|]. split; [by eapply list_elem_of_lookup_2|].
    split; [by apply dice_bounds | by apply dice_one].
  - exfalso. destruct Hinv as (_ & _ & _ & Hall).
    assert (forall t, t ∈ templates -> words = ∅ /\ Words t = ∅) as Hempty.
    { intros t Ht. specialize (Hall t Ht). unfold scored in Hall.
      split; apply map_size_empty_iff; lia. }
    destruct Hwords as [Hw|(t & Ht & Hw)].
    + destruct templates as [|t ts]; [done|].
      apply Hw, (Hempty t). by left.
    + by apply Hw, (Hempty t).
Qed.

(** C5, as amended.  When the template list is not empty and the candidate
    or at least one template has a word, [matchTemplates] returns, among
    the templates whose score is defined (the candidate and the template
    do not both lack words), one of greatest Dice coefficient
    [2 * common / (|words| + |template words|)], the first one in the order
    of the list among those of equal coefficient, together with that
    coefficient; a template whose score is not defined is not returned. *)
Theorem best_template_first_greatest unicodeLower rangeWords sortWords license
    templates :
  rangesWords rangeWords ->
  templates <> [] ->
  (makeWordSet unicodeLower license <> ∅
   \/ exists t, t ∈ templates /\ Words t <> ∅) ->
  let words := makeWordSet unicodeLower license in
  let r := matchTemplates unicodeLower rangeWords sortWords license templates in
  exists i t,
    templates !! i = Some t
    /\ scored words t
    /\ MatchResult.Template r = Some t
    /\ MatchResult.Score r = FVal (dice words (Words t))
    /\ (forall j t', templates !! j = Some t' -> scored words t' ->
          (dice words (Words t') <= dice words (Words t))%Q)
    /\ (forall j t', j < i -> templates !! j = Some t' -> scored words t' ->
          (dice words (Words t') < dice words (Words t))%Q).
Proof.
  intros Hrange Hne Hwords words r. subst r. rewrite matchTemplates_loop. simpl.
  fold words. pose proof (loop_inv rangeWords Hrange words templates) as Hinv.
  unfold loopInv in Hinv.
  destruct (bestTemplate (loop rangeWords words templates)) as [t|].
  - destruct Hinv as (i & Hi & Hs & Hb & _ & _ & Hmax & Hfirst).
    exists i, t. do 4 (split; [done|]). split.
    + intros j t' Hj Hs'. by eapply Hmax.
    + intros j t' Hlt Hj Hs'. by eapply Hfirst.
  - exfalso. destruct Hinv as (_ & _ & _ & Hall).
    assert (forall t, t ∈ templates -> words = ∅ /\ Words t = ∅) as Hempty.
    { intros t Ht. specialize (Hall t Ht). unfold scored in Hall.
      split; apply map_size_empty_iff; lia. }
    destruct Hwords as [Hw|(t & Ht & Hw)].
    + destruct templates as [|t ts]; [done|].
      apply Hw, (Hempty t). by left.
    + by apply Hw, (Hempty t).
Qed.

(** C7.  When [matchTemplates] returns a best template, no token is both in
    [ExtraWords] and in [MissingWords], every token of the candidate is a
    token of the best template or is in [ExtraWords], and the number of
    common tokens plus the length of [ExtraWords] is the size of the
    candidate's word set. *)
Theorem extra_missing_account unicodeLower rangeWords sortWords license templates t :
  rangesWords rangeWords ->
  sortsWords sortWords ->
  let words := makeWordSet unicodeLower license in
  let r := matchTemplates unicodeLower rangeWords sortWords license templates in
  MatchResult.Template r = Some t ->
  (forall w, w ∈ MatchResult.ExtraWords r -> w ∉ MatchResult.MissingWords r)
  /\ (forall w, w ∈ dom words ->
        w ∈ dom (Words t) \/ w ∈ MatchResult.ExtraWords r)
  /\ common words (Words t) + length (MatchResult.ExtraWords r) = size words.
Proof.
  intros Hrange Hsort words r. subst r. rewrite matchTemplates_loop. simpl.
  fold words. pose proof (loop_inv rangeWords Hrange words templates) as Hinv.
  unfold loopInv in Hinv. intros Ht. rewrite Ht in Hinv.
  destruct Hinv as (i & _ & _ & _ & He & Hm & _). rewrite He, Hm.
  rewrite !sortAndReturnWords_fmap.
  assert (forall l w, w ∈ Text <$> sortWords l <-> w ∈ Text <$> l) as Hperm.
  { intros l w. by rewrite (proj1 (Hsort l)). }
  split; [|split].
  - intros w Hw. rewrite Hperm in *.
    rewrite elem_of_absent_text in * by done. tauto.
  - intros w Hw. destruct (decide (w ∈ dom (Words t))) as [|Hno]; [by left|right].
    rewrite Hperm, elem_of_absent_text by done. done.
  - rewrite length_fmap, (Permutation_length (proj1 (Hsort _))).
    by apply length_absent.
Qed.

(** C2, the behaviour of the code on an empty template list: the result has
    no template and its score is the initial value -1, which is not in the
    interval from 0 to 1. *)
Theorem no_template_exposes_sentinel unicodeLower rangeWords sortWords license :
  let r := matchTemplates unicodeLower rangeWords sortWords license [] in
  MatchResult.Template r = None
  /\ MatchResult.Score r = FVal (-1)
  /\ ~ unit_interval (MatchResult.Score r).
Proof.
  simpl. repeat split; try done. intros [H _]. by apply H.
Qed.

(** ** The order of the reported words does not depend on the runtime *)

#[export] Instance posLe_trans : Transitive posLe.
Proof. unfold posLe. intros a b c. lia. Qed.

#[export] Instance posLe_total : Total posLe.
Proof. unfold posLe. intros a b. lia. Qed.

Lemma mergeSortWords_sorts : sortsWords mergeSortWords.
Proof.
  intros l. unfold mergeSortWords. split.
  - apply merge_sort_Permutation.
  - apply Sorted_merge_sort, _.
Qed.

Lemma rangeInOrder_ranges : rangesWords rangeInOrder.
Proof. intros n m. reflexivity. Qed.

Lemma rangeReversed_ranges : rangesWords rangeReversed.
Proof. intros n m. unfold rangeReversed. apply Permutation_sym, Permutation_rev. Qed.

Lemma fold_addWord_lookup (matches : list string) :
  forall w p,
    fold_left addWord (imap (fun i m => (i, m)) matches) ∅ !! w = Some p ->
    matches !! p = Some w.
Proof.
  induction matches as [|s matches IH] using rev_ind; intros w p.
  - simpl. by rewrite lookup_empty.
  - rewrite imap_app, fold_left_app, imap_cons, imap_nil. cbn [fold_left].
    rewrite Nat.add_0_r. unfold addWord at 1.
    destruct (fold_left addWord _ ∅ !! s) eqn:E.
    + intros H. apply lookup_app_l_Some. by apply IH.
    + rewrite lookup_insert. case_decide as Hs.
      * intros [= <-]. subst w. rewrite lookup_app_r by lia.
        by rewrite Nat.sub_diag.
      * intros H. apply lookup_app_l_Some. by apply IH.
Qed.

Lemma makeWordSet_posInjective unicodeLower data :
  posInjective (makeWordSet unicodeLower data).
Proof.
  intros w1 w2 p H1 H2. unfold makeWordSet in *.
  apply fold_addWord_lookup in H1, H2. congruence.
Qed.

Lemma sorted_words_unique (l1 l2 : list Word) (m : gmap string nat) :
  posInjective m ->
  (forall w, w ∈ l1 -> m !! Text w = Some (Pos w)) ->
  l1 ≡ₚ l2 -> Sorted posLe l1 -> Sorted posLe l2 -> l1 = l2.
Proof.
  intros Hinj Hm Hperm S1 S2.
  apply (Sorted_unique_strong posLe); try done.
  intros x1 x2 Hx1 Hx2 H12 H21. rewrite <- Hperm in Hx2.
  apply Hm in Hx1, Hx2. unfold posLe in *.
  assert (Pos x1 = Pos x2) as Ep by lia. rewrite Ep in Hx1.
  pose proof (Hinj _ _ _ Hx1 Hx2) as Et. destruct x1, x2. simpl in *. congruence.
Qed.

Lemma sortAndReturnWords_absent range1 range2 sort1 sort2 n1 n2 m other :
  rangesWords range1 -> rangesWords range2 ->
  sortsWords sort1 -> sortsWords sort2 ->
  posInjective m ->
  sortAndReturnWords sort1 (absent range1 n1 m other)
  = sortAndReturnWords sort2 (absent range2 n2 m other).
Proof.
  intros Hr1 Hr2 Hs1 Hs2 Hinj. rewrite !sortAndReturnWords_fmap. f_equal.
  destruct (Hs1 (absent range1 n1 m other)) as [P1 S1].
  destruct (Hs2 (absent range2 n2 m other)) as [P2 S2].
  apply (sorted_words_unique _ _ m); try done.
  - intros w Hw. rewrite P1 in Hw. by apply elem_of_absent in Hw as [? _].
  - rewrite P1, P2. unfold absent. by rewrite (Hr1 n1 m), (Hr2 n2 m).
Qed.

Lemma sortAndReturnWords_nil sortWords :
  sortsWords sortWords -> sortAndReturnWords sortWords [] = [].
Proof.
  intros Hs. rewrite sortAndReturnWords_fmap.
  destruct (Hs []) as [P _]. apply Permutation_nil_r in P. by rewrite P.
Qed.

Lemma parseTemplate_posInjective unicodeLower content :
  posInjective (Words (parseTemplate unicodeLower content).1).
Proof.
  unfold parseTemplate. destruct (bufio_Scan content) as [lines err]. simpl.
  apply makeWordSet_posInjective.
Qed.

Lemma loadTemplates_from_posInjective unicodeLower contents acc templates :
  (forall t, t ∈ acc -> posInjective (Words t)) ->
  loadTemplates_from unicodeLower contents acc = Ok templates ->
  forall t, t ∈ templates -> posInjective (Words t).
Proof.
  revert acc. induction contents as [|a contents IH]; intros acc Hacc; simpl.
  - by intros [= <-].
  - pose proof (parseTemplate_posInjective unicodeLower a) as Hp.
    destruct (parseTemplate unicodeLower a) as [templ [err|]]; [done|].
    apply IH. intros t Ht. apply elem_of_app in Ht as [Ht|Ht]; [by apply Hacc|].
    by apply list_elem_of_singleton in Ht as ->.
Qed.

(** The states reached with two iteration orders agree on the score and
    on the template, and hold the same words up to their order. *)
Lemma loop_order_independent range1 range2 words templates :
  rangesWords range1 -> rangesWords range2 ->
  let b1 := loop range1 words templates in
  let b2 := loop range2 words templates in
  bestScore b1 = bestScore b2 /\ bestTemplate b1 = bestTemplate b2.
Proof.
  intros Hr1 Hr2. induction templates as [|t templates IH] using rev_ind.
  - done.
  - cbv zeta in *. rewrite !loop_snoc, !matchTemplate_eq by done. cbv zeta.
    destruct IH as [Es Et]. rewrite <- Es.
    by destruct (fgt _ _).
Qed.

(** C8.  For a corpus loaded by [loadTemplates] and a candidate text,
    [matchTemplates] returns the same template, the same score and the
    same lists of extra and missing words, in the same order, whatever the
    order in which the runtime iterates over the maps and however
    [sort.Sort] arranges its input. *)
Theorem matchTemplates_deterministic unicodeLower range1 range2 sort1 sort2
    assets templates license :
  rangesWords range1 -> rangesWords range2 ->
  sortsWords sort1 -> sortsWords sort2 ->
  loadTemplates unicodeLower assets = Ok templates ->
  matchTemplates unicodeLower range1 sort1 license templates
  = matchTemplates unicodeLower range2 sort2 license templates.
Proof.
  intros Hr1 Hr2 Hs1 Hs2 Hload. rewrite !matchTemplates_loop. cbv zeta.
  set (words := makeWordSet unicodeLower license).
  assert (forall t, t ∈ templates -> posInjective (Words t)) as Hinj.
  { eapply loadTemplates_from_posInjective; [|exact Hload].
    intros t Ht. by apply elem_of_nil in Ht. }
  assert (posInjective words) as Hw by apply makeWordSet_posInjective.
  destruct (loop_order_independent range1 range2 words templates Hr1 Hr2) as [Es Et].
  pose proof (loop_inv range1 Hr1 words templates) as I1.
  pose proof (loop_inv range2 Hr2 words templates) as I2.
  unfold loopInv in I1, I2. rewrite <- Et in I2. rewrite <- Es, <- Et.
  destruct (bestTemplate (loop range1 words templates)) as [t|].
  - destruct I1 as (i1 & Hi1 & _ & _ & He1 & Hm1 & _).
    destruct I2 as (i2 & _ & _ & _ & He2 & Hm2 & _).
    rewrite He1, He2, Hm1, Hm2. f_equal.
    + by apply sortAndReturnWords_absent.
    + apply sortAndReturnWords_absent; try done.
      apply Hinj. by eapply list_elem_of_lookup_2.
  - destruct I1 as (_ & He1 & Hm1 & _). destruct I2 as (_ & He2 & Hm2 & _).
    rewrite He1, He2, Hm1, Hm2. by rewrite !sortAndReturnWords_nil.
Qed.

(** ** The scorer on the sample templates *)

(** The test [TestCleanLicenseData] of the repository. *)
Example TestCleanLicenseData :
  cleanLicenseData noUnicode
    (String.concat (String newline "")
       ["The MIT License (MIT)"; "";
        String (byte 9) "Copyright (c) 2013 Ben Johnson";
        String (byte 9) "";
        String (byte 9) "Some other lines.";
        String (byte 9) "And more.";
        String (byte 9) ""])
  = String.concat (String newline "")
      ["the mit license (mit)";
       String (byte 9) "";
       String (byte 9) "some other lines.";
       String (byte 9) "and more.";
       String (byte 9) ""].
Proof. vm_compute. reflexivity. Qed.

Example permissionTemplate_parsed :
  Title permissionTemplate = "Permission License"
  /\ Nickname permissionTemplate = "perm"
  /\ map_to_list (Words permissionTemplate)
     ≡ₚ [("permission", 0); ("is", 1); ("hereby", 2); ("granted", 3);
         ("free", 4); ("of", 5); ("charge", 6)].
Proof.
  repeat split; try (vm_compute; reflexivity).
  vm_compute map_to_list. 
  apply NoDup_Permutation; [by apply NoDup_ListNoDup; repeat constructor; simpl; intuition discriminate
                           |by apply NoDup_ListNoDup; repeat constructor; simpl; intuition discriminate|].
  intros x. rewrite !list_elem_of_In. simpl. tauto.
Qed.

(** C1 as stated fails where the candidate and the only template have no
    word: the sets of tokens are equal, yet the score is neither 1 nor in
    the interval from 0 to 1. *)
Lemma score_bounds_fail_on_empty_sets :
  let r := runMatch "" [emptyTemplate] in
  dom (makeWordSet noUnicode "") = dom (Words emptyTemplate)
  /\ ~ unit_interval (MatchResult.Score r)
  /\ ~ is_one (MatchResult.Score r).
Proof.
  assert (MatchResult.Score (runMatch "" [emptyTemplate]) = FVal (-1)) as E
    by (vm_compute; reflexivity).
  cbv zeta. rewrite E. split; [vm_compute; reflexivity|].
  split; [intros [H _]; by apply H | intros H; by vm_compute in H].
Qed.

Lemma score_bounds_and_unit_witness :
  rangesWords rangeInOrder
  /\ [warrantyTemplate; permissionTemplate] <> []
  /\ (makeWordSet noUnicode "Permission is hereby granted, free of charge." <> ∅
      \/ exists t, t ∈ [warrantyTemplate; permissionTemplate] /\ Words t <> ∅)
  /\ exists t,
       MatchResult.Template
         (runMatch "Permission is hereby granted, free of charge."
                   [warrantyTemplate; permissionTemplate]) = Some t
       /\ t ∈ [warrantyTemplate; permissionTemplate]
       /\ unit_interval
            (MatchResult.Score
               (runMatch "Permission is hereby granted, free of charge."
                         [warrantyTemplate; permissionTemplate]))
       /\ (is_one
             (MatchResult.Score
                (runMatch "Permission is hereby granted, free of charge."
                          [warrantyTemplate; permissionTemplate]))
           <-> dom (makeWordSet noUnicode
                      "Permission is hereby granted, free of charge.")
               = dom (Words t)).
Proof.
  assert (makeWordSet noUnicode "Permission is hereby granted, free of charge." <> ∅)
    as Hne.
  { intros H. apply (f_equal size) in H. vm_compute in H. discriminate. }
  split; [exact rangeInOrder_ranges|].
  split; [discriminate|].
  split; [by left|].
  apply (score_bounds_and_unit noUnicode rangeInOrder mergeSortWords
           "Permission is hereby granted, free of charge."
           [warrantyTemplate; permissionTemplate]).
  - exact rangeInOrder_ranges.
  - discriminate.
  - by left.
Defined.

(** C5 as stated fails where the candidate and the only template have no
    word: no template of the list is returned, and the score is -1. *)
Lemma best_template_missing_on_empty_sets :
  ~ (exists i t,
       [emptyTemplate] !! i = Some t
       /\ MatchResult.Template (runMatch "" [emptyTemplate]) = Some t)
  /\ MatchResult.Score (runMatch "" [emptyTemplate]) = FVal (-1).
Proof.
  split; [|vm_compute; reflexivity].
  intros (i & t & _ & H). vm_compute in H. discriminate.
Qed.

Lemma best_template_first_greatest_witness :
  rangesWords rangeInOrder
  /\ [emptyTemplate; warrantyTemplate; permissionTemplate] <> []
  /\ (makeWordSet noUnicode "" <> ∅
      \/ exists t, t ∈ [emptyTemplate; warrantyTemplate; permissionTemplate]
                   /\ Words t <> ∅)
  /\ exists i t,
       [emptyTemplate; warrantyTemplate; permissionTemplate] !! i = Some t
       /\ scored (makeWordSet noUnicode "") t
       /\ MatchResult.Template
            (runMatch "" [emptyTemplate; warrantyTemplate; permissionTemplate])
          = Some t
       /\ MatchResult.Score
            (runMatch "" [emptyTemplate; warrantyTemplate; permissionTemplate])
          = FVal (dice (makeWordSet noUnicode "") (Words t))
       /\ (forall j t',
             [emptyTemplate; warrantyTemplate; permissionTemplate] !! j = Some t' ->
             scored (makeWordSet noUnicode "") t' ->
             (dice (makeWordSet noUnicode "") (Words t')
              <= dice (makeWordSet noUnicode "") (Words t))%Q)
       /\ (forall j t', j < i ->
             [emptyTemplate; warrantyTemplate; permissionTemplate] !! j = Some t' ->
             scored (makeWordSet noUnicode "") t' ->
             (dice (makeWordSet noUnicode "") (Words t')
              < dice (makeWordSet noUnicode "") (Words t))%Q).
Proof.
  assert (exists t, t ∈ [emptyTemplate; warrantyTemplate; permissionTemplate]
                    /\ Words t <> ∅) as Hsome.
  { exists warrantyTemplate. split; [apply elem_of_cons; right; by left|].
    intros H. apply (f_equal size) in H. vm_compute in H. discriminate. }
  split; [exact rangeInOrder_ranges|].
  split; [discriminate|].
  split; [by right|].
  apply (best_template_first_greatest noUnicode rangeInOrder mergeSortWords
           "" [emptyTemplate; warrantyTemplate; permissionTemplate]).
  - exact rangeInOrder_ranges.
  - discriminate.
  - by right.
Defined.

(** A candidate without word and a list that starts with a template without
    word: the score of that template is not defined, and the first template
    that has a word is returned, with score 0. *)
Example first_scored_template :
  let r := runMatch "" [emptyTemplate; warrantyTemplate; permissionTemplate] in
  MatchResult.Template r = Some warrantyTemplate
  /\ MatchResult.Score r = FVal (0 # 6).
Proof. vm_compute. split; reflexivity. Qed.

Example first_of_equal_scores :
  let r := runMatch "Permission is granted, free of warranty."
             [warrantyTemplate; permissionTemplate; permissionTemplate] in
  MatchResult.Template r = Some permissionTemplate
  /\ MatchResult.Score r = FVal (10 # 13)
  /\ MatchResult.ExtraWords r = ["warranty"]
  /\ MatchResult.MissingWords r = ["hereby"; "charge"].
Proof. vm_compute. repeat split; reflexivity. Qed.

Lemma extra_missing_account_witness :
  rangesWords rangeInOrder
  /\ sortsWords mergeSortWords
  /\ MatchResult.Template
       (runMatch "Permission is granted, free of warranty."
          [warrantyTemplate; permissionTemplate]) = Some permissionTemplate
  /\ (forall w,
        w ∈ MatchResult.ExtraWords
              (runMatch "Permission is granted, free of warranty."
                 [warrantyTemplate; permissionTemplate]) ->
        w ∉ MatchResult.MissingWords
              (runMatch "Permission is granted, free of warranty."
                 [warrantyTemplate; permissionTemplate]))
  /\ (forall w,
        w ∈ dom (makeWordSet noUnicode "Permission is granted, free of warranty.") ->
        w ∈ dom (Words permissionTemplate)
        \/ w ∈ MatchResult.ExtraWords
                 (runMatch "Permission is granted, free of warranty."
                    [warrantyTemplate; permissionTemplate]))
  /\ common (makeWordSet noUnicode "Permission is granted, free of warranty.")
            (Words permissionTemplate)
     + length (MatchResult.ExtraWords
                 (runMatch "Permission is granted, free of warranty."
                    [warrantyTemplate; permissionTemplate]))
     = size (makeWordSet noUnicode "Permission is granted, free of warranty.").
Proof.
  assert (MatchResult.Template
            (runMatch "Permission is granted, free of warranty."
               [warrantyTemplate; permissionTemplate]) = Some permissionTemplate) as Ht
    by (vm_compute; reflexivity).
  split; [exact rangeInOrder_ranges|].
  split; [exact mergeSortWords_sorts|].
  split; [exact Ht|].
  apply (extra_missing_account noUnicode rangeInOrder mergeSortWords
           "Permission is granted, free of warranty."
           [warrantyTemplate; permissionTemplate] permissionTemplate).
  - exact rangeInOrder_ranges.
  - exact mergeSortWords_sorts.
  - exact Ht.
Defined.

Lemma matchTemplates_deterministic_witness :
  rangesWords rangeInOrder /\ rangesWords rangeReversed
  /\ sortsWords mergeSortWords
  /\ loadTemplates noUnicode [warrantyAsset; permissionAsset]
     = Ok [warrantyTemplate; permissionTemplate]
  /\ matchTemplates noUnicode rangeInOrder mergeSortWords
       "Permission is granted, free of warranty."
       [warrantyTemplate; permissionTemplate]
     = matchTemplates noUnicode rangeReversed mergeSortWords
         "Permission is granted, free of warranty."
         [warrantyTemplate; permissionTemplate].
Proof.
  assert (loadTemplates noUnicode [warrantyAsset; permissionAsset]
          = Ok [warrantyTemplate; permissionTemplate]) as Hload
    by (vm_compute; reflexivity).
  split; [exact rangeInOrder_ranges|].
  split; [exact rangeReversed_ranges|].
  split; [exact mergeSortWords_sorts|].
  split; [exact Hload|].
  apply (matchTemplates_deterministic noUnicode rangeInOrder rangeReversed
           mergeSortWords mergeSortWords [warrantyAsset; permissionAsset]
           [warrantyTemplate; permissionTemplate]
           "Permission is granted, free of warranty.").
  - exact rangeInOrder_ranges.
  - exact rangeReversed_ranges.
  - exact mergeSortWords_sorts.
  - exact mergeSortWords_sorts.
  - exact Hload.
Defined.

(** ** Facts about the copyright stripping *)

Lemma suffixOf_trans a b c : suffixOf a b -> suffixOf b c -> suffixOf a c.
Proof. intros Hab Hbc. induction Hbc; [done|]. by constructor. Qed.

Lemma suffixOf_length t s : suffixOf t s -> String.length t <= String.length s.
Proof. induction 1; simpl; lia. Qed.

Lemma everySuffix_suffix p s t :
  suffixOf t s -> everySuffix p s = true -> everySuffix p t = true.
Proof.
  induction 1 as [|c s Hs IH]; [done|]. simpl.
  intros H. apply andb_true_iff in H as [_ H]. by apply IH.
Qed.

Lemma everySuffix_head p s : everySuffix p s = true -> p s = true.
Proof. destruct s; simpl; intros H; by apply andb_true_iff in H as [? _]. Qed.

Lemma skipSpaces_suffix s : suffixOf (skipSpaces s) s.
Proof.
  induction s as [|c r IH]; simpl; [constructor|].
  destruct (isSpace c); [by constructor | constructor].
Qed.

Lemma restOfLine_suffix s : suffixOf (restOfLine s) s.
Proof.
  induction s as [|c r IH]; simpl; [constructor|].
  destruct (Ascii.eqb c newline); [constructor | by constructor].
Qed.

Lemma litFold_suffix lit s r :
  litFold lit s = Some r ->
  suffixOf r s /\ String.length r + String.length lit = String.length s.
Proof.
  revert s. induction lit as [|p lit IH]; intros s; simpl.
  - intros [= <-]. split; [constructor | lia].
  - destruct s as [|c s]; [done|]. destruct (Ascii.eqb (lowerASCII c) p); [|done].
    intros H. apply IH in H as [H1 H2]. split; [by constructor | simpl; lia].
Qed.

Lemma matchYear_suffix s r : matchYear s = Some r -> suffixOf r s.
Proof.
  unfold matchYear.
  destruct s as [|a [|b [|c [|d s]]]]; try (intros H; by apply litFold_suffix in H as [? _]).
  destruct (isDigit a && isDigit b && isDigit c && isDigit d).
  - intros [= <-]. by repeat constructor.
  - intros H; by apply litFold_suffix in H as [? _].
Qed.

Lemma matchSign_suffix s r : matchSign s = Some r -> suffixOf r s.
Proof.
  unfold matchSign. destruct s as [|a [|b s]]; try done.
  destruct ((code a =? 194)%N && (code b =? 169)%N).
  { intros [= <-]. by repeat constructor. }
  destruct (litFold "(c)" (String a (String b s))) eqn:E.
  { intros [= <-]. by apply litFold_suffix in E as [? _]. }
  destruct s as [|c [|d s]]; try done.
  destruct (_ && _)%bool; [|done]. intros [= <-]. by repeat constructor.
Qed.

Lemma matchDate_suffix s r : matchDate s = Some r -> suffixOf r s.
Proof.
  unfold matchDate. destruct (matchYear (skipSpaces s)) as [y|] eqn:E; [|done].
  intros [= <-]. apply matchYear_suffix in E.
  eapply suffixOf_trans; [apply restOfLine_suffix|].
  eapply suffixOf_trans; [exact E | apply skipSpaces_suffix].
Qed.

(** A match is a suffix of the text and is shorter than it. *)
Lemma reCopyright_match_suffix s rest :
  reCopyright_match s = Some rest ->
  suffixOf rest s /\ String.length rest < String.length s.
Proof.
  unfold reCopyright_match.
  destruct (litFold "copyright " (skipSpaces s)) as [s1|] eqn:E1; [|done].
  apply litFold_suffix in E1 as [S1 L1].
  pose proof (skipSpaces_suffix s) as S0.
  pose proof (suffixOf_length _ _ S0) as L0.
  assert (forall x, suffixOf x s1 ->
            suffixOf x s /\ String.length x < String.length s) as Hs1.
  { intros x Hx. split.
    - eapply suffixOf_trans; [exact Hx|]. eapply suffixOf_trans; [exact S1 | exact S0].
    - apply suffixOf_length in Hx. simpl in L1. lia. }
  destruct (matchSign s1) as [s2|] eqn:E2.
  - destruct (matchDate s2) as [r|] eqn:E3.
    + intros [= <-]. apply Hs1. apply matchDate_suffix in E3. apply matchSign_suffix in E2.
      by eapply suffixOf_trans.
    + intros H. apply Hs1. by apply matchDate_suffix.
  - intros H. apply Hs1. by apply matchDate_suffix.
Qed.

Lemma replaceAll_fuel f1 f2 s :
  String.length s < f1 -> String.length s < f2 -> replaceAll f1 s = replaceAll f2 s.
Proof.
  revert f2 s. induction f1 as [|f1 IH]; intros f2 s H1 H2; [lia|].
  destruct f2 as [|f2]; [lia|]. simpl.
  destruct (reCopyright_match s) as [rest|] eqn:E.
  - apply reCopyright_match_suffix in E as [_ L]. apply IH; lia.
  - destruct s as [|c r]; [done|]. simpl in *. f_equal. apply IH; lia.
Qed.

(** The equation of the stripping: a notice at the start of the text is
    deleted, otherwise the first byte is kept. *)
Lemma ReplaceAll_unfold s :
  reCopyright_ReplaceAll s
  = match reCopyright_match s with
    | Some rest => reCopyright_ReplaceAll rest
    | None =>
        match s with
        | EmptyString => EmptyString
        | String c r => String c (reCopyright_ReplaceAll r)
        end
    end.
Proof.
  unfold reCopyright_ReplaceAll at 1. cbn [replaceAll].
  destruct (reCopyright_match s) as [rest|] eqn:E.
  - apply reCopyright_match_suffix in E as [_ L].
    apply replaceAll_fuel; lia.
  - destruct s as [|c r]; [done|]. f_equal.
Qed.

Lemma restOfLine_atLineEnd s : atLineEnd (restOfLine s).
Proof.
  induction s as [|c r IH]; simpl; [by left|].
  destruct (Ascii.eqb_spec c newline) as [->|]; [right; by eexists | done].
Qed.

Lemma reCopyright_match_atLineEnd s rest :
  reCopyright_match s = Some rest -> atLineEnd rest.
Proof.
  unfold reCopyright_match, matchDate.
  destruct (litFold "copyright " (skipSpaces s)) as [s1|]; [|done].
  destruct (matchSign s1) as [s2|].
  - destruct (matchYear (skipSpaces s2)) as [y|].
    + intros [= <-]. apply restOfLine_atLineEnd.
    + destruct (matchYear (skipSpaces s1)); [|done].
      intros [= <-]. apply restOfLine_atLineEnd.
  - destruct (matchYear (skipSpaces s1)); [|done].
    intros [= <-]. apply restOfLine_atLineEnd.
Qed.

(** Where a notice was deleted the result goes on with a line feed, or
    ends. *)
Lemma strip_after_notice s rest :
  reCopyright_match s = Some rest -> atLineEnd (reCopyright_ReplaceAll s).
Proof.
  remember (String.length s) as n eqn:En. revert s rest En.
  induction n as [n IH] using lt_wf_ind. intros s rest -> E.
  rewrite ReplaceAll_unfold, E.
  pose proof (reCopyright_match_suffix _ _ E) as [_ L].
  destruct (reCopyright_match_atLineEnd _ _ E) as [->|[r ->]].
  - by left.
  - destruct (reCopyright_match (String newline r)) as [rest'|] eqn:E'.
    + eapply (IH _ L); [reflexivity | exact E'].
    + rewrite ReplaceAll_unfold, E'. right. by eexists.
Qed.

(** A byte of the result that is not a line feed was kept from the text,
    where no notice starts. *)
Lemma strip_kept s x out :
  reCopyright_ReplaceAll s = String x out -> x <> newline ->
  exists r, s = String x r /\ reCopyright_match s = None /\ out = reCopyright_ReplaceAll r.
Proof.
  intros E Hx. destruct (reCopyright_match s) as [rest|] eqn:Em.
  - destruct (strip_after_notice _ _ Em) as [H|[r H]]; rewrite H in E; congruence.
  - rewrite ReplaceAll_unfold, Em in E. destruct s as [|c r]; [done|].
    injection E as -> <-. by exists r.
Qed.

Lemma reCopyright_match_space c r :
  isSpace c = true -> reCopyright_match (String c r) = reCopyright_match r.
Proof. intros H. unfold reCopyright_match. simpl. by rewrite H. Qed.

(** White space that was kept: skipping it in the result leads to the
    result of the text after the white space, which starts no notice. *)
Lemma skipSpaces_strip u :
  reCopyright_match u = None ->
  skipSpaces (reCopyright_ReplaceAll u) = reCopyright_ReplaceAll (skipSpaces u)
  /\ reCopyright_match (skipSpaces u) = None.
Proof.
  induction u as [|c r IH]; intros E.
  - done.
  - rewrite ReplaceAll_unfold, E. simpl. destruct (isSpace c) eqn:Ec.
    + rewrite reCopyright_match_space in E by done. by apply IH.
    + by rewrite (ReplaceAll_unfold (String c r)), E.
Qed.

Lemma lowerASCII_newline c : lowerASCII c = newline -> c = newline.
Proof.
  unfold lowerASCII. destruct (isUpper c) eqn:E; [|done].
  intros H. exfalso. revert E H.
  destruct c as [[] [] [] [] [] [] [] []]; vm_compute; congruence.
Qed.

(** A literal without line feed found in the result is in the text. *)
Lemma litFold_strip lit u out :
  forallb_string (fun p => negb (Ascii.eqb p newline)) lit = true ->
  litFold lit (reCopyright_ReplaceAll u) = Some out ->
  exists u', litFold lit u = Some u' /\ out = reCopyright_ReplaceAll u'.
Proof.
  revert u. induction lit as [|p lit IH]; intros u Hlit; simpl.
  - intros [= <-]. by exists u.
  - simpl in Hlit. apply andb_true_iff in Hlit as [Hp Hlit].
    destruct (reCopyright_ReplaceAll u) as [|x o] eqn:Es; [done|].
    destruct (Ascii.eqb_spec (lowerASCII x) p) as [Ex|]; [|done].
    intros H. assert (x <> newline) as Hx.
    { intros ->. subst p. by vm_compute in Hp. }
    apply strip_kept in Es as (r & -> & _ & ->); [|done].
    apply IH in H as (u' & H & ->); [|done].
    exists u'. split; [|done]. by rewrite Ex, Ascii.eqb_refl.
Qed.


(** Bytes other than the line feed at the start of the result: they are at
    the start of the text. *)
Lemma strip_kept_prefix w u out :
  forallb_string (fun p => negb (Ascii.eqb p newline)) w = true ->
  reCopyright_ReplaceAll u = (w +:+ out)%string ->
  exists u', u = (w +:+ u')%string /\ out = reCopyright_ReplaceAll u'.
Proof.
  revert u. induction w as [|x w IH]; intros u Hw.
  - change (reCopyright_ReplaceAll u = out -> exists u', u = u' /\ out = reCopyright_ReplaceAll u').
    intros <-. by exists u.
  - simpl in Hw. apply andb_true_iff in Hw as [Hx Hw].
    change (reCopyright_ReplaceAll u = String x (w +:+ out) ->
            exists u', u = String x (w +:+ u') /\ out = reCopyright_ReplaceAll u').
    intros E. apply strip_kept in E as (r & -> & _ & E).
    + symmetry in E. apply IH in E as (u' & -> & ->); [|done]. by exists u'.
    + intros ->. by vm_compute in Hx.
Qed.

Lemma code_byte c n : (code c =? n)%N = true -> c = byte n.
Proof.
  intros H. apply N.eqb_eq in H. unfold code, byte in *.
  rewrite <- H. symmetry. apply ascii_N_embedding.
Qed.

Lemma isDigit_not_newline c : isDigit c = true -> negb (Ascii.eqb c newline) = true.
Proof.
  destruct (Ascii.eqb_spec c newline) as [->|]; [|done]. by vm_compute.
Qed.

Lemma matchYear_spec s r :
  matchYear s = Some r
  <-> (exists a b c d,
         s = String a (String b (String c (String d r)))
         /\ isDigit a && isDigit b && isDigit c && isDigit d = true)
      \/ litFold "[year]" s = Some r.
Proof.
  unfold matchYear. split.
  - destruct s as [|a [|b [|c [|d s]]]]; try (by right).
    destruct (isDigit a && isDigit b && isDigit c && isDigit d) eqn:E; [|by right].
    intros [= <-]. left. by exists a, b, c, d.
  - intros [(a & b & c & d & -> & E)|H].
    + by rewrite E.
    + destruct s as [|a [|b [|c [|d s]]]]; try done.
      destruct (isDigit a) eqn:Ea; [|done]. exfalso. revert Ea H. simpl.
      destruct (Ascii.eqb_spec (lowerASCII a) "[") as [E|]; [|done].
      intros Ea _. revert Ea E. unfold lowerASCII.
      destruct a as [[] [] [] [] [] [] [] []]; vm_compute; congruence.
Qed.

Lemma matchYear_strip u out :
  matchYear (reCopyright_ReplaceAll u) = Some out ->
  exists u', matchYear u = Some u' /\ out = reCopyright_ReplaceAll u'.
Proof.
  intros H. apply matchYear_spec in H as [(a & b & c & d & E & Hd)|H].
  - apply andb_true_iff in Hd as [Hd Dd]. apply andb_true_iff in Hd as [Hd Dc].
    apply andb_true_iff in Hd as [Da Db].
    apply (strip_kept_prefix (String a (String b (String c (String d ""))))) in E
      as (u' & -> & ->).
    + exists u'. split; [|done]. apply matchYear_spec. left. exists a, b, c, d.
      split; [done|]. by rewrite Da, Db, Dc, Dd.
    + simpl. by rewrite !isDigit_not_newline.
  - apply litFold_strip in H as (u' & H & ->); [|done].
    exists u'. split; [|done]. apply matchYear_spec. by right.
Qed.

Lemma matchSign_spec s r :
  matchSign s = Some r
  <-> s = String (byte 194) (String (byte 169) r)
      \/ litFold "(c)" s = Some r
      \/ (exists b, s = String (byte 195) (String b (String (byte 194) (String (byte 169) r)))
                    /\ (b = byte 130 \/ b = byte 162)).
Proof.
  unfold matchSign. split.
  - destruct s as [|a [|b s]]; try done.
    destruct ((code a =? 194)%N && (code b =? 169)%N) eqn:E1.
    { apply andb_true_iff in E1 as [Ea Eb]. apply code_byte in Ea, Eb.
      intros [= <-]. left. by subst. }
    destruct (litFold "(c)" (String a (String b s))) eqn:E2.
    { intros [= <-]. by right; left. }
    destruct s as [|c [|d s]]; try done.
    destruct ((code a =? 195)%N && ((code b =? 130)%N || (code b =? 162)%N)
              && (code c =? 194)%N && (code d =? 169)%N) eqn:E3; [|done].
    intros [= <-]. right; right.
    apply andb_true_iff in E3 as [E3 Ed]. apply andb_true_iff in E3 as [E3 Ec].
    apply andb_true_iff in E3 as [Ea Eb]. apply code_byte in Ea, Ec, Ed.
    exists b. subst. split; [done|].
    apply orb_true_iff in Eb as [Eb|Eb]; apply code_byte in Eb; auto.
  - intros [->|[H|(b & -> & Hb)]].
    + done.
    + destruct s as [|a [|b s]];
        [done | simpl in H; by destruct (Ascii.eqb (lowerASCII a) "(") |].
      destruct ((code a =? 194)%N && (code b =? 169)%N) eqn:E1; [|by rewrite H].
      exfalso. apply andb_true_iff in E1 as [Ea _]. apply code_byte in Ea. by subst a.
    + destruct Hb as [-> | ->]; reflexivity.
Qed.

Lemma matchSign_strip u out :
  matchSign (reCopyright_ReplaceAll u) = Some out ->
  exists u', matchSign u = Some u' /\ out = reCopyright_ReplaceAll u'.
Proof.
  intros H. apply matchSign_spec in H as [E|[H|(b & E & Hb)]].
  - apply (strip_kept_prefix (String (byte 194) (String (byte 169) ""))) in E
      as (u' & -> & ->); [|by vm_compute].
    exists u'. split; [|done]. apply matchSign_spec. by left.
  - apply litFold_strip in H as (u' & H & ->); [|done].
    exists u'. split; [|done]. apply matchSign_spec. by right; left.
  - apply (strip_kept_prefix
             (String (byte 195) (String b (String (byte 194) (String (byte 169) "")))))
      in E as (u' & -> & ->).
    + exists u'. split; [|done]. apply matchSign_spec. right; right. by exists b.
    + by destruct Hb as [-> | ->]; vm_compute.
Qed.

Lemma lowerASCII_space x : lowerASCII x = " "%char -> isSpace x = true /\ x <> newline.
Proof.
  unfold lowerASCII. destruct (isUpper x) eqn:E.
  - intros H. exfalso. revert E H.
    destruct x as [[] [] [] [] [] [] [] []]; vm_compute; congruence.
  - intros ->. split; [by vm_compute | by vm_compute].
Qed.

Lemma litFold_app l1 l2 s :
  litFold (l1 +:+ l2) s = andThen (litFold l1 s) (litFold l2).
Proof.
  revert s. induction l1 as [|p l1 IH]; intros s; [done|].
  change (String p l1 +:+ l2)%string with (String p (l1 +:+ l2)). simpl.
  destruct s as [|c s]; [done|]. destruct (Ascii.eqb (lowerASCII c) p); [apply IH | done].
Qed.

(** The literal of [reCopyright] found in the result: it is in the text,
    and no notice starts after its final space. *)
Lemma copyright_strip v o1 :
  litFold "copyright " (reCopyright_ReplaceAll v) = Some o1 ->
  exists v1,
    litFold "copyright " v = Some v1 /\ o1 = reCopyright_ReplaceAll v1
    /\ reCopyright_match v1 = None.
Proof.
  change "copyright " with ("copyright" +:+ " ")%string.
  rewrite !litFold_app. intros H.
  destruct (litFold "copyright" (reCopyright_ReplaceAll v)) as [o|] eqn:Ho; [|done].
  apply litFold_strip in Ho as (w & Hw & ->); [|done]. rewrite Hw.
  simpl in H |- *. destruct (reCopyright_ReplaceAll w) as [|x o'] eqn:Es; [done|].
  destruct (Ascii.eqb_spec (lowerASCII x) " ") as [Ex|]; [|done].
  injection H as ->. pose proof (lowerASCII_space _ Ex) as [Hx Hn].
  apply strip_kept in Es as (v1 & -> & Em & ->); [|done].
  exists v1. rewrite reCopyright_match_space in Em by done.
  split; [|done]. by rewrite Ex.
Qed.

(** A date found after white space in the result, at a place where the
    text starts no notice: the date is in the text. *)
Lemma matchDate_strip w x :
  reCopyright_match w = None ->
  matchDate (reCopyright_ReplaceAll w) = Some x ->
  exists y, matchDate w = Some y.
Proof.
  intros Ew. unfold matchDate. destruct (skipSpaces_strip w Ew) as [-> _].
  destruct (matchYear (reCopyright_ReplaceAll (skipSpaces w))) as [y|] eqn:Ey;
    [|done].
  apply matchYear_strip in Ey as (y' & -> & _). by eexists.
Qed.

(** Stripping leaves no notice at a place where the text had none,
    provided no sign without date in the text is followed by a notice. *)
Lemma strip_no_new_notice u :
  reCopyright_match u = None ->
  everySuffix noNoticeAfterSign u = true ->
  reCopyright_match (reCopyright_ReplaceAll u) = None.
Proof.
  intros Eu Hu.
  destruct (reCopyright_match (reCopyright_ReplaceAll u)) as [x|] eqn:Ex; [|done].
  exfalso. destruct (skipSpaces_strip u Eu) as [Es Ev].
  pose proof (everySuffix_head _ _
                (everySuffix_suffix _ _ _ (skipSpaces_suffix u) Hu)) as Hv.
  revert Eu Ex. unfold reCopyright_match at 1 2. rewrite Es.
  set (v := skipSpaces u) in *.
  destruct (litFold "copyright " (reCopyright_ReplaceAll v)) as [o1|] eqn:E1; [|done].
  apply copyright_strip in E1 as (v1 & E1 & -> & Ev1).
  unfold noNoticeAfterSign in Hv. rewrite E1 in *.
  destruct (matchSign (reCopyright_ReplaceAll v1)) as [o2|] eqn:E2.
  - apply matchSign_strip in E2 as (v2 & E2 & ->). rewrite E2 in *.
    destruct (matchDate v2) as [y|] eqn:Ey; [done|]. cbn [isSome orb] in Hv.
    destruct (matchDate v1) as [y1|] eqn:Ey1; [done|]. intros _.
    destruct (matchDate (reCopyright_ReplaceAll v2)) as [x2|] eqn:Ex2.
    + destruct (reCopyright_match v2) eqn:Ev2; [done|].
      destruct (matchDate_strip v2 x2 Ev2 Ex2) as [y' Ey']. congruence.
    + intros Ex1. destruct (matchDate_strip v1 x Ev1 Ex1) as [y' Ey']. congruence.
  - intros Eu Ex. destruct (matchDate_strip v1 x Ev1 Ex) as [y Ey].
    rewrite Ey in Eu. destruct (matchSign v1) as [v2|]; [|done].
    by destruct (matchDate v2).
Qed.

(** Stripping a text in which no sign without date is followed by a notice
    leaves no notice anywhere. *)
Lemma strip_noNotice s :
  everySuffix noNoticeAfterSign s = true ->
  noNotice (reCopyright_ReplaceAll s) = true.
Proof.
  remember (String.length s) as n eqn:En. revert s En.
  induction n as [n IH] using lt_wf_ind. intros s -> Hs.
  destruct (reCopyright_match s) as [rest|] eqn:E.
  - rewrite ReplaceAll_unfold, E.
    apply reCopyright_match_suffix in E as [Hsuf L].
    eapply (IH _ L); [reflexivity|]. by eapply everySuffix_suffix.
  - pose proof (strip_no_new_notice s E Hs) as Hnew.
    rewrite ReplaceAll_unfold, E in Hnew |- *.
    destruct s as [|c r]; [done|].
    unfold noNotice. cbn [everySuffix]. rewrite Hnew. simpl.
    apply (IH (String.length r)); [simpl; lia | done |].
    simpl in Hs. by apply andb_true_iff in Hs as [_ ?].
Qed.

(** A text without notice is left as it is. *)
Lemma strip_id t : noNotice t = true -> reCopyright_ReplaceAll t = t.
Proof.
  induction t as [|c r IH]; intros H.
  - done.
  - unfold noNotice in H. cbn [everySuffix] in H.
    apply andb_true_iff in H as [Hm Hr].
    destruct (reCopyright_match (String c r)) eqn:E; [done|].
    rewrite ReplaceAll_unfold, E. f_equal. by apply IH.
Qed.

(** C6, as amended.  On every text in which no occurrence of the word
    copyright, a space and one of the spellings of the sign that lacks its
    year (a year or [[year]], after optional white space) is followed right
    away, after optional white space, by a copyright notice, deleting the
    copyright notices twice gives the same text as deleting them once. *)
Theorem strip_idempotent_without_notice_after_sign data :
  everySuffix noNoticeAfterSign data = true ->
  reCopyright_ReplaceAll (reCopyright_ReplaceAll data) = reCopyright_ReplaceAll data.
Proof. intros H. by apply strip_id, strip_noNotice. Qed.

(** C6 as stated fails on a text in which a sign without year is followed
    by a notice: the first pass deletes the notice and leaves the sign in
    front of the year of the next line, which the second pass deletes. *)
Lemma strip_not_idempotent :
  reCopyright_ReplaceAll danglingSign = "copyright (c)
1999"
  /\ reCopyright_ReplaceAll (reCopyright_ReplaceAll danglingSign) = ""
  /\ reCopyright_ReplaceAll (reCopyright_ReplaceAll danglingSign)
     <> reCopyright_ReplaceAll danglingSign
  /\ cleanLicenseData noUnicode (cleanLicenseData noUnicode danglingSign)
     <> cleanLicenseData noUnicode danglingSign.
Proof. vm_compute. repeat split; discriminate. Qed.

Lemma strip_idempotent_without_notice_after_sign_witness :
  everySuffix noNoticeAfterSign noticeToFillIn = true
  /\ reCopyright_ReplaceAll (reCopyright_ReplaceAll noticeToFillIn)
     = reCopyright_ReplaceAll noticeToFillIn.
Proof.
  split; [vm_compute; reflexivity|].
  apply (strip_idempotent_without_notice_after_sign noticeToFillIn).
  vm_compute; reflexivity.
Defined.

(** The sign of the first line has no year and stays; the notice of the
    second line is deleted. *)
Example strip_noticeToFillIn :
  reCopyright_ReplaceAll noticeToFillIn = "copyright (c) <year>  <name of author>
this program is free software".
Proof. vm_compute. reflexivity. Qed.

(** Texts in which every sign has its year are a particular case. *)
Example mitHeader_signs :
  everySuffix noNoticeAfterSign mitHeader = true
  /\ everySuffix noNoticeAfterSign danglingSign = false.
Proof. vm_compute. split; reflexivity. Qed.

Example strip_mitHeader :
  reCopyright_ReplaceAll mitHeader = "the mit license (mit)
 the above copyright notice and this permission notice".
Proof. vm_compute. reflexivity. Qed.

(** ** Facts about the template parser *)

Lemma parseLine_preamble st token :
  ps_state st = 0 -> strings_TrimSpace token <> "---" -> parseLine st token = st.
Proof.
  intros Hs Hl. unfold parseLine. rewrite Hs.
  destruct (String.eqb_spec (strings_TrimSpace token) "---"); done.
Qed.

Lemma fold_parseLine_preamble lines st :
  ps_state st = 0 ->
  (forall line, line ∈ lines -> strings_TrimSpace line <> "---") ->
  fold_left parseLine lines st = st.
Proof.
  intros Hs. induction lines as [|l lines IH]; intros Hl; [done|]. simpl.
  rewrite parseLine_preamble; [|done|apply Hl; by left].
  apply IH. intros line Hin. apply Hl. by right.
Qed.

Lemma makeWordSet_empty unicodeLower : makeWordSet unicodeLower "" = ∅.
Proof. reflexivity. Qed.

Lemma scanLines_no_error s cur :
  (N.of_nat (longestLine s (String.length cur)) < MaxScanTokenSize)%N ->
  (scanLines s cur).2 = None.
Proof.
  revert cur. induction s as [|c r IH]; intros cur; simpl.
  - intros H. destruct (isEmpty cur); [done|]. unfold tooLong.
    destruct (N.leb_spec MaxScanTokenSize (N.of_nat (String.length cur))); [lia|done].
  - destruct (Ascii.eqb c newline).
    + intros H. unfold tooLong.
      destruct (N.leb_spec MaxScanTokenSize (N.of_nat (String.length cur))); [lia|].
      specialize (IH ""). simpl in IH.
      destruct (scanLines r "") as [ls e]. simpl in *. apply IH. lia.
    + intros H. by apply IH.
Qed.

(** C10.  On a text none of whose lines is the delimiter [---],
    [parseTemplate] returns a template with an empty title, an empty
    nickname and an empty word set; the error it returns is the one of the
    line scanner, and there is none when every line fits the buffer of
    the scanner. *)
Theorem parseTemplate_without_front_matter unicodeLower content :
  (forall line, line ∈ (bufio_Scan content).1 -> strings_TrimSpace line <> "---") ->
  parseTemplate unicodeLower content
  = ({| Title := ""; Nickname := ""; Words := ∅ |}, (bufio_Scan content).2)
  /\ ((N.of_nat (longestLine content 0) < MaxScanTokenSize)%N ->
      (parseTemplate unicodeLower content).2 = None).
Proof.
  intros Hlines. unfold parseTemplate.
  pose proof (scanLines_no_error content "") as Hscan. fold (bufio_Scan content) in Hscan.
  destruct (bufio_Scan content) as [lines err]. simpl in *.
  rewrite fold_parseLine_preamble by done. simpl.
  rewrite makeWordSet_empty. split; [done|]. exact Hscan.
Qed.

Lemma parseTemplate_without_front_matter_witness :
  (forall line, line ∈ (bufio_Scan plainText).1 -> strings_TrimSpace line <> "---")
  /\ (N.of_nat (longestLine plainText 0) < MaxScanTokenSize)%N
  /\ parseTemplate noUnicode plainText
     = ({| Title := ""; Nickname := ""; Words := ∅ |}, None).
Proof.
  assert (forall line, line ∈ (bufio_Scan plainText).1 ->
                       strings_TrimSpace line <> "---") as Hlines.
  { intros line Hin. apply list_elem_of_In in Hin. vm_compute in Hin.
    destruct Hin as [<-|[<-|[<-|[]]]]; vm_compute; discriminate. }
  assert (N.of_nat (longestLine plainText 0) < MaxScanTokenSize)%N as Hshort
    by (vm_compute; reflexivity).
  split; [exact Hlines|]. split; [exact Hshort|].
  destruct (parseTemplate_without_front_matter noUnicode plainText Hlines) as [E He].
  specialize (He Hshort). rewrite E in He |- *. cbn [snd] in He. by rewrite He.
Defined.

(** ** Facts about the locator *)

Lemma scoreLicenseName_value name :
  exists q, scoreLicenseName name = FVal q /\ (0 <= q)%Q.
Proof.
  unfold scoreLicenseName.
  destruct (reLicense1 name); [by eexists|].
  destruct (reLicense2 name); [by eexists|].
  destruct (reLicense3 name); [by eexists|].
  destruct (reLicense4 name); by eexists.
Qed.

Lemma fgt_trans_false a b c :
  fgt (scoreLicenseName a) (scoreLicenseName b) = false ->
  fgt (scoreLicenseName c) (scoreLicenseName b) = true ->
  fgt (scoreLicenseName a) (scoreLicenseName c) = false.
Proof.
  destruct (scoreLicenseName_value a) as (qa & -> & _).
  destruct (scoreLicenseName_value b) as (qb & -> & _).
  destruct (scoreLicenseName_value c) as (qc & -> & _).
  rewrite !fgt_FVal_false, fgt_FVal. intros H1 H2.
  apply Qlt_le_weak. by eapply Qle_lt_trans.
Qed.

Section LocatorFacts.

Variable ReadDir : string -> result string (list FileInfo.t).

Lemma pickName_inv fis : pickInv fis (fold_left pickName fis (FVal 0, "")).
Proof.
  induction fis as [|fi fis IH] using rev_ind.
  - left. split; [done|]. intros fi Hfi. by apply elem_of_nil in Hfi.
  - rewrite fold_left_app. cbn [fold_left].
    destruct IH as [[-> Hnone]|(best & (Hin & Hc & Hmax) & ->)]; unfold pickName.
    + destruct (FileInfo.IsRegular fi) eqn:Er; simpl.
      * destruct (fgt (scoreLicenseName (FileInfo.Name fi)) (FVal 0)) eqn:Eg.
        -- right. exists fi. split; [|done]. split; [|split; [done|]].
           { apply elem_of_app. right. by left. }
           intros fi' Hin' Hr'. apply elem_of_app in Hin' as [Hin'|Hin'].
           ++ destruct (scoreLicenseName_value (FileInfo.Name fi')) as (q' & Eq' & Hq').
              destruct (scoreLicenseName_value (FileInfo.Name fi)) as (q & Eq & Hq).
              rewrite Eq in Eg. rewrite Eq, Eq'. apply fgt_FVal in Eg. apply fgt_FVal_false.
              destruct (Qlt_le_dec 0 q') as [Hpos|Hle].
              ** exfalso. apply (Hnone fi' Hin'). split; [done|].
                 rewrite Eq'. by apply fgt_FVal.
              ** apply Qlt_le_weak. by eapply Qle_lt_trans.
           ++ apply list_elem_of_singleton in Hin' as ->.
              destruct (scoreLicenseName_value (FileInfo.Name fi)) as (q & -> & _).
              apply fgt_FVal_false, Qle_refl.
        -- left. split; [done|]. intros fi' Hin'. apply elem_of_app in Hin' as [Hin'|Hin'].
           ++ by apply Hnone.
           ++ apply list_elem_of_singleton in Hin' as ->. intros [_ Hc]. congruence.
      * left. split; [done|]. intros fi' Hin'. apply elem_of_app in Hin' as [Hin'|Hin'].
        -- by apply Hnone.
        -- apply list_elem_of_singleton in Hin' as ->. intros [Hc _]. congruence.
    + destruct (FileInfo.IsRegular fi) eqn:Er; simpl.
      * destruct (fgt (scoreLicenseName (FileInfo.Name fi))
                      (scoreLicenseName (FileInfo.Name best))) eqn:Eg.
        -- right. exists fi. split; [|done]. split; [|split].
           { apply elem_of_app. right. by left. }
           { split; [done|]. destruct Hc as [_ Hc].
             destruct (scoreLicenseName_value (FileInfo.Name fi)) as (q & Eq & _).
             destruct (scoreLicenseName_value (FileInfo.Name best)) as (qb & Eqb & _).
             rewrite Eq, Eqb in *. apply fgt_FVal in Eg, Hc. apply fgt_FVal.
             by eapply Qlt_trans. }
           intros fi' Hin' Hr'. apply elem_of_app in Hin' as [Hin'|Hin'].
           ++ eapply fgt_trans_false; [by apply Hmax | done].
           ++ apply list_elem_of_singleton in Hin' as ->.
              destruct (scoreLicenseName_value (FileInfo.Name fi)) as (q & -> & _).
              apply fgt_FVal_false, Qle_refl.
        -- right. exists best. split; [|done]. split; [|split; [done|]].
           { apply elem_of_app. by left. }
           intros fi' Hin' Hr'. apply elem_of_app in Hin' as [Hin'|Hin'].
           ++ by apply Hmax.
           ++ by apply list_elem_of_singleton in Hin' as ->.
      * right. exists best. split; [|done]. split; [|split; [done|]].
        { apply elem_of_app. by left. }
        intros fi' Hin' Hr'. apply elem_of_app in Hin' as [Hin'|Hin'].
        -- by apply Hmax.
        -- apply list_elem_of_singleton in Hin' as ->. congruence.
Qed.

Lemma candidate_named fi : isCandidate fi -> FileInfo.Name fi <> "".
Proof. intros [_ H] E. rewrite E in H. by vm_compute in H. Qed.

(** One turn of the loop in a directory that can be read. *)
Lemma findLicense_loop_step fuel root path fis :
  path <> "." ->
  ReadDir (filepath_Join [root; "src"; path]) = Ok fis ->
  findLicense_loop ReadDir (S fuel) root path
  = let '(_, bestName) := fold_left pickName fis (FVal 0, "") in
    if negb (String.eqb bestName "")
    then Some (Ok (filepath_Join [path; bestName]))
    else findLicense_loop ReadDir fuel root (filepath_Dir path).
Proof.
  intros Hp Hr. cbn [findLicense_loop].
  destruct (String.eqb_spec path "."); [done|]. by rewrite Hr.
Qed.

Lemma findLicense_loop_barren fuel root path :
  path <> "." -> barren ReadDir root path ->
  findLicense_loop ReadDir (S fuel) root path
  = findLicense_loop ReadDir fuel root (filepath_Dir path).
Proof.
  intros Hp (fis & Hr & Hnone). rewrite (findLicense_loop_step _ _ _ fis) by done.
  destruct (pickName_inv fis) as [[-> _]|(fi & (Hin & Hc & _) & _)]; [done|].
  exfalso. by apply (Hnone fi).
Qed.

Lemma findLicense_loop_found root path fis :
  path <> "." ->
  ReadDir (filepath_Join [root; "src"; path]) = Ok fis ->
  (exists fi, fi ∈ fis /\ isCandidate fi) ->
  exists fi,
    bestCandidate fi fis
    /\ forall fuel,
         findLicense_loop ReadDir (S fuel) root path
         = Some (Ok (filepath_Join [path; FileInfo.Name fi])).
Proof.
  intros Hp Hr (fi0 & Hin0 & Hc0).
  destruct (pickName_inv fis) as [[_ Hnone]|(fi & Hbest & E)].
  - exfalso. by apply (Hnone fi0).
  - exists fi. split; [done|]. intros fuel.
    rewrite (findLicense_loop_step _ _ _ fis) by done. rewrite E.
    destruct Hbest as (_ & Hc & _). apply candidate_named in Hc.
    by destruct (String.eqb_spec (FileInfo.Name fi) "").
Qed.

Lemma findLicense_loop_root fuel root : findLicense_loop ReadDir fuel root "." = Some (Ok "").
Proof. by destruct fuel. Qed.

End LocatorFacts.

(** C4.  Let the first [k] directories of the upward walk from the import
    path of a package be readable and without candidate.  If the next
    directory is readable and holds a candidate, [findLicense] returns the
    best candidate of that directory, whatever the directories above it
    hold.  If instead the walk has reached [.], [findLicense] returns no
    path. *)
Theorem findLicense_nearest_wins ReadDir info k :
  let root := PkgInfo.Root info in
  let path := PkgInfo.ImportPath info in
  (forall j, j < k ->
     ancestor j path <> "." /\ barren ReadDir root (ancestor j path)) ->
  (forall fis,
     ancestor k path <> "." ->
     ReadDir (filepath_Join [root; "src"; ancestor k path]) = Ok fis ->
     (exists fi, fi ∈ fis /\ isCandidate fi) ->
     exists fi,
       bestCandidate fi fis
       /\ forall fuel, k < fuel ->
            findLicense ReadDir fuel info
            = Some (Ok (filepath_Join [ancestor k path; FileInfo.Name fi])))
  /\ (ancestor k path = "." ->
      forall fuel, k <= fuel -> findLicense ReadDir fuel info = Some (Ok "")).
Proof.
  unfold findLicense. generalize (PkgInfo.Root info) (PkgInfo.ImportPath info).
  clear info. intros root path. cbv zeta. revert path.
  induction k as [|k IH]; intros path Hbarren.
  - split.
    + intros fis Hp Hr Hc. simpl in *.
      destruct (findLicense_loop_found ReadDir root path fis Hp Hr Hc) as (fi & Hb & Hf).
      exists fi. split; [done|]. intros [|fuel] Hlt; [lia|]. apply Hf.
    + simpl. intros -> fuel _. apply findLicense_loop_root.
  - destruct (Hbarren 0 ltac:(lia)) as [Hp0 Hb0]. simpl in Hp0, Hb0.
    assert (forall j, j < k ->
              ancestor j (filepath_Dir path) <> "."
              /\ barren ReadDir root (ancestor j (filepath_Dir path))) as Hbarren'.
    { intros j Hj. apply (Hbarren (S j)). lia. }
    destruct (IH (filepath_Dir path) Hbarren') as [IH1 IH2]. split.
    + intros fis Hp Hr Hc. simpl in Hp, Hr.
      destruct (IH1 fis Hp Hr Hc) as (fi & Hb & Hf).
      exists fi. split; [done|]. intros [|fuel] Hlt; [lia|].
      rewrite findLicense_loop_barren by done. apply Hf. lia.
    + simpl. intros Hp [|fuel] Hle; [lia|].
      rewrite findLicense_loop_barren by done. apply IH2; [done|lia].
Qed.

Lemma sampleTree_barren dir names :
  sampleTree (filepath_Join ["/gopath"; "src"; dir]) = Ok names ->
  forallb (fun fi => negb (FileInfo.IsRegular fi
                           && fgt (scoreLicenseName (FileInfo.Name fi)) (FVal 0)))
          names = true ->
  barren sampleTree "/gopath" dir.
Proof.
  intros Hr Hall. exists names. split; [done|]. intros fi Hin [Hreg Hpos].
  rewrite forallb_forall in Hall. apply list_elem_of_In in Hin.
  specialize (Hall fi Hin). by rewrite Hreg, Hpos in Hall.
Qed.

Example nearest_directory_example :
  findLicense sampleTree 3 (samplePkg "a/b/c") = Some (Ok "a/b/COPYING")
  /\ fgt (scoreLicenseName "LICENSE") (scoreLicenseName "COPYING") = true
  /\ findLicense sampleTree 2 (samplePkg "x/y") = Some (Ok "").
Proof. vm_compute. repeat split; reflexivity. Qed.

Lemma findLicense_nearest_wins_witness :
  (exists fi,
     bestCandidate fi [file "COPYING"; directory "c"; file "doc.go"]
     /\ forall fuel, 1 < fuel ->
          findLicense sampleTree fuel (samplePkg "a/b/c")
          = Some (Ok (filepath_Join [ancestor 1 "a/b/c"; FileInfo.Name fi])))
  /\ (forall fuel, 2 <= fuel ->
        findLicense sampleTree fuel (samplePkg "x/y") = Some (Ok "")).
Proof.
  split.
  - apply (findLicense_nearest_wins sampleTree (samplePkg "a/b/c") 1).
    + intros j Hj. assert (j = 0) as -> by lia. split; [by vm_compute|].
      by apply (sampleTree_barren "a/b/c" [file "main.go"]).
    + by vm_compute.
    + by vm_compute.
    + exists (file "COPYING"). split; [by left|]. split; by vm_compute.
  - apply (findLicense_nearest_wins sampleTree (samplePkg "x/y") 2).
    + intros j Hj. assert (j = 0 \/ j = 1) as [-> | ->] by lia.
      * split; [by vm_compute|].
        by apply (sampleTree_barren "x/y" [file "y.go"]).
      * split; [by vm_compute|].
        by apply (sampleTree_barren "x" [directory "y"]).
    + by vm_compute.
Defined.

(** ** Facts about paths *)

Lemma append_nil_l s : ("" +:+ s)%string = s.
Proof. reflexivity. Qed.

Lemma append_cons c s t : (String c s +:+ t)%string = String c (s +:+ t).
Proof. reflexivity. Qed.

Lemma length_append s t :
  String.length (s +:+ t) = String.length s + String.length t.
Proof. induction s as [|c s IH]; [done|]. rewrite append_cons. simpl. by rewrite IH. Qed.

Lemma split_not_nil s : strings_Split s <> [].
Proof.
  destruct s as [|c r]; [done|]. simpl.
  destruct (Ascii.eqb c "/"); [done|]. by destruct (strings_Split r).
Qed.

Lemma split_noSlash s : Forall noSlash (strings_Split s).
Proof.
  induction s as [|c r IH]; simpl.
  - by repeat constructor.
  - destruct (Ascii.eqb c "/") eqn:Ec.
    + by constructor.
    + pose proof (split_not_nil r) as Hne.
      destruct (strings_Split r) as [|h t]; [done|].
      inversion IH as [|? ? Hh Ht]; subst. constructor; [|done].
      unfold noSlash in *. simpl. by rewrite Ec.
Qed.

Lemma join_cons2 e e' rest :
  strings_Join (e :: e' :: rest) = (e +:+ "/" +:+ strings_Join (e' :: rest))%string.
Proof. reflexivity. Qed.

Lemma join_split s : strings_Join (strings_Split s) = s.
Proof.
  induction s as [|c r IH]; [done|]. simpl.
  destruct (Ascii.eqb_spec c "/") as [->|Hc].
  - pose proof (split_not_nil r) as Hne.
    destruct (strings_Split r) as [|h t]; [done|].
    by rewrite join_cons2, IH.
  - pose proof (split_not_nil r) as Hne.
    destruct (strings_Split r) as [|h [|h' t]]; [done| |].
    + simpl in *. by rewrite IH.
    + rewrite join_cons2 in *. rewrite append_cons. by rewrite IH.
Qed.

Lemma split_single e : noSlash e -> strings_Split e = [e].
Proof.
  unfold noSlash. induction e as [|c r IH]; [done|]. simpl.
  intros H. apply andb_true_iff in H as [Hc Hr].
  destruct (Ascii.eqb c "/"); [done|]. by rewrite IH.
Qed.

Lemma split_app e x :
  noSlash e -> strings_Split (e +:+ String "/" x) = e :: strings_Split x.
Proof.
  unfold noSlash. induction e as [|c r IH]; [done|]. rewrite append_cons. simpl.
  intros H. apply andb_true_iff in H as [Hc Hr].
  destruct (Ascii.eqb c "/"); [done|]. by rewrite IH.
Qed.

Lemma split_join l :
  l <> [] -> Forall noSlash l -> strings_Split (strings_Join l) = l.
Proof.
  induction l as [|e [|e' rest] IH]; [done| |]; intros _ Hl.
  - simpl. apply split_single. by inversion Hl.
  - rewrite join_cons2. inversion Hl as [|? ? He Hrest]; subst.
    change ("/" +:+ strings_Join (e' :: rest))%string
      with (String "/" (strings_Join (e' :: rest))).
    rewrite split_app by done. f_equal. by apply IH.
Qed.

(** Taking elements away from a path does not make it longer. *)
Lemma join_sublist_length l1 l2 :
  sublist l1 l2 ->
  String.length (strings_Join l1) <= String.length (strings_Join l2).
Proof.
  induction 1 as [|x l1 l2 Hs IH|x l1 l2 Hs IH].
  - done.
  - destruct l1 as [|a l1].
    + destruct l2 as [|b l2]; [done|]. rewrite join_cons2, !length_append. simpl. lia.
    + destruct l2 as [|b l2]; [by apply sublist_nil_r in Hs|].
      rewrite !join_cons2, !length_append. lia.
  - destruct l2 as [|b l2].
    + apply sublist_nil_r in Hs as ->. simpl. lia.
    + rewrite join_cons2, !length_append. lia.
Qed.

Lemma join_snoc_length l e :
  l <> [] ->
  String.length (strings_Join (l ++ [e]))
  = String.length (strings_Join l) + 1 + String.length e.
Proof.
  induction l as [|a [|b l] IH]; [done| |]; intros _.
  - simpl. rewrite !length_append. simpl. lia.
  - change ((a :: b :: l) ++ [e]) with (a :: b :: (l ++ [e])).
    rewrite !join_cons2, !length_append.
    change (b :: l ++ [e]) with ((b :: l) ++ [e]). rewrite IH by done. lia.
Qed.

Lemma dirPart_head c r :
  dirPart (String c r) <> "" -> exists d, dirPart (String c r) = String c d.
Proof.
  simpl. destruct (dirPart r) as [|x d].
  - destruct (Ascii.eqb_spec c "/") as [->|]; [by exists "" | done].
  - by eexists.
Qed.

(** The elements of the directory part: those of the path but the last,
    followed by an empty one. *)
Lemma dirPart_split p :
  (length (strings_Split p) = 1 /\ dirPart p = "")
  \/ (2 <= length (strings_Split p)
      /\ strings_Split (dirPart p) = removelast (strings_Split p) ++ [""]).
Proof.
  induction p as [|c r IH]; [by left|].
  pose proof (split_not_nil r) as Hne. simpl.
  destruct (strings_Split r) as [|h t] eqn:Er; [done|].
  destruct IH as [[Hlen Hd]|[Hlen Hs]].
  - destruct t; [|simpl in Hlen; lia]. rewrite Hd.
    destruct (Ascii.eqb c "/");
      [right; split; [simpl; lia | reflexivity] | left; split; reflexivity].
  - destruct t as [|h' t]; [simpl in Hlen; lia|].
    assert (dirPart r <> "") as Hd.
    { intros E. rewrite E in Hs.
      change (removelast (h :: h' :: t)) with (h :: removelast (h' :: t)) in Hs.
      simpl in Hs. injection Hs as _ Hs. by destruct t. }
    destruct (dirPart r) as [|x d] eqn:Ed; [done|]. right.
    remember (String x d) as D eqn:ED. clear ED.
    destruct (Ascii.eqb c "/") eqn:Ec.
    + split; [simpl; lia|]. cbn [strings_Split]. rewrite Ec, Hs. done.
    + split; [simpl; lia|]. cbn [strings_Split]. rewrite Ec, Hs. simpl.
      by destruct t.
Qed.

Lemma dotdot_realElem : realElem "..".
Proof. split; [reflexivity | discriminate]. Qed.

(** The stack of [filepath.Clean] on a path that is not rooted holds
    elements of the path, in their order. *)
Lemma cleanElems_inv elems :
  Forall noSlash elems ->
  let out := fold_left (cleanElem false) elems [] in
  Forall realElem out /\ sublist (rev out) elems.
Proof.
  intros Hall. cbv zeta. induction elems as [|e elems IH] using rev_ind.
  - split; [constructor | done].
  - apply Forall_app in Hall as [Hall He]. inversion He as [|? ? Hne _]; subst.
    destruct (IH Hall) as [Hreal Hsub]. rewrite fold_left_app. cbn [fold_left].
    set (out := fold_left (cleanElem false) elems []) in *. unfold cleanElem.
    destruct (String.eqb_spec e "") as [->|Hempty]; simpl.
    { split; [done|]. by apply sublist_inserts_r. }
    destruct (String.eqb_spec e ".") as [->|Hdot]; simpl.
    { split; [done|]. by apply sublist_inserts_r. }
    destruct (String.eqb_spec e "..") as [->|Hdd].
    + destruct out as [|top below].
      * split; [repeat constructor; apply dotdot_realElem|].
        simpl. apply sublist_inserts_l. done.
      * destruct (String.eqb top "..").
        -- split; [constructor; [apply dotdot_realElem | done]|].
           change (rev (".." :: top :: below)) with (rev (top :: below) ++ [".."]).
           by apply sublist_app.
        -- split; [by inversion Hreal|]. apply sublist_inserts_r.
           etrans; [|exact Hsub]. simpl. by apply sublist_inserts_r.
    + split; [constructor; [by split | done]|].
      simpl. by apply sublist_app.
Qed.

Lemma cleanElem_empty rooted out : cleanElem rooted out "" = out.
Proof. reflexivity. Qed.

Lemma join_realElem l :
  l <> [] -> Forall realElem l ->
  strings_Join l <> "" /\ isRooted (strings_Join l) = false.
Proof.
  destruct l as [|e rest]; [done|]. intros _ Hl.
  inversion Hl as [|? ? [Hns Hne] _]; subst.
  destruct e as [|c e]; [done|].
  unfold noSlash in Hns. simpl in Hns. apply andb_true_iff in Hns as [Hc _].
  destruct rest; simpl; (split; [done|]); by destruct (Ascii.eqb c "/").
Qed.

(** One step of the upward walk from a path that is not rooted: the parent
    is [.], or it is shorter and has fewer elements, and again it is not
    rooted. *)
Lemma Dir_step p :
  p <> "" -> isRooted p = false ->
  filepath_Dir p = "."
  \/ (filepath_Dir p <> "" /\ isRooted (filepath_Dir p) = false
      /\ String.length (filepath_Dir p) < String.length p
      /\ length (strings_Split (filepath_Dir p)) < length (strings_Split p)).
Proof.
  intros Hne Hrel. unfold filepath_Dir.
  destruct (dirPart_split p) as [[_ ->]|[Hlen Hs]]; [by left|].
  assert (dirPart p <> "") as Hd.
  { intros E. rewrite E in Hs. apply (f_equal length) in Hs.
    rewrite length_app in Hs. simpl in Hs.
    pose proof (f_equal length (app_removelast_last "" (split_not_nil p))) as Hp.
    rewrite length_app in Hp. simpl in Hp. lia. }
  assert (isRooted (dirPart p) = false) as Hrooted.
  { destruct p as [|c r]; [done|]. by destruct (dirPart_head c r Hd) as [d ->]. }
  assert (isEmpty (dirPart p) = false) as Hie by (by destruct (dirPart p)).
  unfold filepath_Clean. rewrite Hie, Hrooted, Hs, fold_left_app.
  cbn [fold_left]. rewrite cleanElem_empty.
  set (init := removelast (strings_Split p)).
  assert (Forall noSlash init) as Hinit.
  { pose proof (split_noSlash p) as H.
    rewrite (app_removelast_last "" (split_not_nil p)) in H.
    by apply Forall_app in H as [? _]. }
  destruct (cleanElems_inv init Hinit) as [Hreal Hsub].
  set (out := fold_left (cleanElem false) init []) in *.
  destruct (rev out) as [|e rest] eqn:Eo; [by left|]. right.
  assert (Forall realElem (e :: rest)) as Hreal'.
  { rewrite <- Eo. by apply Forall_rev. }
  destruct (join_realElem (e :: rest)) as [Hj Hr]; [done|done|].
  destruct (strings_Join (e :: rest)) as [|jc jr] eqn:Ej; [done|].
  cbn [isEmpty]. rewrite <- Ej in *. repeat split; try done.
  - pose proof (join_sublist_length _ _ Hsub) as Hle.
    assert (init <> []) as Hi.
    { intros E. rewrite E in Hsub. by apply sublist_nil_r in Hsub. }
    pose proof (join_snoc_length init (List.last (strings_Split p) "") Hi) as Hp.
    unfold init in Hp at 1.
    rewrite <- (app_removelast_last "" (split_not_nil p)), join_split in Hp. lia.
  - rewrite split_join; [|done|].
    + apply sublist_length in Hsub.
      pose proof (app_removelast_last "" (split_not_nil p)) as Hp.
      apply (f_equal length) in Hp. rewrite length_app in Hp. simpl in Hp.
      fold init in Hp. lia.
    + eapply Forall_impl; [exact Hreal'|]. by intros ? [? _].
Qed.

Lemma ancestor_relative p j :
  p <> "" -> isRooted p = false ->
  ancestor j p <> "" /\ isRooted (ancestor j p) = false.
Proof.
  revert p. induction j as [|j IH]; intros p Hne Hrel; [done|]. simpl.
  destruct (Dir_step p Hne Hrel) as [->|(Hne' & Hrel' & _)]; by apply IH.
Qed.

Lemma ancestor_reaches_root p :
  p <> "" -> isRooted p = false ->
  exists n, n <= length (strings_Split p) /\ ancestor n p = ".".
Proof.
  remember (length (strings_Split p)) as m eqn:Em. revert p Em.
  induction m as [m IH] using lt_wf_ind. intros p -> Hne Hrel.
  destruct (String.eqb_spec p ".") as [->|Hdot]; [exists 0; split; [lia|done]|].
  assert (1 <= length (strings_Split p)) as Hlen.
  { pose proof (split_not_nil p). destruct (strings_Split p); [done|simpl; lia]. }
  destruct (Dir_step p Hne Hrel) as [Hd|(Hne' & Hrel' & _ & Hlt)].
  - exists 1. split; [done|]. simpl. by rewrite Hd.
  - destruct (IH _ Hlt (filepath_Dir p) eq_refl Hne' Hrel') as (n & Hn & Ha).
    exists (S n). split; [lia | done].
Qed.

Lemma findLicense_loop_returns ReadDir root n p fuel :
  ancestor n p = "." -> n <= fuel ->
  exists r, findLicense_loop ReadDir fuel root p = Some r.
Proof.
  revert p fuel. induction n as [|n IH]; intros p fuel Ha Hle.
  - simpl in Ha. subst p. rewrite findLicense_loop_root. by eexists.
  - destruct fuel as [|fuel]; [lia|]. cbn [findLicense_loop].
    destruct (String.eqb p "."); [by eexists|].
    destruct (ReadDir (filepath_Join [root; "src"; p])) as [fis|err]; [|by eexists].
    destruct (fold_left pickName fis (FVal 0, "")) as [bs bn].
    destruct (negb (String.eqb bn "")); [by eexists|].
    apply IH; [done | lia].
Qed.

(** C9.  For a package whose import path is not empty and not rooted, the
    upward walk of [findLicense] reaches [.] in at most as many steps as
    the path has elements; each step gives [.] or a path that is strictly
    shorter; and with one unit of fuel for each element the loop returns,
    whatever the directories hold. *)
Theorem findLicense_terminates info :
  let path := PkgInfo.ImportPath info in
  path <> "" -> isRooted path = false ->
  (exists n, n <= length (strings_Split path) /\ ancestor n path = ".")
  /\ (forall j,
        filepath_Dir (ancestor j path) = "."
        \/ String.length (filepath_Dir (ancestor j path))
           < String.length (ancestor j path))
  /\ (forall ReadDir,
        exists r, findLicense ReadDir (length (strings_Split path)) info = Some r).
Proof.
  intros path Hne Hrel. split; [by apply ancestor_reaches_root|]. split.
  - intros j. destruct (ancestor_relative path j Hne Hrel) as [Hne' Hrel'].
    destruct (Dir_step _ Hne' Hrel') as [Hd|(_ & _ & Hlt & _)]; [by left | by right].
  - intros ReadDir. destruct (ancestor_reaches_root path Hne Hrel) as (n & Hn & Ha).
    by apply (findLicense_loop_returns ReadDir _ n).
Qed.

Lemma findLicense_terminates_witness :
  PkgInfo.ImportPath (samplePkg "x/y") <> ""
  /\ isRooted (PkgInfo.ImportPath (samplePkg "x/y")) = false
  /\ (exists n, n <= length (strings_Split "x/y") /\ ancestor n "x/y" = ".")
  /\ (forall j,
        filepath_Dir (ancestor j "x/y") = "."
        \/ String.length (filepath_Dir (ancestor j "x/y"))
           < String.length (ancestor j "x/y"))
  /\ (forall ReadDir,
        exists r, findLicense ReadDir (length (strings_Split "x/y"))
                    (samplePkg "x/y") = Some r).
Proof.
  split; [discriminate|]. split; [reflexivity|].
  apply (findLicense_terminates (samplePkg "x/y")); [discriminate | reflexivity].
Defined.

(** A rooted import path is outside the claim: the walk stays at the root
    directory. *)
Example rooted_path_never_reaches_dot :
  filepath_Dir "/a" = "/" /\ filepath_Dir "/" = "/".
Proof. vm_compute. split; reflexivity. Qed.

(** ** The grouping reducer on packages below one another *)

Lemma rangePaths_singleton rangePaths k (v : list License.t) :
  rangesPaths rangePaths -> rangePaths {[k := v]} = [(k, v)].
Proof.
  intros H. specialize (H {[k := v]}). rewrite map_to_list_singleton in H.
  by apply Permutation_singleton_r in H.
Qed.

(** The example of the specification: three packages below [a]. *)
Example group_siblings :
  groupLicenses map_to_list
    [row "a/x" "a/LICENSE"; row "a/y" "a/LICENSE"; row "a/z" "a/LICENSE"]
  = Ok [row "a" "a/LICENSE"].
Proof. vm_compute. reflexivity. Qed.

(** C3, the behaviour of the code on a package and one of its
    sub-packages that share a license file: the walk down the prefix tree
    does not stop at the node where the shorter import path ends, and the
    row of the group is named after the longer path, which is not a prefix
    of the shorter one. *)
Theorem group_named_after_longer_path rangePaths :
  rangesPaths rangePaths ->
  longestCommonPrefix [row "a" "a/LICENSE"; row "a/b" "a/LICENSE"] = "a/b"
  /\ groupLicenses rangePaths [row "a" "a/LICENSE"; row "a/b" "a/LICENSE"]
     = Ok [row "a/b" "a/LICENSE"]
  /\ ~ isPathPrefix "a/b" "a".
Proof.
  intros Hrange. split; [vm_compute; reflexivity|]. split.
  - unfold groupLicenses.
    assert (fold_left collectPath [row "a" "a/LICENSE"; row "a/b" "a/LICENSE"] ∅
            = {["a/LICENSE" := [row "a" "a/LICENSE"; row "a/b" "a/LICENSE"]]}) as ->
      by (vm_compute; reflexivity).
    rewrite rangePaths_singleton by done. vm_compute. reflexivity.
  - intros [rest H]. vm_compute in H. discriminate.
Qed.

Lemma group_named_after_longer_path_witness :
  rangesPaths map_to_list
  /\ groupLicenses map_to_list [row "a" "a/LICENSE"; row "a/b" "a/LICENSE"]
     = Ok [row "a/b" "a/LICENSE"].
Proof.
  assert (rangesPaths map_to_list) as H by (intros m; reflexivity).
  split; [exact H|].
  exact (proj1 (proj2 (group_named_after_longer_path map_to_list H))).
Defined.

(** ** More about the scorer *)

Lemma absent_nil rangeWords n (m other : gmap string nat) :
  rangesWords rangeWords -> dom m ⊆ dom other -> absent rangeWords n m other = [].
Proof.
  intros Hr Hsub. destruct (absent rangeWords n m other) as [|w l] eqn:E; [done|].
  assert (w ∈ absent rangeWords n m other) as Hw by (rewrite E; by left).
  apply elem_of_absent in Hw as [Hm Ho]; [|done].
  assert (Text w ∈ dom other) as Hin by (apply Hsub, elem_of_dom; by eexists).
  apply elem_of_dom in Hin as [? Hin]. congruence.
Qed.

Lemma absent_NoDup rangeWords n (m other : gmap string nat) :
  rangesWords rangeWords -> NoDup (absent rangeWords n m other).
Proof.
  intros Hr. unfold absent. apply NoDup_fmap_2_strong.
  - intros [a b] [c d] _ _. unfold toWord. simpl. by intros [= -> ->].
  - apply NoDup_filter. rewrite (Hr n m). apply NoDup_map_to_list.
Qed.

Lemma common_empty_l (twords : gmap string nat) : common ∅ twords = 0.
Proof.
  unfold common. rewrite dom_empty_L.
  replace (∅ ∩ dom twords) with (∅ : gset string) by set_solver. done.
Qed.

Lemma dice_empty_l (twords : gmap string nat) : (dice ∅ twords == 0)%Q.
Proof. unfold dice. rewrite common_empty_l. unfold Qeq. simpl. lia. Qed.

(** X8.  When some template of the list has exactly the tokens of the
    candidate, and there is at least one token, the score returned is 1, the
    best template has exactly the tokens of the candidate, and no word is
    reported as extra or missing. *)
Theorem same_tokens_score_one unicodeLower rangeWords sortWords license templates t :
  rangesWords rangeWords ->
  sortsWords sortWords ->
  let words := makeWordSet unicodeLower license in
  let r := matchTemplates unicodeLower rangeWords sortWords license templates in
  t ∈ templates -> dom (Words t) = dom words -> words <> ∅ ->
  is_one (MatchResult.Score r)
  /\ (exists t', MatchResult.Template r = Some t' /\ dom (Words t') = dom words)
  /\ MatchResult.ExtraWords r = []
  /\ MatchResult.MissingWords r = [].
Proof.
  intros Hrange Hsort words r Hin Hdom Hne. subst r. rewrite matchTemplates_loop.
  cbv zeta. fold words. simpl.
  pose proof (loop_inv rangeWords Hrange words templates) as Hinv.
  unfold loopInv in Hinv.
  assert (scored words t) as Hsc.
  { unfold scored. apply map_size_non_empty_iff in Hne. lia. }
  destruct (bestTemplate (loop rangeWords words templates)) as [t0|].
  - destruct Hinv as (i & Hi & Hs0 & Hb & He & Hm & Hmax & _).
    apply list_elem_of_lookup in Hin as [j Hj].
    pose proof (Hmax j t Hj Hsc) as Hle.
    assert (dice words (Words t) == 1)%Q as H1 by (by apply dice_one).
    destruct (dice_bounds words (Words t0) Hs0) as [_ Hle1].
    assert (dice words (Words t0) == 1)%Q as H0.
    { apply Qle_antisym; [done|]. by rewrite <- H1. }
    apply dice_one in H0; [|done].
    rewrite Hb, He, Hm. split; [by apply dice_one|].
    split; [by exists t0|].
    rewrite !absent_nil by (done || by rewrite H0).
    by rewrite sortAndReturnWords_nil.
  - exfalso. destruct Hinv as (_ & _ & _ & Hall). by apply (Hall t).
Qed.

(** X9.  [matchTemplates] returns no template exactly when the candidate has
    no token and no template of the list has one (in particular when the list
    is empty); the score is then -1 and no word is reported. *)
Theorem no_template_iff_nothing_scored unicodeLower rangeWords sortWords license
    templates :
  rangesWords rangeWords ->
  sortsWords sortWords ->
  let words := makeWordSet unicodeLower license in
  let r := matchTemplates unicodeLower rangeWords sortWords license templates in
  (MatchResult.Template r = None
   <-> forall t, t ∈ templates -> words = ∅ /\ Words t = ∅)
  /\ (MatchResult.Template r = None ->
      MatchResult.Score r = FVal (-1)
      /\ MatchResult.ExtraWords r = [] /\ MatchResult.MissingWords r = []).
Proof.
  intros Hrange Hsort words r. subst r. rewrite matchTemplates_loop.
  cbv zeta. fold words. simpl.
  pose proof (loop_inv rangeWords Hrange words templates) as Hinv.
  unfold loopInv in Hinv.
  destruct (bestTemplate (loop rangeWords words templates)) as [t0|].
  - destruct Hinv as (i & Hi & Hs0 & _). split; [|done]. split; [done|].
    intros Hall. exfalso. destruct (Hall t0) as [Hw Ht].
    { by eapply list_elem_of_lookup_2. }
    unfold scored in Hs0. rewrite Hw, Ht, map_size_empty in Hs0. lia.
  - destruct Hinv as (Hb & He & Hm & Hall). split.
    + split; [|done]. intros _ t Ht. specialize (Hall t Ht). unfold scored in Hall.
      split; apply map_size_empty_iff; lia.
    + intros _. rewrite Hb, He, Hm. by rewrite sortAndReturnWords_nil.
Qed.

(** X10.  A candidate without token is matched with the first template that
    has a token, with score 0. *)
Theorem empty_candidate_first_template unicodeLower rangeWords sortWords license
    templates i t :
  rangesWords rangeWords ->
  let r := matchTemplates unicodeLower rangeWords sortWords license templates in
  makeWordSet unicodeLower license = ∅ ->
  templates !! i = Some t -> Words t <> ∅ ->
  (forall j t', j < i -> templates !! j = Some t' -> Words t' = ∅) ->
  MatchResult.Template r = Some t
  /\ exists q, MatchResult.Score r = FVal q /\ (q == 0)%Q.
Proof.
  intros Hrange r Hw Hi Hne Hbefore. subst r. rewrite matchTemplates_loop.
  cbv zeta. rewrite Hw. simpl.
  pose proof (loop_inv rangeWords Hrange ∅ templates) as Hinv.
  unfold loopInv in Hinv.
  assert (scored ∅ t) as Hsc.
  { unfold scored. apply map_size_non_empty_iff in Hne. lia. }
  destruct (bestTemplate (loop rangeWords ∅ templates)) as [t0|].
  - destruct Hinv as (i0 & Hi0 & Hs0 & Hb & _ & _ & _ & Hfirst).
    assert (i0 = i) as ->.
    { destruct (Nat.lt_trichotomy i0 i) as [Hlt|[E|Hgt]]; [|done|].
      - exfalso. unfold scored in Hs0. rewrite (Hbefore i0 t0 Hlt Hi0) in Hs0.
        rewrite !map_size_empty in Hs0. lia.
      - exfalso. pose proof (Hfirst i t Hgt Hi Hsc) as Hlt.
        rewrite !dice_empty_l in Hlt. by apply Qlt_irrefl in Hlt. }
    assert (t0 = t) as -> by congruence.
    split; [done|]. exists (dice ∅ (Words t)). split; [done | apply dice_empty_l].
  - exfalso. destruct Hinv as (_ & _ & _ & Hall). apply (Hall t); [|done].
    by eapply list_elem_of_lookup_2.
Qed.

Lemma StronglySorted_lookup_lt {A} (R : relation A) (l : list A) i j a b :
  StronglySorted R l -> i < j -> l !! i = Some a -> l !! j = Some b -> R a b.
Proof.
  intros Hs. revert i j. induction Hs as [|x l Hs IH Hall]; intros i j Hij Hi Hj.
  - done.
  - destruct j as [|j]; [lia|]. simpl in Hj. destruct i as [|i].
    + injection Hi as ->. rewrite Forall_forall in Hall.
      apply Hall. by eapply list_elem_of_lookup_2.
    + simpl in Hi. apply (IH i j); [lia|done|done].
Qed.

(** The words left out of [other], sorted and reduced to their text: they
    come by ascending position, and by strictly ascending position when no
    two words of [m] share one. *)
Lemma sorted_absent_positions rangeWords sortWords n (m other : gmap string nat)
    i j wi wj pi pj :
  rangesWords rangeWords -> sortsWords sortWords ->
  i < j ->
  sortAndReturnWords sortWords (absent rangeWords n m other) !! i = Some wi ->
  sortAndReturnWords sortWords (absent rangeWords n m other) !! j = Some wj ->
  m !! wi = Some pi -> m !! wj = Some pj ->
  pi <= pj /\ (posInjective m -> pi < pj).
Proof.
  intros Hr Hs Hij Hi Hj Hpi Hpj. rewrite sortAndReturnWords_fmap in Hi, Hj.
  destruct (Hs (absent rangeWords n m other)) as [Hperm Hsorted].
  apply list_lookup_fmap_Some in Hi as (a & -> & Ha).
  apply list_lookup_fmap_Some in Hj as (b & -> & Hb).
  assert (m !! Text a = Some (Pos a)) as Ea.
  { apply (elem_of_absent rangeWords Hr n m other). rewrite <- Hperm.
    by eapply list_elem_of_lookup_2. }
  assert (m !! Text b = Some (Pos b)) as Eb.
  { apply (elem_of_absent rangeWords Hr n m other). rewrite <- Hperm.
    by eapply list_elem_of_lookup_2. }
  assert (pi = Pos a) as -> by congruence. assert (pj = Pos b) as -> by congruence.
  assert (posLe a b) as Hle.
  { eapply StronglySorted_lookup_lt; [|exact Hij|exact Ha|exact Hb].
    by apply Sorted_StronglySorted; [apply _|]. }
  unfold posLe in Hle. split; [done|]. intros Hinj.
  destruct (decide (Pos a = Pos b)) as [E|]; [|lia]. exfalso.
  rewrite E in Ea. pose proof (Hinj _ _ _ Ea Eb) as Et.
  assert (a = b) as -> by (destruct a, b; simpl in *; congruence).
  assert (NoDup (sortWords (absent rangeWords n m other))) as Hnd.
  { rewrite Hperm. by apply absent_NoDup. }
  pose proof (NoDup_lookup _ _ _ _ Hnd Ha Hb). lia.
Qed.

(** X11.  When a best template is returned, [ExtraWords] holds exactly the
    tokens of the candidate that the template lacks, by strictly ascending
    position of first occurrence in the candidate; [MissingWords] holds
    exactly the tokens of the template that the candidate lacks, by ascending
    position in the template. *)
Theorem reported_words_by_position unicodeLower rangeWords sortWords license
    templates t :
  rangesWords rangeWords ->
  sortsWords sortWords ->
  let words := makeWordSet unicodeLower license in
  let r := matchTemplates unicodeLower rangeWords sortWords license templates in
  MatchResult.Template r = Some t ->
  (forall w, w ∈ MatchResult.ExtraWords r <-> w ∈ dom words /\ w ∉ dom (Words t))
  /\ (forall w, w ∈ MatchResult.MissingWords r
                <-> w ∈ dom (Words t) /\ w ∉ dom words)
  /\ (forall i j wi wj pi pj, i < j ->
        MatchResult.ExtraWords r !! i = Some wi ->
        MatchResult.ExtraWords r !! j = Some wj ->
        words !! wi = Some pi -> words !! wj = Some pj -> pi < pj)
  /\ (forall i j wi wj pi pj, i < j ->
        MatchResult.MissingWords r !! i = Some wi ->
        MatchResult.MissingWords r !! j = Some wj ->
        Words t !! wi = Some pi -> Words t !! wj = Some pj -> pi <= pj).
Proof.
  intros Hrange Hsort words r. subst r. rewrite matchTemplates_loop.
  cbv zeta. fold words. simpl.
  pose proof (loop_inv rangeWords Hrange words templates) as Hinv.
  unfold loopInv in Hinv. intros Ht. rewrite Ht in Hinv.
  destruct Hinv as (k & _ & _ & _ & He & Hm & _). rewrite He, Hm.
  assert (forall l w, w ∈ sortAndReturnWords sortWords l <-> w ∈ Text <$> l) as Hperm.
  { intros l w. by rewrite sortAndReturnWords_fmap, (proj1 (Hsort l)). }
  split; [|split; [|split]].
  - intros w. rewrite Hperm. by apply elem_of_absent_text.
  - intros w. rewrite Hperm. by apply elem_of_absent_text.
  - intros i j wi wj pi pj Hij Hi Hj Hpi Hpj.
    eapply sorted_absent_positions; try done. apply makeWordSet_posInjective.
  - intros i j wi wj pi pj Hij Hi Hj Hpi Hpj.
    by eapply sorted_absent_positions.
Qed.

Lemma same_tokens_score_one_witness :
  rangesWords rangeInOrder /\ sortsWords mergeSortWords
  /\ permissionTemplate ∈ [warrantyTemplate; permissionTemplate]
  /\ dom (Words permissionTemplate)
     = dom (makeWordSet noUnicode "Permission is hereby granted, free of charge.")
  /\ makeWordSet noUnicode "Permission is hereby granted, free of charge." <> ∅
  /\ is_one (MatchResult.Score
               (runMatch "Permission is hereby granted, free of charge."
                         [warrantyTemplate; permissionTemplate]))
  /\ MatchResult.ExtraWords
       (runMatch "Permission is hereby granted, free of charge."
                 [warrantyTemplate; permissionTemplate]) = []
  /\ MatchResult.MissingWords
       (runMatch "Permission is hereby granted, free of charge."
                 [warrantyTemplate; permissionTemplate]) = [].
Proof.
  assert (permissionTemplate ∈ [warrantyTemplate; permissionTemplate]) as Hin
    by (right; left).
  assert (dom (Words permissionTemplate)
          = dom (makeWordSet noUnicode
                   "Permission is hereby granted, free of charge.")) as Hdom
    by (vm_compute; reflexivity).
  assert (makeWordSet noUnicode "Permission is hereby granted, free of charge." <> ∅)
    as Hne.
  { intros H. apply (f_equal size) in H. vm_compute in H. discriminate. }
  split; [exact rangeInOrder_ranges|]. split; [exact mergeSortWords_sorts|].
  split; [exact Hin|]. split; [exact Hdom|]. split; [exact Hne|].
  destruct (same_tokens_score_one noUnicode rangeInOrder mergeSortWords
              "Permission is hereby granted, free of charge."
              [warrantyTemplate; permissionTemplate] permissionTemplate
              rangeInOrder_ranges mergeSortWords_sorts Hin Hdom Hne)
    as (H1 & _ & H2 & H3).
  split; [exact H1|]. split; [exact H2 | exact H3].
Defined.

Lemma no_template_iff_nothing_scored_witness :
  rangesWords rangeInOrder /\ sortsWords mergeSortWords
  /\ (MatchResult.Template (runMatch "" [emptyTemplate; emptyTemplate]) = None
      <-> forall t, t ∈ [emptyTemplate; emptyTemplate] ->
            makeWordSet noUnicode "" = ∅ /\ Words t = ∅).
Proof.
  split; [exact rangeInOrder_ranges|]. split; [exact mergeSortWords_sorts|].
  exact (proj1 (no_template_iff_nothing_scored noUnicode rangeInOrder mergeSortWords
                  "" [emptyTemplate; emptyTemplate]
                  rangeInOrder_ranges mergeSortWords_sorts)).
Defined.

Lemma empty_candidate_first_template_witness :
  rangesWords rangeInOrder
  /\ makeWordSet noUnicode "( ) --- !" = ∅
  /\ [emptyTemplate; warrantyTemplate; permissionTemplate] !! 1 = Some warrantyTemplate
  /\ Words warrantyTemplate <> ∅
  /\ MatchResult.Template
       (runMatch "( ) --- !" [emptyTemplate; warrantyTemplate; permissionTemplate])
     = Some warrantyTemplate.
Proof.
  assert (makeWordSet noUnicode "( ) --- !" = ∅) as Hw.
  { apply map_size_empty_iff. vm_compute. reflexivity. }
  assert (Words warrantyTemplate <> ∅) as Hne.
  { intros H. apply (f_equal size) in H. vm_compute in H. discriminate. }
  split; [exact rangeInOrder_ranges|]. split; [exact Hw|].
  split; [reflexivity|]. split; [exact Hne|].
  apply (empty_candidate_first_template noUnicode rangeInOrder mergeSortWords
           "( ) --- !" [emptyTemplate; warrantyTemplate; permissionTemplate]
           1 warrantyTemplate rangeInOrder_ranges Hw eq_refl Hne).
  intros j t' Hj Ht'. assert (j = 0) as -> by lia. by injection Ht' as <-.
Defined.

Lemma reported_words_by_position_witness :
  rangesWords rangeInOrder /\ sortsWords mergeSortWords
  /\ MatchResult.Template
       (runMatch "Permission is granted, free of warranty."
          [warrantyTemplate; permissionTemplate]) = Some permissionTemplate
  /\ (forall w,
        w ∈ MatchResult.ExtraWords
              (runMatch "Permission is granted, free of warranty."
                 [warrantyTemplate; permissionTemplate])
        <-> w ∈ dom (makeWordSet noUnicode "Permission is granted, free of warranty.")
            /\ w ∉ dom (Words permissionTemplate)).
Proof.
  assert (MatchResult.Template
            (runMatch "Permission is granted, free of warranty."
               [warrantyTemplate; permissionTemplate]) = Some permissionTemplate) as Ht
    by (vm_compute; reflexivity).
  split; [exact rangeInOrder_ranges|]. split; [exact mergeSortWords_sorts|].
  split; [exact Ht|].
  exact (proj1 (reported_words_by_position noUnicode rangeInOrder mergeSortWords
                  "Permission is granted, free of warranty."
                  [warrantyTemplate; permissionTemplate] permissionTemplate
                  rangeInOrder_ranges mergeSortWords_sorts Ht)).
Defined.

(** ** More about the tokenizer *)

Lemma forallb_rev_string p s acc :
  forallb_string p (rev_string s acc) = forallb_string p s && forallb_string p acc.
Proof.
  revert acc. induction s as [|c s IH]; intros acc; [done|]. simpl.
  rewrite IH. simpl. by destruct (p c), (forallb_string p s).
Qed.

Lemma rev_string_not_empty s acc : isEmpty s = false -> rev_string s acc <> "".
Proof.
  revert acc. induction s as [|c s IH]; intros acc; [done|]. intros _. simpl.
  destruct s as [|d s]; [done|]. by apply IH.
Qed.

(** The tokens found in a text whose bytes all satisfy [p]: each one is
    not empty and made of word characters that satisfy [p]. *)
Lemma findAllWords_tokens p data cur w :
  forallb_string p data = true ->
  forallb_string (fun c => isWordChar c && p c) cur = true ->
  w ∈ findAllWords data cur ->
  w <> "" /\ forallb_string (fun c => isWordChar c && p c) w = true.
Proof.
  revert cur. induction data as [|c r IH]; intros cur Hp Hcur; simpl.
  - destruct (isEmpty cur) eqn:Ee; [by intros ?%elem_of_nil|].
    intros ->%list_elem_of_singleton. split; [by apply rev_string_not_empty|].
    by rewrite forallb_rev_string, Hcur.
  - simpl in Hp. apply andb_true_iff in Hp as [Hc Hr].
    destruct (isWordChar c) eqn:Ew.
    + apply IH; [done|]. simpl. by rewrite Ew, Hc.
    + destruct (isEmpty cur) eqn:Ee; [by apply (IH "")|].
      intros [->|Hin]%elem_of_cons; [|by eapply (IH "")].
      split; [by apply rev_string_not_empty|].
      by rewrite forallb_rev_string, Hcur.
Qed.

Lemma rev_string_app s acc : rev_string s acc = (rev_string s "" +:+ acc)%string.
Proof.
  revert acc. induction s as [|x s IH]; intros acc; [done|]. simpl.
  rewrite (IH (String x acc)), (IH (String x "")).
  generalize (rev_string s ""). intros u. induction u as [|y u IHu]; [done|].
  change (String y (u +:+ String x acc) = String y ((u +:+ String x "") +:+ acc))%string.
  by f_equal.
Qed.

Lemma append_assoc_string (a b c : string) :
  ((a +:+ b) +:+ c = a +:+ (b +:+ c))%string.
Proof.
  induction a as [|x a IH]; [done|].
  change (String x ((a +:+ b) +:+ c) = String x (a +:+ (b +:+ c)))%string.
  by f_equal.
Qed.

Lemma findAllWords_single data cur :
  forallb_string isWordChar data = true ->
  isEmpty data = false ->
  findAllWords data cur = [(rev_string cur "" +:+ data)%string].
Proof.
  revert cur. induction data as [|c r IH]; intros cur Hw Hne; [done|].
  simpl in Hw. apply andb_true_iff in Hw as [Hc Hr]. cbn [findAllWords]. rewrite Hc.
  destruct r as [|d r].
  - cbn [findAllWords isEmpty rev_string]. by rewrite rev_string_app.
  - rewrite (IH (String c cur)) by done. cbn [rev_string].
    by rewrite (rev_string_app cur), append_assoc_string.
Qed.

Lemma forallb_string_and f g s :
  forallb_string (fun c => f c && g c) s = forallb_string f s && forallb_string g s.
Proof.
  induction s as [|c s IH]; [done|]. simpl. rewrite IH.
  by destruct (f c), (g c), (forallb_string f s), (forallb_string g s).
Qed.

Lemma forallb_string_Forall p s :
  forallb_string p s = true <-> Forall (fun c => p c = true) (list_ascii_of_string s).
Proof.
  induction s as [|c s IH]; simpl.
  - split; [constructor | done].
  - rewrite andb_true_iff, IH. split.
    + intros [? ?]. by constructor.
    + by inversion 1.
Qed.

Lemma suffixOf_sublist t s :
  suffixOf t s -> sublist (list_ascii_of_string t) (list_ascii_of_string s).
Proof. induction 1; [done|]. simpl. by constructor. Qed.

Lemma reWords_FindAll_word data w :
  w ∈ reWords_FindAll data -> w <> "" /\ forallb_string isWordChar w = true.
Proof.
  intros Hw. unfold reWords_FindAll in Hw.
  apply (findAllWords_tokens (fun _ => true)) in Hw as [Hne Hall]; [|by clear; induction data|done].
  split; [done|]. rewrite forallb_string_and in Hall.
  by apply andb_true_iff in Hall as [? _].
Qed.

(** X5.  [reWords.FindAll]: every token is a non-empty run of word characters,
    and a non-empty text made of word characters only is a single token. *)
Theorem reWords_tokens data :
  (forall w, w ∈ reWords_FindAll data ->
     w <> "" /\ forallb_string isWordChar w = true)
  /\ (forallb_string isWordChar data = true -> data <> "" ->
      reWords_FindAll data = [data]).
Proof.
  split.
  - apply reWords_FindAll_word.
  - intros Hall Hne. unfold reWords_FindAll.
    rewrite findAllWords_single; [done|done|by destruct data].
Qed.

(** The stripping of copyright notices only deletes bytes: what is left is
    a subsequence of the text and is not longer. *)
Lemma ReplaceAll_sublist data :
  sublist (list_ascii_of_string (reCopyright_ReplaceAll data))
          (list_ascii_of_string data).
Proof.
  remember (String.length data) as n eqn:En. revert data En.
  induction n as [n IH] using lt_wf_ind. intros data ->.
  rewrite ReplaceAll_unfold. destruct (reCopyright_match data) as [rest|] eqn:E.
  - apply reCopyright_match_suffix in E as [Hsuf Hlen].
    etrans; [by eapply (IH _ Hlen)|]. by apply suffixOf_sublist.
  - destruct data as [|c r]; [done|]. simpl. constructor.
    apply (IH (String.length r)); [simpl; lia | done].
Qed.

Lemma noCopyrightWord_noNotice t : noCopyrightWord t = true -> noNotice t = true.
Proof.
  unfold noCopyrightWord, noNotice. intros H.
  assert (forall u, suffixOf u t -> reCopyright_match u = None) as Hno.
  { intros u Hu. unfold reCopyright_match.
    pose proof (everySuffix_head _ _
                  (everySuffix_suffix _ _ _
                     (suffixOf_trans _ _ _ (skipSpaces_suffix u) Hu) H)) as Hh.
    cbv beta in Hh. by destruct (litFold "copyright " (skipSpaces u)). }
  clear H. induction t as [|c r IH].
  - cbn [everySuffix]. by rewrite (Hno "" (suffixOf_refl _)).
  - cbn [everySuffix]. rewrite (Hno _ (suffixOf_refl _)). cbn [isSome negb andb].
    apply IH. intros u Hu. apply Hno. by constructor.
Qed.

(** X4.  [reCopyright.ReplaceAll(data, nil)] only deletes bytes, and it leaves
    a text alone in which the word copyright followed by a space does not
    occur in any letter case. *)
Theorem ReplaceAll_only_deletes data :
  sublist (list_ascii_of_string (reCopyright_ReplaceAll data))
          (list_ascii_of_string data)
  /\ String.length (reCopyright_ReplaceAll data) <= String.length data
  /\ (noCopyrightWord data = true -> reCopyright_ReplaceAll data = data).
Proof.
  split; [apply ReplaceAll_sublist|]. split.
  - pose proof (sublist_length _ _ (ReplaceAll_sublist data)) as H.
    assert (forall s, length (list_ascii_of_string s) = String.length s) as Hl.
    { induction s as [|c s IHs]; [done|]. simpl. by rewrite IHs. }
    by rewrite !Hl in H.
  - intros H. by apply strip_id, noCopyrightWord_noNotice.
Qed.

Lemma ReplaceAll_only_deletes_witness :
  noCopyrightWord "The software is provided as is." = true
  /\ reCopyright_ReplaceAll "The software is provided as is."
     = "The software is provided as is.".
Proof.
  split; [vm_compute; reflexivity|].
  apply (ReplaceAll_only_deletes "The software is provided as is.").
  vm_compute; reflexivity.
Defined.

(** The loop of [makeWordSet] over the tokens [matches]: a word is recorded
    with the index of its first occurrence, and every token is recorded. *)
Lemma fold_addWord_first (matches : list string) :
  let m := fold_left addWord (imap (fun i s => (i, s)) matches) ∅ in
  (forall w p, m !! w = Some p ->
     matches !! p = Some w /\ forall q, q < p -> matches !! q <> Some w)
  /\ (forall w, w ∈ matches -> is_Some (m !! w)).
Proof.
  induction matches as [|s matches IH] using rev_ind.
  - split; [intros w p; simpl; by rewrite lookup_empty|].
    intros w Hw. by apply elem_of_nil in Hw.
  - cbv zeta in *. rewrite imap_app, fold_left_app, imap_cons, imap_nil.
    cbn [fold_left]. rewrite Nat.add_0_r.
    set (m := fold_left addWord (imap (fun i s => (i, s)) matches) ∅) in *.
    destruct IH as [IH1 IH2]. unfold addWord at 1 2.
    assert (forall w p, m !! w = Some p ->
              (matches ++ [s]) !! p = Some w
              /\ forall q, q < p -> (matches ++ [s]) !! q <> Some w) as Hold.
    { intros w p Hw. destruct (IH1 w p Hw) as [Hp Hfirst].
      split; [by apply lookup_app_l_Some|]. intros q Hq.
      rewrite lookup_app_l; [by apply Hfirst|].
      apply lookup_lt_Some in Hp. lia. }
    destruct (m !! s) as [ps|] eqn:Es.
    + split; [done|]. intros w [Hw|Hw]%elem_of_app; [by apply IH2|].
      apply list_elem_of_singleton in Hw as ->. by eexists.
    + split.
      * intros w p. rewrite lookup_insert. case_decide as Hws.
        -- intros [= <-]. subst w. split.
           { rewrite lookup_app_r by lia. by rewrite Nat.sub_diag. }
           intros q Hq. rewrite lookup_app_l by done. intros Hqs.
           assert (is_Some (m !! s)) as [? ?]; [|congruence].
           apply IH2. by eapply list_elem_of_lookup_2.
        -- by apply Hold.
      * intros w Hw. rewrite lookup_insert. case_decide; [by eexists|].
        apply elem_of_app in Hw as [Hw|Hw]; [by apply IH2|].
        apply list_elem_of_singleton in Hw. congruence.
Qed.

(** X6.  [makeWordSet] maps a word to [p] exactly when the [p]-th token of the
    cleaned text is that word and no earlier token is: the first occurrence
    wins, and every token is a key. *)
Theorem makeWordSet_first_occurrence unicodeLower data w p :
  let tokens := reWords_FindAll (cleanLicenseData unicodeLower data) in
  makeWordSet unicodeLower data !! w = Some p
  <-> tokens !! p = Some w /\ forall q, q < p -> tokens !! q <> Some w.
Proof.
  intros tokens. unfold makeWordSet. fold tokens.
  destruct (fold_addWord_first tokens) as [H1 H2]. cbv zeta in *. split.
  - apply H1.
  - intros [Hp Hfirst].
    destruct (H2 w) as [p' Hp']; [by eapply list_elem_of_lookup_2|].
    destruct (H1 w p' Hp') as [Hp'' Hfirst'].
    destruct (Nat.lt_trichotomy p p') as [Hlt|[->|Hgt]]; [|done|].
    + by destruct (Hfirst' p Hlt).
    + by destruct (Hfirst p' Hgt).
Qed.

Lemma lowerASCII_not_upper c : isUpper (lowerASCII c) = false.
Proof. destruct c as [[] [] [] [] [] [] [] []]; vm_compute; reflexivity. Qed.

Lemma forallb_map_lower s :
  forallb_string (fun c => negb (isUpper c)) (map_string lowerASCII s) = true.
Proof.
  induction s as [|c s IH]; [done|]. simpl. by rewrite lowerASCII_not_upper, IH.
Qed.

Lemma ReplaceAll_forallb p data :
  forallb_string p data = true ->
  forallb_string p (reCopyright_ReplaceAll data) = true.
Proof.
  rewrite !forallb_string_Forall. intros H.
  rewrite Forall_forall in H |- *. intros c Hc. apply H.
  eapply elem_of_sublist; [exact Hc | apply ReplaceAll_sublist].
Qed.

(** X7.  Every key of a word set is a non-empty run of word characters, and on
    an ASCII text none of them has an upper case letter. *)
Theorem makeWordSet_keys unicodeLower data w p :
  makeWordSet unicodeLower data !! w = Some p ->
  w <> ""
  /\ forallb_string isWordChar w = true
  /\ (forallb_string isASCII data = true -> forallb_string isTokenChar w = true).
Proof.
  intros Hw. unfold makeWordSet in Hw.
  apply (proj1 (fold_addWord_first _)) in Hw as [Hw _].
  apply list_elem_of_lookup_2 in Hw.
  destruct (reWords_FindAll_word _ w Hw) as [Hne Hword].
  split; [done|]. split; [done|]. intros Hascii.
  unfold reWords_FindAll in Hw.
  apply (findAllWords_tokens (fun c => negb (isUpper c))) in Hw as [_ Hall]; [done| |done].
  unfold cleanLicenseData, bytes_ToLower. rewrite Hascii.
  apply ReplaceAll_forallb, forallb_map_lower.
Qed.

Lemma makeWordSet_keys_witness :
  makeWordSet noUnicode shoutedLicense !! "permission" = Some 0
  /\ forallb_string isASCII shoutedLicense = true
  /\ forallb_string isTokenChar "permission" = true.
Proof.
  assert (makeWordSet noUnicode shoutedLicense !! "permission" = Some 0) as H
    by (vm_compute; reflexivity).
  split; [exact H|]. split; [vm_compute; reflexivity|].
  apply (makeWordSet_keys noUnicode shoutedLicense "permission" 0 H).
  vm_compute; reflexivity.
Defined.

Example shoutedLicense_words :
  map_to_list (makeWordSet noUnicode shoutedLicense)
  ≡ₚ [("permission", 0); ("is", 1); ("hereby", 2); ("granted", 3)].
Proof.
  vm_compute map_to_list.
  apply NoDup_Permutation;
    [by apply NoDup_ListNoDup; repeat constructor; simpl; intuition discriminate
    |by apply NoDup_ListNoDup; repeat constructor; simpl; intuition discriminate|].
  intros x. rewrite !list_elem_of_In. simpl. tauto.
Qed.

(** ** More about the template parser *)

Lemma loadTemplates_from_spec unicodeLower contents acc :
  loadTemplates_from unicodeLower contents acc
  = if forallb (parses unicodeLower) contents
    then Ok (acc ++ ((fun a => (parseTemplate unicodeLower a).1) <$> contents))
    else Err ErrTooLong.
Proof.
  revert acc. induction contents as [|a contents IH]; intros acc.
  - simpl. by rewrite app_nil_r.
  - cbn [loadTemplates_from forallb]. unfold parses at 1.
    destruct (parseTemplate unicodeLower a) as [templ [[]|]] eqn:E;
      cbn [snd fst isSome negb andb]; [done|]. rewrite IH.
    destruct (forallb (parses unicodeLower) contents); [|done].
    rewrite <- app_assoc, fmap_cons, E. done.
Qed.

(** X3.  [loadTemplates] is all or nothing: when every asset parses without
    error it returns the templates of all the assets, in their order, and as
    soon as one asset fails it returns the error and no template. *)
Theorem loadTemplates_all_or_nothing unicodeLower assets :
  loadTemplates unicodeLower assets
  = if forallb (parses unicodeLower) assets
    then Ok ((fun a => (parseTemplate unicodeLower a).1) <$> assets)
    else Err ErrTooLong.
Proof. unfold loadTemplates. by rewrite loadTemplates_from_spec. Qed.

Lemma parseLine_front_matter st line :
  ps_state st = 1 -> ~ isDelimiter line ->
  ps_state (parseLine st line) = 1 /\ ps_text (parseLine st line) = ps_text st.
Proof.
  intros Hs Hd. unfold parseLine. rewrite Hs.
  destruct (String.eqb_spec (strings_TrimSpace line) "---") as [E|_]; [done|].
  destruct (strings_CutPrefix "title:" _); [done|].
  by destruct (strings_CutPrefix "nickname:" _).
Qed.

Lemma fold_parseLine_front_matter lines st :
  ps_state st = 1 -> Forall (fun l => ~ isDelimiter l) lines ->
  ps_state (fold_left parseLine lines st) = 1
  /\ ps_text (fold_left parseLine lines st) = ps_text st.
Proof.
  revert st. induction lines as [|l lines IH]; intros st Hs Hl; [done|].
  inversion Hl as [|? ? Hd Hrest]; subst. simpl.
  destruct (parseLine_front_matter st l Hs Hd) as [Hs' Ht'].
  destruct (IH (parseLine st l) Hs' Hrest) as [? ?]. split; congruence.
Qed.

Lemma fold_parseLine_body lines st :
  ps_state st = 2 ->
  ps_text (fold_left parseLine lines st)
  = fold_left (fun text line => text +:+ line +:+ String newline "")%string
              lines (ps_text st).
Proof.
  revert st. induction lines as [|l lines IH]; intros st Hs; [done|]. simpl.
  rewrite IH; [|unfold parseLine; by rewrite Hs].
  f_equal. unfold parseLine. by rewrite Hs.
Qed.

Lemma parseLine_delimiter st line :
  isDelimiter line -> ps_state st < 2 ->
  ps_state (parseLine st line) = S (ps_state st)
  /\ ps_text (parseLine st line) = ps_text st.
Proof.
  intros Hd Hs. unfold parseLine. unfold isDelimiter in Hd. rewrite Hd.
  destruct (ps_state st) as [|[|n]]; [done|done|lia].
Qed.

(** X1.  The three parts of a template: the lines before the first delimiter
    and those between the first two delimiters give no word, and the word set
    is that of the lines after the second delimiter, later delimiters
    included, each followed by a line feed. *)
Theorem parseTemplate_body unicodeLower content pre d1 fm d2 body :
  (bufio_Scan content).1 = pre ++ d1 :: fm ++ d2 :: body ->
  Forall (fun l => ~ isDelimiter l) pre -> isDelimiter d1 ->
  Forall (fun l => ~ isDelimiter l) fm -> isDelimiter d2 ->
  Words (parseTemplate unicodeLower content).1
  = makeWordSet unicodeLower (bodyText body).
Proof.
  intros Hlines Hpre Hd1 Hfm Hd2. unfold parseTemplate.
  destruct (bufio_Scan content) as [lines err]. simpl in Hlines. subst lines.
  cbn [fst Words]. f_equal.
  rewrite fold_left_app. cbn [fold_left]. rewrite fold_left_app. cbn [fold_left].
  set (st0 := {| ps_t := _; ps_text := ""; ps_state := 0 |}).
  assert (fold_left parseLine pre st0 = st0) as ->.
  { apply fold_parseLine_preamble; [done|].
    intros line Hin. rewrite Forall_forall in Hpre. by apply Hpre. }
  destruct (parseLine_delimiter st0 d1 Hd1) as [Hs1 Ht1]; [simpl; lia|].
  destruct (fold_parseLine_front_matter fm (parseLine st0 d1) Hs1 Hfm) as [Hs2 Ht2].
  destruct (parseLine_delimiter (fold_left parseLine fm (parseLine st0 d1)) d2 Hd2)
    as [Hs3 Ht3]; [rewrite Hs2; lia|].
  rewrite fold_parseLine_body by (rewrite Hs3, Hs2; done).
  rewrite Ht3, Ht2, Ht1. done.
Qed.

Lemma fold_parseLine_unclosed lines st :
  ps_text st = "" ->
  ps_state st + length (filter isDelimiter lines) < 2 ->
  ps_text (fold_left parseLine lines st) = "".
Proof.
  revert st. induction lines as [|l lines IH]; intros st Ht Hs; [done|]. simpl.
  destruct (decide (isDelimiter l)) as [Hd|Hd].
  - rewrite filter_cons_True in Hs by done. simpl in Hs.
    destruct (parseLine_delimiter st l Hd) as [Hs' Ht']; [lia|].
    apply IH; [congruence | lia].
  - rewrite filter_cons_False in Hs by done.
    assert (ps_state (parseLine st l) = ps_state st
            /\ ps_text (parseLine st l) = ps_text st) as [Hs' Ht'].
    { destruct (ps_state st) as [|[|n]] eqn:E; [| |lia].
      - rewrite parseLine_preamble; done.
      - destruct (parseLine_front_matter st l E Hd) as [? ?]. split; congruence. }
    apply IH; [congruence | lia].
Qed.

(** X2.  A template whose front matter is not closed, that is with fewer than
    two delimiter lines, has an empty word set. *)
Theorem parseTemplate_unclosed unicodeLower content :
  length (filter isDelimiter (bufio_Scan content).1) < 2 ->
  Words (parseTemplate unicodeLower content).1 = ∅.
Proof.
  intros H. unfold parseTemplate. destruct (bufio_Scan content) as [lines err].
  cbn [fst Words]. rewrite fold_parseLine_unclosed; [done|done|simpl in *; lia].
Qed.

Lemma parseTemplate_body_witness :
  (bufio_Scan dashedAsset).1
  = ["notes"] ++ "---" :: ["title: Dashed License"] ++ "---"
      :: ["first part"; "---"; "second part"]
  /\ Words (parseTemplate noUnicode dashedAsset).1
     = makeWordSet noUnicode (bodyText ["first part"; "---"; "second part"]).
Proof.
  assert ((bufio_Scan dashedAsset).1
          = ["notes"] ++ "---" :: ["title: Dashed License"] ++ "---"
              :: ["first part"; "---"; "second part"]) as H
    by (vm_compute; reflexivity).
  split; [exact H|].
  apply (parseTemplate_body noUnicode dashedAsset ["notes"] "---"
           ["title: Dashed License"] "---" ["first part"; "---"; "second part"] H).
  - repeat constructor. by vm_compute.
  - by vm_compute.
  - repeat constructor. by vm_compute.
  - by vm_compute.
Defined.

Lemma parseTemplate_unclosed_witness :
  length (filter isDelimiter (bufio_Scan unclosedAsset).1) < 2
  /\ Words (parseTemplate noUnicode unclosedAsset).1 = ∅.
Proof.
  assert (length (filter isDelimiter (bufio_Scan unclosedAsset).1) < 2) as H
    by (vm_compute; lia).
  split; [exact H|]. exact (parseTemplate_unclosed noUnicode unclosedAsset H).
Defined.

Example dashedAsset_words :
  Title (parseTemplate noUnicode dashedAsset).1 = "Dashed License"
  /\ size (Words (parseTemplate noUnicode dashedAsset).1) = 3.
Proof. vm_compute. split; reflexivity. Qed.

(** ** More about the locator *)

Lemma findLicense_loop_error ReadDir fuel root path err :
  path <> "." ->
  ReadDir (filepath_Join [root; "src"; path]) = Err err ->
  findLicense_loop ReadDir (S fuel) root path = Some (Err err).
Proof.
  intros Hp Hr. cbn [findLicense_loop].
  destruct (String.eqb_spec path "."); [done|]. by rewrite Hr.
Qed.

(** X15.  Every outcome of [findLicense] is decided at some directory of the
    upward walk, after directories that were read and hold no candidate: it is
    no path at [.], the error of the directory that could not be read, or the
    best candidate of the first directory that has one. *)
Theorem findLicense_outcome ReadDir fuel info res :
  findLicense ReadDir fuel info = Some res ->
  exists k, k <= fuel
    /\ decidedAt ReadDir (PkgInfo.Root info) (PkgInfo.ImportPath info) k res.
Proof.
  unfold findLicense. generalize (PkgInfo.Root info) (PkgInfo.ImportPath info).
  clear info. intros root path. revert path.
  induction fuel as [|fuel IH]; intros path.
  - simpl. destruct (String.eqb_spec path ".") as [->|]; [|done].
    intros [= <-]. exists 0. split; [lia|]. split; [intros j Hj; lia|]. by left.
  - destruct (String.eqb_spec path ".") as [->|Hp].
    { rewrite findLicense_loop_root. intros [= <-]. exists 0. split; [lia|].
      split; [intros j Hj; lia|]. by left. }
    destruct (ReadDir (filepath_Join [root; "src"; path])) as [fis|err] eqn:Hr.
    + destruct (pickName_inv fis) as [[E Hnone]|(fi & Hbest & E)].
      * assert (barren ReadDir root path) as Hb by (by exists fis).
        rewrite findLicense_loop_barren by done. intros H.
        destruct (IH _ H) as (k & Hk & Hpre & Hcase). exists (S k).
        split; [lia|]. split; [|exact Hcase].
        intros [|j] Hj; [done|]. apply Hpre. lia.
      * rewrite (findLicense_loop_step _ _ _ _ fis) by done. rewrite E.
        pose proof Hbest as (_ & Hc & _). apply candidate_named in Hc.
        destruct (String.eqb_spec (FileInfo.Name fi) ""); [done|].
        intros [= <-]. exists 0. split; [lia|]. split; [intros j Hj; lia|].
        right; right. split; [done|]. by exists fis, fi.
    + rewrite (findLicense_loop_error _ _ _ _ err) by done. intros [= <-].
      exists 0. split; [lia|]. split; [intros j Hj; lia|].
      right; left. split; [done|]. by exists err.
Qed.

Lemma findLicense_outcome_witness :
  findLicense sampleTree 3 (samplePkg "a/b/c") = Some (Ok "a/b/COPYING")
  /\ exists k, k <= 3
       /\ decidedAt sampleTree "/gopath" "a/b/c" k (Ok "a/b/COPYING").
Proof.
  assert (findLicense sampleTree 3 (samplePkg "a/b/c") = Some (Ok "a/b/COPYING"))
    as H by (vm_compute; reflexivity).
  split; [exact H|].
  exact (findLicense_outcome sampleTree 3 (samplePkg "a/b/c") _ H).
Defined.

(** X16.  A directory that cannot be read ends the walk: when the directories
    before it were read and hold no candidate, [findLicense] returns its
    error. *)
Theorem findLicense_read_error ReadDir info k err :
  let root := PkgInfo.Root info in
  let path := PkgInfo.ImportPath info in
  (forall j, j < k ->
     ancestor j path <> "." /\ barren ReadDir root (ancestor j path)) ->
  ancestor k path <> "." ->
  ReadDir (filepath_Join [root; "src"; ancestor k path]) = Err err ->
  forall fuel, k < fuel -> findLicense ReadDir fuel info = Some (Err err).
Proof.
  unfold findLicense. generalize (PkgInfo.Root info) (PkgInfo.ImportPath info).
  clear info. intros root path. cbv zeta. revert path.
  induction k as [|k IH]; intros path Hbarren Hp Hr [|fuel] Hlt; try lia.
  - by apply findLicense_loop_error.
  - destruct (Hbarren 0 ltac:(lia)) as [Hp0 Hb0]. simpl in Hp0, Hb0.
    rewrite findLicense_loop_barren by done. apply IH; [|done|done|lia].
    intros j Hj. apply (Hbarren (S j)). lia.
Qed.

Lemma findLicense_read_error_witness :
  (forall j, j < 1 ->
     ancestor j "p/q/r" <> "."
     /\ barren lockedTree "/gopath" (ancestor j "p/q/r"))
  /\ ancestor 1 "p/q/r" <> "."
  /\ lockedTree (filepath_Join ["/gopath"; "src"; ancestor 1 "p/q/r"])
     = Err "permission denied"
  /\ lockedTree (filepath_Join ["/gopath"; "src"; ancestor 2 "p/q/r"])
     = Ok [file "LICENSE"; directory "q"]
  /\ forall fuel, 1 < fuel ->
       findLicense lockedTree fuel (samplePkg "p/q/r")
       = Some (Err "permission denied").
Proof.
  assert (forall j, j < 1 ->
     ancestor j "p/q/r" <> "."
     /\ barren lockedTree "/gopath" (ancestor j "p/q/r")) as Hnear.
  { intros j Hj. assert (j = 0) as -> by lia. split; [discriminate|].
    exists [file "r.go"; directory "s"]. split; [vm_compute; reflexivity|].
    intros fi Hfi [Hreg Hpos].
    apply elem_of_cons in Hfi as [->|Hfi%list_elem_of_singleton];
      [by vm_compute in Hpos | subst fi; by vm_compute in Hreg]. }
  split; [exact Hnear|]. split; [vm_compute; discriminate|].
  split; [vm_compute; reflexivity|]. split; [vm_compute; reflexivity|].
  apply (findLicense_read_error lockedTree (samplePkg "p/q/r") 1
           "permission denied" Hnear).
  - vm_compute; discriminate.
  - vm_compute; reflexivity.
Defined.

Lemma dirPart_rooted p : isRooted p = true -> isRooted (dirPart p) = true.
Proof.
  destruct p as [|c r]; [done|]. simpl. intros Hc.
  destruct (dirPart r); [by rewrite Hc | done].
Qed.

Lemma Clean_rooted q : isRooted q = true -> isRooted (filepath_Clean q) = true.
Proof.
  intros H. unfold filepath_Clean. destruct q as [|c r]; [done|].
  cbn [isEmpty]. by rewrite H.
Qed.

Lemma ancestor_rooted p j : isRooted p = true -> isRooted (ancestor j p) = true.
Proof.
  revert p. induction j as [|j IH]; intros p H; [done|]. simpl.
  apply IH. unfold filepath_Dir. by apply Clean_rooted, dirPart_rooted.
Qed.

(** X17.  On a rooted import path the upward walk never reaches [.]: as long
    as the directories can be read and hold no candidate, the loop of
    [findLicense] goes on, whatever the number of turns allowed. *)
Theorem findLicense_rooted_walks_on ReadDir info :
  let root := PkgInfo.Root info in
  let path := PkgInfo.ImportPath info in
  isRooted path = true ->
  (forall j, barren ReadDir root (ancestor j path)) ->
  forall fuel, findLicense ReadDir fuel info = None.
Proof.
  unfold findLicense. generalize (PkgInfo.Root info) (PkgInfo.ImportPath info).
  clear info. intros root path. cbv zeta. intros Hrooted Hbarren fuel.
  revert path Hrooted Hbarren. induction fuel as [|fuel IH]; intros path Hr Hb.
  - simpl. destruct (String.eqb_spec path ".") as [->|]; done.
  - assert (path <> ".") as Hp by (by intros ->).
    rewrite findLicense_loop_barren; [|done|exact (Hb 0)].
    apply IH.
    + unfold filepath_Dir. by apply Clean_rooted, dirPart_rooted.
    + intros j. exact (Hb (S j)).
Qed.

Lemma findLicense_rooted_walks_on_witness :
  isRooted "/a/b" = true
  /\ (forall j, barren emptyTree "/gopath" (ancestor j "/a/b"))
  /\ forall fuel, findLicense emptyTree fuel (samplePkg "/a/b") = None.
Proof.
  assert (forall j, barren emptyTree "/gopath" (ancestor j "/a/b")) as Hb.
  { intros j. exists []. split; [done|]. intros fi Hfi. by apply elem_of_nil in Hfi. }
  split; [reflexivity|]. split; [exact Hb|].
  exact (findLicense_rooted_walks_on emptyTree (samplePkg "/a/b") eq_refl Hb).
Defined.

(** ** The score of a file name and the case of its letters *)

Ltac all_bytes c := destruct c as [[] [] [] [] [] [] [] []]; vm_compute; reflexivity.

Lemma lowerASCII_idem c : lowerASCII (lowerASCII c) = lowerASCII c.
Proof. all_bytes c. Qed.

Lemma lowerASCII_high c :
  (128 <=? code c)%N = true -> lowerASCII c = c.
Proof. destruct c as [[] [] [] [] [] [] [] []]; vm_compute; congruence. Qed.

Lemma lowerASCII_code_high c n :
  (128 <=? n)%N = true -> (code (lowerASCII c) =? n)%N = (code c =? n)%N.
Proof.
  intros Hn. destruct (128 <=? code c)%N eqn:Hc.
  - by rewrite lowerASCII_high.
  - assert (code (lowerASCII c) < 128)%N as Hl.
    { revert Hc. destruct c as [[] [] [] [] [] [] [] []]; vm_compute; congruence. }
    apply N.leb_le in Hn. apply N.leb_gt in Hc.
    transitivity false; [|symmetry]; apply N.eqb_neq; lia.
Qed.

Lemma lowerASCII_dot c : Ascii.eqb (lowerASCII c) "." = Ascii.eqb c ".".
Proof. all_bytes c. Qed.

Lemma lowerASCII_dash c : Ascii.eqb (lowerASCII c) "-" = Ascii.eqb c "-".
Proof. all_bytes c. Qed.

Lemma lowerASCII_underscore c : Ascii.eqb (lowerASCII c) "_" = Ascii.eqb c "_".
Proof. all_bytes c. Qed.

Lemma lowerASCII_digit c : isDigit (lowerASCII c) = isDigit c.
Proof. all_bytes c. Qed.

Lemma foldRune_lower p s :
  foldRune p (map_string lowerASCII s)
  = option_map (map_string lowerASCII) (foldRune p s).
Proof.
  destruct s as [|c [|c2 [|c3 r3]]]; cbn [map_string foldRune];
    rewrite ?lowerASCII_idem, ?lowerASCII_code_high by reflexivity;
    repeat (match goal with |- context [if ?b then _ else _] => destruct b end);
    reflexivity.
Qed.

Lemma foldLit_lower lit s :
  foldLit lit (map_string lowerASCII s)
  = option_map (map_string lowerASCII) (foldLit lit s).
Proof.
  revert s. induction lit as [|p lit IH]; intros s; [done|].
  cbn [foldLit]. rewrite foldRune_lower.
  destruct (foldRune p s) as [r|]; [apply IH | done].
Qed.

Lemma reLicence_lower s :
  reLicence (map_string lowerASCII s)
  = option_map (map_string lowerASCII) (reLicence s).
Proof.
  unfold reLicence. rewrite foldLit_lower.
  destruct (foldLit "licen" s) as [r|]; [|done]. cbn [option_map andThen].
  rewrite !foldRune_lower.
  destruct (foldRune "s" r) as [r1|]; cbn [option_map orElse andThen].
  - apply foldLit_lower.
  - destruct (foldRune "c" r) as [r2|]; cbn [option_map andThen]; [|done].
    apply foldLit_lower.
Qed.

Lemma reUnlicence_lower s :
  reUnlicence (map_string lowerASCII s)
  = option_map (map_string lowerASCII) (reUnlicence s).
Proof.
  unfold reUnlicence. rewrite foldLit_lower, reLicence_lower.
  destruct (foldLit "un" s) as [r|]; cbn [option_map andThen orElse].
  - rewrite reLicence_lower. destruct (reLicence r); [done|].
    cbn [option_map orElse]. by destruct (reLicence s).
  - by destruct (reLicence s).
Qed.

Lemma atEnd_lower x : atEnd (option_map (map_string lowerASCII) x) = atEnd x.
Proof. destruct x as [[|c r]|]; reflexivity. Qed.

Lemma reExtension_lower s :
  reExtension (map_string lowerASCII s) = reExtension s.
Proof.
  unfold reExtension. f_equal; [by destruct s|].
  induction s as [|c r IH]; [done|]. cbn [map_string forallb_string].
  by rewrite lowerASCII_dot, IH.
Qed.

Lemma reVersionExtension_lower s :
  reVersionExtension (map_string lowerASCII s) = reVersionExtension s.
Proof.
  induction s as [|c r IH]; [done|]. cbn [map_string reVersionExtension].
  by rewrite lowerASCII_dot, lowerASCII_dash, lowerASCII_underscore,
    lowerASCII_digit, reExtension_lower, IH.
Qed.

(** X14.  The score that [scoreLicenseName] gives to a file name does not
    depend on the case of its ASCII letters. *)
Theorem scoreLicenseName_ignores_case name :
  scoreLicenseName (map_string lowerASCII name) = scoreLicenseName name.
Proof.
  assert (reLicense1 (map_string lowerASCII name) = reLicense1 name) as E1.
  { unfold reLicense1. by rewrite reUnlicence_lower, atEnd_lower. }
  assert (reLicense2 (map_string lowerASCII name) = reLicense2 name) as E2.
  { unfold reLicense2. rewrite reUnlicence_lower.
    destruct (reUnlicence name) as [r|]; cbn [option_map andThen]; [|done].
    rewrite foldLit_lower. destruct (foldLit "." r) as [e|]; [|done].
    cbn [option_map]. by rewrite !foldLit_lower, !atEnd_lower. }
  assert (reLicense3 (map_string lowerASCII name) = reLicense3 name) as E3.
  { unfold reLicense3. rewrite foldLit_lower.
    destruct (foldLit "copy" name) as [r|]; cbn [option_map andThen]; [|done].
    rewrite !foldLit_lower.
    assert (forall x : option string,
      match option_map (map_string lowerASCII) x with
      | Some (String c e) => Ascii.eqb c "." && reExtension e
      | Some EmptyString => true
      | None => false
      end
      = match x with
        | Some (String c e) => Ascii.eqb c "." && reExtension e
        | Some EmptyString => true
        | None => false
        end) as Htail.
    { intros [[|c e]|]; cbn [option_map map_string]; [done| |done].
      by rewrite lowerASCII_dot, reExtension_lower. }
    destruct (foldLit "ing" r) as [r1|]; cbn [option_map orElse].
    - apply (Htail (Some r1)).
    - apply Htail. }
  assert (reLicense4 (map_string lowerASCII name) = reLicense4 name) as E4.
  { unfold reLicense4. rewrite reLicence_lower.
    destruct (reLicence name) as [r|]; cbn [option_map]; [|done].
    apply reVersionExtension_lower. }
  unfold scoreLicenseName. by rewrite E1, E2, E3, E4.
Qed.

(** ** The three loops of the grouping reducer *)

Lemma rowsOf_cons p l ls :
  rowsOf p (l :: ls)
  = if String.eqb (License.Path l) p then l :: rowsOf p ls else rowsOf p ls.
Proof. reflexivity. Qed.

Lemma rowsOf_app p ls1 ls2 : rowsOf p (ls1 ++ ls2) = rowsOf p ls1 ++ rowsOf p ls2.
Proof. apply List.filter_app. Qed.

Lemma rowsOf_path p l ls : l ∈ rowsOf p ls -> License.Path l = p.
Proof.
  intros H. apply list_elem_of_In, List.filter_In in H as [_ H].
  by apply String.eqb_eq.
Qed.

(** The first loop: the rows of every license file, in order. *)
Lemma collectPath_lookup ls : forall m k,
  fold_left collectPath ls m !! k
  = if String.eqb k "" then m !! k
    else match rowsOf k ls with
         | [] => m !! k
         | v => Some (default [] (m !! k) ++ v)
         end.
Proof.
  induction ls as [|l ls IH]; intros m k.
  { simpl. by destruct (String.eqb k ""). }
  cbn [fold_left]. rewrite IH, rowsOf_cons. unfold collectPath.
  destruct (String.eqb_spec k "") as [->|Hk].
  - destruct (String.eqb_spec (License.Path l) ""); [done|].
    by rewrite lookup_insert_ne.
  - destruct (String.eqb_spec (License.Path l) "") as [E|E].
    + rewrite E. destruct (String.eqb_spec "" k); [congruence|done].
    + destruct (String.eqb_spec (License.Path l) k) as [<-|Hne].
      * rewrite lookup_insert_eq. cbn [default].
        destruct (rowsOf (License.Path l) ls) as [|r rs].
        -- done.
        -- unfold id. by rewrite <- app_assoc.
      * by rewrite lookup_insert_ne.
Qed.

Lemma collectPath_paths ls k :
  fold_left collectPath ls ∅ !! k
  = if String.eqb k "" then None
    else match rowsOf k ls with [] => None | v => Some v end.
Proof.
  rewrite collectPath_lookup, lookup_empty.
  destruct (String.eqb k ""); [done|]. by destruct (rowsOf k ls).
Qed.

Lemma collectPath_Some ls k v :
  fold_left collectPath ls ∅ !! k = Some v ->
  k <> "" /\ v = rowsOf k ls /\ v <> [].
Proof.
  rewrite collectPath_paths. destruct (String.eqb_spec k ""); [done|].
  destruct (rowsOf k ls) eqn:E; [done|]. intros [= <-]. done.
Qed.

(** The second loop. *)
Lemma mergePath_Err kvs e : fold_left mergePath kvs (Err e) = Err e.
Proof. induction kvs as [|[k v] kvs IH]; [done|]. exact IH. Qed.

Lemma mergePath_cons k v kvs m :
  fold_left mergePath ((k, v) :: kvs) (Ok m)
  = if Nat.leb (length v) 1 then fold_left mergePath kvs (Ok m)
    else if String.eqb (longestCommonPrefix v) ""
    then Err (ErrNoCommonPrefix v)
    else fold_left mergePath kvs (Ok (<[k := merged v]> m)).
Proof.
  cbn [fold_left]. unfold mergePath at 2.
  destruct (Nat.leb (length v) 1) eqn:Hl; [done|].
  destruct (String.eqb (longestCommonPrefix v) ""); [apply mergePath_Err|].
  destruct v as [|l [|l' v]]; done.
Qed.

Lemma merged_short v : length v <= 1 -> merged v = v.
Proof. destruct v as [|l [|l' v]]; simpl; [done|done|lia]. Qed.

Lemma mergePath_Ok kvs : forall m m',
  NoDup kvs.*1 ->
  fold_left mergePath kvs (Ok m) = Ok m' ->
  (forall k v, (k, v) ∈ kvs ->
     m' !! k = (if Nat.leb (length v) 1 then m !! k else Some (merged v))
     /\ (2 <= length v -> longestCommonPrefix v <> ""))
  /\ (forall k, k ∉ kvs.*1 -> m' !! k = m !! k).
Proof.
  induction kvs as [|[k0 v0] kvs IH]; intros m m' Hnd Hf.
  { simpl in Hf. injection Hf as <-. split; [|done].
    intros k v H. by apply elem_of_nil in H. }
  rewrite fmap_cons in Hnd. apply NoDup_cons in Hnd as [Hk0 Hnd].
  cbn [fst] in Hk0. rewrite mergePath_cons in Hf.
  destruct (Nat.leb (length v0) 1) eqn:Hl.
  - destruct (IH _ _ Hnd Hf) as [Hin Hout]. split.
    + intros k v [[= -> ->]|H]%elem_of_cons.
      * rewrite Hl. split; [by apply Hout|]. apply Nat.leb_le in Hl. lia.
      * by apply Hin.
    + intros k Hk. rewrite fmap_cons in Hk. apply not_elem_of_cons in Hk as [_ Hk].
      by apply Hout.
  - destruct (String.eqb_spec (longestCommonPrefix v0) "") as [|Hp]; [done|].
    destruct (IH _ _ Hnd Hf) as [Hin Hout]. split.
    + intros k v [[= -> ->]|H]%elem_of_cons.
      * rewrite Hl, (Hout _ Hk0), lookup_insert_eq. done.
      * destruct (Hin _ _ H) as [E Hlcp]. split; [|done]. rewrite E.
        destruct (Nat.leb (length v) 1); [|done].
        apply lookup_insert_ne. intros ->. apply Hk0.
        apply list_elem_of_fmap. by exists (k, v).
    + intros k Hk. rewrite fmap_cons in Hk.
      apply not_elem_of_cons in Hk as [Hne Hk]. simpl in Hne.
      rewrite (Hout _ Hk). by apply lookup_insert_ne.
Qed.

Lemma mergePath_fails kvs : forall m e,
  fold_left mergePath kvs (Ok m) = Err e ->
  exists k v, (k, v) ∈ kvs /\ 2 <= length v
    /\ longestCommonPrefix v = "" /\ e = ErrNoCommonPrefix v.
Proof.
  induction kvs as [|[k0 v0] kvs IH]; intros m e Hf; [done|].
  rewrite mergePath_cons in Hf.
  assert (forall m0, fold_left mergePath kvs (Ok m0) = Err e ->
    exists k v, (k, v) ∈ (k0, v0) :: kvs /\ 2 <= length v
      /\ longestCommonPrefix v = "" /\ e = ErrNoCommonPrefix v) as Hrest.
  { intros m0 H. destruct (IH _ _ H) as (k & v & Hin & Hrestv).
    exists k, v. split; [by apply elem_of_cons; right | done]. }
  destruct (Nat.leb (length v0) 1) eqn:Hl; [by eapply Hrest|].
  destruct (String.eqb_spec (longestCommonPrefix v0) "") as [Hp|Hp].
  - injection Hf as <-. exists k0, v0. apply Nat.leb_gt in Hl.
    split; [by apply elem_of_cons; left |]. split; [lia|done].
  - by eapply Hrest.
Qed.

Lemma pathsInv_delete m k : pathsInv m -> pathsInv (delete k m).
Proof.
  intros H k' v Hv. apply lookup_delete_Some in Hv as [_ Hv]. by apply H.
Qed.

Lemma keepLicense_cons l ls kept m :
  fold_left keepLicense (l :: ls) (Ok (kept, m))
  = fold_left keepLicense ls
      (if String.eqb (License.Path l) "" then Ok (kept ++ [l], m)
       else match m !! License.Path l with
            | Some (l0 :: _) => Ok (kept ++ [l0], delete (License.Path l) m)
            | Some [] => Err ErrIndexOutOfRange
            | None => Ok (kept, m)
            end).
Proof. reflexivity. Qed.

Lemma keepLicense_rows ls : forall kept0 m,
  pathsInv m ->
  exists new m',
    fold_left keepLicense ls (Ok (kept0, m)) = Ok (kept0 ++ new, m')
    /\ rowsOf "" new = rowsOf "" ls
    /\ forall p, p <> "" ->
         rowsOf p new
         = match rowsOf p ls, m !! p with
           | _ :: _, Some (l0 :: _) => [l0]
           | _, _ => []
           end.
Proof.
  induction ls as [|l ls IH]; intros kept0 m Hinv.
  { exists [], m. rewrite app_nil_r. split; [done|]. split; [done|].
    intros p _. done. }
  rewrite keepLicense_cons.
  destruct (String.eqb_spec (License.Path l) "") as [E|E].
  - destruct (IH (kept0 ++ [l]) m Hinv) as (new & m' & Hf & H0 & Hp).
    exists (l :: new), m'. rewrite Hf, <- app_assoc. split; [done|].
    split.
    { rewrite !rowsOf_cons, E. cbn [String.eqb]. by rewrite H0. }
    intros p Hne. rewrite !rowsOf_cons, E.
    destruct (String.eqb_spec "" p); [congruence|]. by apply Hp.
  - destruct (m !! License.Path l) as [[|l0 v]|] eqn:Hm.
    + by destruct (Hinv _ _ Hm).
    + destruct (Hinv _ _ Hm) as [_ Hrows].
      assert (License.Path l0 = License.Path l) as E0
        by (apply Hrows; by apply elem_of_cons; left).
      destruct (IH (kept0 ++ [l0]) (delete (License.Path l) m)
                  (pathsInv_delete _ _ Hinv)) as (new & m' & Hf & H0 & Hp).
      exists (l0 :: new), m'. rewrite Hf, <- app_assoc. split; [done|].
      split.
      { rewrite !rowsOf_cons, E0.
        destruct (String.eqb_spec (License.Path l) ""); [done|]. exact H0. }
      intros p Hne. rewrite !rowsOf_cons, E0.
      destruct (String.eqb_spec (License.Path l) p) as [<-|Hd].
      * rewrite Hm, (Hp _ E), lookup_delete_eq. by destruct (rowsOf (License.Path l) ls).
      * rewrite (Hp _ Hne), lookup_delete_ne by done. done.
    + destruct (IH kept0 m Hinv) as (new & m' & Hf & H0 & Hp).
      exists new, m'. split; [done|]. split.
      { rewrite !rowsOf_cons.
        destruct (String.eqb_spec (License.Path l) ""); [done|]. exact H0. }
      intros p Hne. rewrite (Hp _ Hne), !rowsOf_cons.
      destruct (String.eqb_spec (License.Path l) p) as [<-|Hd]; [|done].
      rewrite Hm. by destruct (rowsOf (License.Path l) ls).
Qed.

Lemma keepLicense_alone ls : forall kept0 m,
  (forall l, l ∈ ls -> License.Path l <> "" -> m !! License.Path l = Some [l]) ->
  (forall p, p <> "" -> length (rowsOf p ls) <= 1) ->
  exists m', fold_left keepLicense ls (Ok (kept0, m)) = Ok (kept0 ++ ls, m').
Proof.
  induction ls as [|l ls IH]; intros kept0 m Hm Hone.
  { exists m. by rewrite app_nil_r. }
  rewrite keepLicense_cons.
  assert (forall p, p <> "" -> length (rowsOf p ls) <= 1) as Hone'.
  { intros p Hp. specialize (Hone p Hp). rewrite rowsOf_cons in Hone.
    destruct (String.eqb (License.Path l) p); simpl in Hone; lia. }
  destruct (String.eqb_spec (License.Path l) "") as [E|E].
  - destruct (IH (kept0 ++ [l]) m) as [m' Hf]; [|done|].
    { intros l' Hl'. apply Hm. by apply elem_of_cons; right. }
    exists m'. by rewrite Hf, <- app_assoc.
  - rewrite (Hm l) by (done || by apply elem_of_cons; left).
    destruct (IH (kept0 ++ [l]) (delete (License.Path l) m)) as [m' Hf]; [|done|].
    { intros l' Hl' Hp'. rewrite lookup_delete_ne.
      - apply Hm; [by apply elem_of_cons; right | done].
      - intros Heq. specialize (Hone _ E). rewrite rowsOf_cons in Hone.
        rewrite String.eqb_refl in Hone.
        assert (l' ∈ rowsOf (License.Path l) ls) as Hin.
        { apply list_elem_of_In, List.filter_In. split; [by apply list_elem_of_In|].
          by apply String.eqb_eq. }
        destruct (rowsOf (License.Path l) ls); [by apply elem_of_nil in Hin|].
        simpl in Hone. lia. }
    exists m'. by rewrite Hf, <- app_assoc.
Qed.

(** The map after the second loop, for an iteration order that meets its
    contract. *)
Lemma merged_paths rangePaths ls m' :
  rangesPaths rangePaths ->
  fold_left mergePath (rangePaths (fold_left collectPath ls ∅))
    (Ok (fold_left collectPath ls ∅)) = Ok m' ->
  (forall k, m' !! k = merged <$> (fold_left collectPath ls ∅ !! k))
  /\ (forall p, p <> "" -> 2 <= length (rowsOf p ls) ->
        longestCommonPrefix (rowsOf p ls) <> "").
Proof.
  intros Hrange Hf. set (m := fold_left collectPath ls ∅) in *.
  specialize (Hrange m).
  assert (NoDup (rangePaths m).*1) as Hnd.
  { rewrite Hrange. apply NoDup_fst_map_to_list. }
  destruct (mergePath_Ok _ _ _ Hnd Hf) as [Hin Hout].
  assert (forall k v, (k, v) ∈ rangePaths m <-> m !! k = Some v) as Hel.
  { intros k v. rewrite Hrange. apply elem_of_map_to_list. }
  split.
  - intros k. destruct (m !! k) as [v|] eqn:Hk.
    + destruct (Hin k v) as [E _]; [by apply Hel|]. rewrite E, Hk. cbn.
      destruct (Nat.leb (length v) 1) eqn:Hl; [|done].
      apply Nat.leb_le in Hl. by rewrite merged_short.
    + rewrite Hout, Hk; [done|]. intros ((k' & v) & -> & H)%list_elem_of_fmap.
      apply Hel in H. cbn [fst] in Hk. congruence.
  - intros p Hp Hlen. apply (Hin p); [|done]. apply Hel. unfold m.
    rewrite collectPath_paths. destruct (String.eqb_spec p ""); [done|].
    destruct (rowsOf p ls); [simpl in Hlen; lia | done].
Qed.

Lemma merged_pathsInv ls m' :
  (forall k, m' !! k = merged <$> (fold_left collectPath ls ∅ !! k)) ->
  pathsInv m'.
Proof.
  intros Hm k v Hv. rewrite Hm in Hv.
  destruct (fold_left collectPath ls ∅ !! k) as [v0|] eqn:Hk; [|done].
  injection Hv as <-. apply collectPath_Some in Hk as (Hne & -> & Hnil).
  destruct (rowsOf k ls) as [|l [|l' v]] eqn:E; [done| |].
  - split; [done|]. intros x Hx. apply (rowsOf_path _ _ ls). by rewrite E.
  - split; [done|]. intros x Hx%list_elem_of_singleton. subst x.
    change (License.Path l = k). apply (rowsOf_path _ _ ls). rewrite E.
    by apply elem_of_cons; left.
Qed.

(** The rows of the result, license file by license file. *)
Lemma groupLicenses_rows rangePaths ls kept :
  rangesPaths rangePaths ->
  groupLicenses rangePaths ls = Ok kept ->
  rowsOf "" kept = rowsOf "" ls
  /\ forall p, p <> "" -> rowsOf p kept = merged (rowsOf p ls).
Proof.
  intros Hrange. unfold groupLicenses.
  destruct (fold_left mergePath _ _) as [m'|e] eqn:Hf; [|done].
  destruct (merged_paths _ _ _ Hrange Hf) as [Hm _].
  destruct (keepLicense_rows ls [] m' (merged_pathsInv _ _ Hm))
    as (new & m'' & -> & H0 & Hp).
  intros [= <-]. split; [done|]. intros p Hne. rewrite (Hp _ Hne), Hm.
  rewrite collectPath_paths. destruct (String.eqb_spec p ""); [done|].
  destruct (rowsOf p ls) as [|l [|l' v]]; done.
Qed.

(** X22.  When [groupLicenses] succeeds, the rows without license file are
    those of the input, unchanged and in the same order. *)
Theorem groupLicenses_keeps_unlocated rangePaths licenses kept :
  rangesPaths rangePaths ->
  groupLicenses rangePaths licenses = Ok kept ->
  rowsOf "" kept = rowsOf "" licenses.
Proof. intros Hrange H. exact (proj1 (groupLicenses_rows _ _ _ Hrange H)). Qed.

Lemma rangesPaths_map_to_list : rangesPaths map_to_list.
Proof. intros m. reflexivity. Qed.

Lemma groupLicenses_keeps_unlocated_witness :
  rangesPaths map_to_list
  /\ groupLicenses map_to_list
       [bareRow "p"; row "a/x" "a/LICENSE"; bareRow "q"; row "a/y" "a/LICENSE"]
     = Ok [bareRow "p"; row "a" "a/LICENSE"; bareRow "q"]
  /\ rowsOf "" [bareRow "p"; row "a" "a/LICENSE"; bareRow "q"]
     = rowsOf ""
         [bareRow "p"; row "a/x" "a/LICENSE"; bareRow "q"; row "a/y" "a/LICENSE"].
Proof.
  assert (groupLicenses map_to_list
       [bareRow "p"; row "a/x" "a/LICENSE"; bareRow "q"; row "a/y" "a/LICENSE"]
     = Ok [bareRow "p"; row "a" "a/LICENSE"; bareRow "q"]) as H
    by (vm_compute; reflexivity).
  split; [exact rangesPaths_map_to_list|]. split; [exact H|].
  exact (groupLicenses_keeps_unlocated map_to_list _ _ rangesPaths_map_to_list H).
Defined.

(** X23.  When [groupLicenses] succeeds, the result has, for each license file
    of the input, one row: the only row of that file, or the first of its rows
    renamed to their [longestCommonPrefix]. *)
Theorem groupLicenses_one_row_per_file rangePaths licenses kept path :
  rangesPaths rangePaths ->
  groupLicenses rangePaths licenses = Ok kept ->
  path <> "" ->
  rowsOf path kept = merged (rowsOf path licenses).
Proof.
  intros Hrange H. exact (proj2 (groupLicenses_rows _ _ _ Hrange H) path).
Qed.

Lemma groupLicenses_one_row_per_file_witness :
  rangesPaths map_to_list
  /\ groupLicenses map_to_list
       [row "a/x" "a/LICENSE"; row "b" "b/COPYING"; row "a/y" "a/LICENSE"]
     = Ok [row "a" "a/LICENSE"; row "b" "b/COPYING"]
  /\ "a/LICENSE" <> ""
  /\ rowsOf "a/LICENSE" [row "a" "a/LICENSE"; row "b" "b/COPYING"]
     = merged (rowsOf "a/LICENSE"
         [row "a/x" "a/LICENSE"; row "b" "b/COPYING"; row "a/y" "a/LICENSE"]).
Proof.
  assert (groupLicenses map_to_list
       [row "a/x" "a/LICENSE"; row "b" "b/COPYING"; row "a/y" "a/LICENSE"]
     = Ok [row "a" "a/LICENSE"; row "b" "b/COPYING"]) as H
    by (vm_compute; reflexivity).
  split; [exact rangesPaths_map_to_list|]. split; [exact H|].
  split; [discriminate|].
  exact (groupLicenses_one_row_per_file map_to_list _ _ "a/LICENSE"
           rangesPaths_map_to_list H ltac:(discriminate)).
Defined.

(** X24.  [groupLicenses] returns its input as it is exactly when no two rows
    have the same license file. *)
Theorem groupLicenses_identity rangePaths licenses :
  rangesPaths rangePaths ->
  groupLicenses rangePaths licenses = Ok licenses
  <-> forall path, path <> "" -> length (rowsOf path licenses) <= 1.
Proof.
  intros Hrange. split.
  - intros H p Hp.
    pose proof (proj2 (groupLicenses_rows _ _ _ Hrange H) p Hp) as E.
    destruct (rowsOf p licenses) as [|l [|l' v]]; simpl; [lia|lia|].
    discriminate E.
  - intros Hone. unfold groupLicenses.
    set (m := fold_left collectPath licenses ∅).
    assert (forall k v, (k, v) ∈ rangePaths m -> length v <= 1) as Hshort.
    { intros k v Hin. rewrite (Hrange m) in Hin.
      apply elem_of_map_to_list, collectPath_Some in Hin as (Hk & -> & _).
      by apply Hone. }
    assert (forall kvs, (forall k v, (k, v) ∈ kvs -> length v <= 1) ->
              fold_left mergePath kvs (Ok m) = Ok m) as Hskip.
    { induction kvs as [|[k v] kvs IH]; intros Hall; [done|].
      rewrite mergePath_cons.
      assert (Nat.leb (length v) 1 = true) as ->.
      { apply Nat.leb_le, (Hall k). by apply elem_of_cons; left. }
      apply IH. intros k' v' Hin. apply (Hall k'). by apply elem_of_cons; right. }
    rewrite (Hskip _ Hshort).
    destruct (keepLicense_alone licenses [] m) as [m' ->]; [|done|done].
    intros l Hl Hp. unfold m. rewrite collectPath_paths.
    destruct (String.eqb_spec (License.Path l) ""); [done|].
    specialize (Hone _ Hp).
    assert (l ∈ rowsOf (License.Path l) licenses) as Hin.
    { apply list_elem_of_In, List.filter_In. split; [by apply list_elem_of_In|].
      apply String.eqb_refl. }
    destruct (rowsOf (License.Path l) licenses) as [|l1 [|l2 v]];
      [by apply elem_of_nil in Hin| |simpl in Hone; lia].
    by apply list_elem_of_singleton in Hin as ->.
Qed.

Lemma groupLicenses_identity_witness :
  rangesPaths map_to_list
  /\ (groupLicenses map_to_list [row "a" "a/LICENSE"; bareRow "p"; bareRow "q"]
      = Ok [row "a" "a/LICENSE"; bareRow "p"; bareRow "q"]
      <-> forall path, path <> "" ->
            length (rowsOf path [row "a" "a/LICENSE"; bareRow "p"; bareRow "q"])
            <= 1).
Proof.
  split; [exact rangesPaths_map_to_list|].
  exact (groupLicenses_identity map_to_list _ rangesPaths_map_to_list).
Defined.

(** X25.  [groupLicenses] fails exactly when two rows or more have the same
    license file and their [longestCommonPrefix] is empty; the error then
    carries the rows of such a license file. *)
Theorem groupLicenses_error rangePaths licenses :
  rangesPaths rangePaths ->
  (forall e, groupLicenses rangePaths licenses = Err e ->
     exists path, path <> ""
       /\ 2 <= length (rowsOf path licenses)
       /\ longestCommonPrefix (rowsOf path licenses) = ""
       /\ e = ErrNoCommonPrefix (rowsOf path licenses))
  /\ ((exists path, path <> ""
         /\ 2 <= length (rowsOf path licenses)
         /\ longestCommonPrefix (rowsOf path licenses) = "")
      -> exists e, groupLicenses rangePaths licenses = Err e).
Proof.
  intros Hrange. split.
  - intros e. unfold groupLicenses.
    destruct (fold_left mergePath _ _) as [m'|e'] eqn:Hf.
    + destruct (merged_paths _ _ _ Hrange Hf) as [Hm _].
      destruct (keepLicense_rows licenses [] m' (merged_pathsInv _ _ Hm))
        as (new & m'' & -> & _). done.
    + intros [= ->]. apply mergePath_fails in Hf as (k & v & Hin & Hlen & Hp & ->).
      rewrite (Hrange _) in Hin.
      apply elem_of_map_to_list, collectPath_Some in Hin as (Hk & -> & _).
      by exists k.
  - intros (p & Hp & Hlen & Hlcp).
    destruct (groupLicenses rangePaths licenses) as [kept|e] eqn:Hg; [|by exists e].
    exfalso. unfold groupLicenses in Hg.
    destruct (fold_left mergePath _ _) as [m'|e'] eqn:Hf; [|done].
    destruct (merged_paths _ _ _ Hrange Hf) as [_ Hne]. by apply (Hne p).
Qed.

Lemma groupLicenses_error_witness :
  rangesPaths map_to_list
  /\ exists e,
       groupLicenses map_to_list [row "a/x" "LICENSE"; row "b/x" "LICENSE"]
       = Err e.
Proof.
  split; [exact rangesPaths_map_to_list|].
  apply (proj2 (groupLicenses_error map_to_list
                  [row "a/x" "LICENSE"; row "b/x" "LICENSE"]
                  rangesPaths_map_to_list)).
  exists "LICENSE". split; [discriminate|]. split; [simpl; lia|].
  vm_compute; reflexivity.
Defined.

(** ** The prefix tree of [longestCommonPrefix] *)

Lemma size_one_singleton (m : gmap string Node) :
  size m = 1 -> exists k c, m = {[k := c]}.
Proof.
  intros Hs. destruct (map_choose m) as (k & c & Hk).
  { apply map_size_non_empty_iff. lia. }
  exists k, c. pose proof (map_size_delete_Some k m (ltac:(by exists c))) as Hd.
  assert (delete k m = ∅) as He by (apply map_size_empty_iff; lia).
  rewrite <- (insert_delete_id m k c Hk), He. reflexivity.
Qed.

Lemma descend_single name k c :
  descend (mkNode name {[k := c]}) = Name c :: descend c.
Proof.
  cbn [descend]. rewrite map_size_singleton. cbn [Nat.eqb].
  by rewrite map_fold_singleton.
Qed.

Lemma descend_other name children :
  size children <> 1 -> descend (mkNode name children) = [].
Proof. intros H. cbn [descend]. by destruct (Nat.eqb_spec (size children) 1). Qed.

Lemma height_single name k c : height (mkNode name {[k := c]}) = S (height c).
Proof. cbn [height]. rewrite map_fold_singleton. lia. Qed.

Lemma wellNamed_child name k c :
  wellNamed (mkNode name {[k := c]}) -> Name c = k /\ wellNamed c.
Proof.
  intros H. split.
  - apply (H [] k c). cbn. by rewrite lookup_singleton_eq.
  - intros q p c' Hw. apply (H (k :: q) p c'). cbn. by rewrite lookup_singleton_eq.
Qed.

(** The walk down: it ends on a node that has not exactly one child, and
    every path of the tree goes along it. *)
Lemma descend_spec n :
  wellNamed n ->
  (exists e, walk n (descend n) = Some e /\ size (Children e) <> 1)
  /\ forall q, is_Some (walk n q) ->
       q `prefix_of` descend n \/ descend n `prefix_of` q.
Proof.
  remember (height n) as h eqn:Hh. revert n Hh.
  induction h as [h IH] using lt_wf_ind. intros [name children] Hh Hwn.
  destruct (Nat.eq_dec (size children) 1) as [Hs|Hs].
  - destruct (size_one_singleton _ Hs) as (k & c & ->).
    destruct (wellNamed_child _ _ _ Hwn) as [Hname Hwc].
    rewrite descend_single, Hname. rewrite height_single in Hh.
    destruct (IH (height c) ltac:(lia) c eq_refl Hwc) as [(e & He & Hse) Hcmp].
    split.
    + exists e. cbn. rewrite lookup_singleton_eq. done.
    + intros [|p q] Hq; [left; apply prefix_nil|]. cbn in Hq.
      destruct (decide (p = k)) as [->|Hne].
      * rewrite lookup_singleton_eq in Hq.
        destruct (Hcmp q Hq); [left|right]; by apply prefix_cons.
      * rewrite lookup_singleton_ne in Hq by done. by destruct Hq.
  - rewrite descend_other by done. split.
    + by exists (mkNode name children).
    + intros q _. right. apply prefix_nil.
Qed.

Lemma walk_leaf name q : is_Some (walk (mkNode name ∅) q) <-> q = [].
Proof.
  destruct q as [|p q]; cbn.
  - split; [done|]. by eexists.
  - rewrite lookup_empty. split; [by intros [? ?]|done].
Qed.

Lemma Name_addParts parts n : Name (addParts parts n) = Name n.
Proof. by destruct parts. Qed.

Lemma walk_addParts parts : forall n q,
  is_Some (walk (addParts parts n) q)
  <-> is_Some (walk n q) \/ q `prefix_of` parts.
Proof.
  induction parts as [|p0 parts IH]; intros n q.
  { cbn [addParts]. split; [by left|]. intros [H|H]; [done|].
    apply prefix_nil_inv in H as ->. by eexists. }
  destruct q as [|p q].
  { split; [intros _; right; apply prefix_nil|]. intros _. by eexists. }
  cbn [addParts walk Children].
  destruct (decide (p = p0)) as [->|Hne].
  - rewrite lookup_insert_eq, IH.
    destruct (Children n !! p0) as [c|] eqn:Hc.
    + split; (intros [H|H]; [by left|right]).
      * by apply prefix_cons.
      * by apply prefix_cons_inv_2 in H.
    + rewrite walk_leaf. split.
      * intros [->|H]; right; [apply prefix_cons, prefix_nil | by apply prefix_cons].
      * intros [[? H]|H]; [done|]. right. by apply prefix_cons_inv_2 in H.
  - rewrite lookup_insert_ne by done. split; [by left|].
    intros [H|H]; [done|]. by apply prefix_cons_inv_1 in H.
Qed.

Lemma wellNamed_leaf name : wellNamed (mkNode name ∅).
Proof.
  intros q p c H. assert (is_Some (walk (mkNode name ∅) (q ++ [p]))) as Hs
    by (by eexists).
  apply walk_leaf in Hs. by destruct q.
Qed.

Lemma wellNamed_addParts parts : forall n,
  wellNamed n -> wellNamed (addParts parts n).
Proof.
  induction parts as [|p0 parts IH]; intros n Hn; [done|].
  set (c0 := match Children n !! p0 with
             | Some c => c
             | None => mkNode p0 ∅
             end).
  assert (Name c0 = p0 /\ wellNamed c0) as [Hname Hwc].
  { unfold c0. destruct (Children n !! p0) as [c|] eqn:Hc.
    - split.
      + apply (Hn [] p0 c). cbn. by rewrite Hc.
      + intros q p c' Hw. apply (Hn (p0 :: q) p c'). cbn. by rewrite Hc.
    - split; [done | apply wellNamed_leaf]. }
  intros q p c Hw. cbn [addParts] in Hw. fold c0 in Hw.
  destruct q as [|p1 q]; cbn [app walk Children] in Hw.
  - destruct (decide (p = p0)) as [->|Hne].
    + rewrite lookup_insert_eq in Hw. injection Hw as <-.
      by rewrite Name_addParts.
    + rewrite lookup_insert_ne in Hw by done.
      apply (Hn [] p c). cbn. exact Hw.
  - destruct (decide (p1 = p0)) as [->|Hne].
    + rewrite lookup_insert_eq in Hw. by apply (IH c0 Hwc q p c).
    + rewrite lookup_insert_ne in Hw by done.
      apply (Hn (p1 :: q) p c). exact Hw.
Qed.

Lemma walk_fold ls : forall n q,
  is_Some (walk (fold_left
     (fun root l => addParts (strings_Split (License.Package l)) root) ls n) q)
  <-> is_Some (walk n q)
      \/ exists l, l ∈ ls /\ q `prefix_of` strings_Split (License.Package l).
Proof.
  induction ls as [|l ls IH]; intros n q; cbn [fold_left].
  { split; [by left|]. intros [H|(l & Hl & _)]; [done|]. by apply elem_of_nil in Hl. }
  rewrite IH, walk_addParts. split.
  - intros [[H|H]|(l' & Hl' & H)]; [by left| |].
    + right. exists l. split; [by apply elem_of_cons; left | done].
    + right. exists l'. split; [by apply elem_of_cons; right | done].
  - intros [H|(l' & [->|Hl']%elem_of_cons & H)].
    + by left; left.
    + by left; right.
    + right. by exists l'.
Qed.

Lemma walk_buildTree ls q :
  is_Some (walk (buildTree ls) q)
  <-> q = [] \/ exists l, l ∈ ls /\ q `prefix_of` strings_Split (License.Package l).
Proof. unfold buildTree. by rewrite walk_fold, walk_leaf. Qed.

Lemma wellNamed_buildTree ls : wellNamed (buildTree ls).
Proof.
  unfold buildTree. generalize (wellNamed_leaf "").
  generalize (mkNode "" ∅). induction ls as [|l ls IH]; intros n Hn; [done|].
  cbn [fold_left]. by apply IH, wellNamed_addParts.
Qed.

Lemma longestCommonPrefix_eq ls :
  longestCommonPrefix ls = strings_Join (descend (buildTree ls)).
Proof. reflexivity. Qed.

Lemma descend_buildTree_noSlash ls : Forall noSlash (descend (buildTree ls)).
Proof.
  destruct (descend_spec _ (wellNamed_buildTree ls)) as [(e & He & _) _].
  assert (is_Some (walk (buildTree ls) (descend (buildTree ls)))) as Hs
    by (by exists e).
  apply walk_buildTree in Hs as [->|(l & _ & [rest Hp])]; [constructor|].
  pose proof (split_noSlash (License.Package l)) as Hall.
  rewrite Hp in Hall. by apply Forall_app in Hall as [H _].
Qed.

(** The elements of a result that is not empty. *)
Lemma longestCommonPrefix_split ls :
  descend (buildTree ls) <> [] ->
  strings_Split (longestCommonPrefix ls) = descend (buildTree ls).
Proof.
  intros Hne. rewrite longestCommonPrefix_eq.
  apply split_join; [done | apply descend_buildTree_noSlash].
Qed.

Lemma longestCommonPrefix_not_nil ls :
  longestCommonPrefix ls <> "" -> descend (buildTree ls) <> [].
Proof. intros H E. apply H. by rewrite longestCommonPrefix_eq, E. Qed.

(** X20.  A result of [longestCommonPrefix] that is not empty is, for every
    import path of the rows, made of its first elements or continues it. *)
Theorem longestCommonPrefix_along_every_path licenses l :
  l ∈ licenses ->
  longestCommonPrefix licenses <> "" ->
  isPathPrefix (longestCommonPrefix licenses) (License.Package l)
  \/ isPathPrefix (License.Package l) (longestCommonPrefix licenses).
Proof.
  intros Hl Hne. apply longestCommonPrefix_not_nil in Hne.
  unfold isPathPrefix. rewrite (longestCommonPrefix_split _ Hne).
  destruct (descend_spec _ (wellNamed_buildTree licenses)) as [_ Hcmp].
  destruct (Hcmp (strings_Split (License.Package l))) as [H|H]; [|by right|by left].
  apply walk_buildTree. right. by exists l.
Qed.

Lemma longestCommonPrefix_along_every_path_witness :
  row "a" "a/LICENSE" ∈ [row "a" "a/LICENSE"; row "a/b" "a/LICENSE"]
  /\ longestCommonPrefix [row "a" "a/LICENSE"; row "a/b" "a/LICENSE"] <> ""
  /\ (isPathPrefix
        (longestCommonPrefix [row "a" "a/LICENSE"; row "a/b" "a/LICENSE"]) "a"
      \/ isPathPrefix "a"
           (longestCommonPrefix [row "a" "a/LICENSE"; row "a/b" "a/LICENSE"])).
Proof.
  assert (row "a" "a/LICENSE" ∈ [row "a" "a/LICENSE"; row "a/b" "a/LICENSE"])
    as Hin by (apply elem_of_cons; by left).
  assert (longestCommonPrefix [row "a" "a/LICENSE"; row "a/b" "a/LICENSE"] <> "")
    as Hne by (vm_compute; discriminate).
  split; [exact Hin|]. split; [exact Hne|].
  exact (longestCommonPrefix_along_every_path _ _ Hin Hne).
Defined.

Lemma unnested_prefix ls l l' :
  unnested ls -> l ∈ ls -> l' ∈ ls ->
  strings_Split (License.Package l) `prefix_of` strings_Split (License.Package l') ->
  strings_Split (License.Package l) = strings_Split (License.Package l').
Proof. intros Hu Hl Hl' Hp. by rewrite (Hu l l' Hl Hl' Hp). Qed.

Lemma descend_common ls l :
  unnested ls -> l ∈ ls -> descend (buildTree ls) <> [] ->
  descend (buildTree ls) `prefix_of` strings_Split (License.Package l).
Proof.
  intros Hu Hl Hne.
  destruct (descend_spec _ (wellNamed_buildTree ls)) as [(e & He & _) Hcmp].
  destruct (Hcmp (strings_Split (License.Package l))) as [H|H]; [| |done].
  { apply walk_buildTree. right. by exists l. }
  assert (is_Some (walk (buildTree ls) (descend (buildTree ls)))) as Hs
    by (by exists e).
  apply walk_buildTree in Hs as [E|(l' & Hl' & Hp)]; [done|].
  rewrite (unnested_prefix ls l l' Hu Hl Hl'); [done|]. by etrans.
Qed.

Lemma two_keys (m : gmap string Node) :
  2 <= size m -> exists k1 k2, k1 <> k2 /\ is_Some (m !! k1) /\ is_Some (m !! k2).
Proof.
  intros Hs. destruct (map_choose m) as (k1 & c1 & Hk1).
  { apply map_size_non_empty_iff. lia. }
  pose proof (map_size_delete_Some k1 m (ltac:(by exists c1))) as Hd.
  destruct (map_choose (delete k1 m)) as (k2 & c2 & Hk2).
  { apply map_size_non_empty_iff. lia. }
  apply lookup_delete_Some in Hk2 as [Hne Hk2].
  exists k1, k2. split; [done|]. split; by eexists.
Qed.

Lemma walk_app n q1 q2 e :
  walk n q1 = Some e -> walk n (q1 ++ q2) = walk e q2.
Proof.
  revert n. induction q1 as [|p q1 IH]; intros n H; cbn in *.
  - by injection H as ->.
  - destruct (Children n !! p); [by apply IH | done].
Qed.

Lemma prefix_fork (ch : list string) p1 p2 pl :
  ch ++ [p1] `prefix_of` pl -> ch ++ [p2] `prefix_of` pl -> p1 = p2.
Proof.
  intros [r1 Hr1] [r2 Hr2]. rewrite Hr1, <- !app_assoc in Hr2.
  apply app_inv_head in Hr2. cbn in Hr2. by injection Hr2.
Qed.

Lemma descend_longest ls q :
  unnested ls -> ls <> [] ->
  (forall l, l ∈ ls -> q `prefix_of` strings_Split (License.Package l)) ->
  q `prefix_of` descend (buildTree ls).
Proof.
  intros Hu Hls Hq.
  destruct (descend_spec _ (wellNamed_buildTree ls)) as [(e & He & Hse) Hcmp].
  set (ch := descend (buildTree ls)) in *.
  assert (forall p, is_Some (Children e !! p) ->
            exists l, l ∈ ls /\ ch ++ [p] `prefix_of` strings_Split (License.Package l))
    as Hchild.
  { intros p [c Hc].
    assert (is_Some (walk (buildTree ls) (ch ++ [p]))) as Hs.
    { rewrite (walk_app _ _ _ _ He). cbn. rewrite Hc. by eexists. }
    apply walk_buildTree in Hs as [E|H]; [by destruct ch | done]. }
  destruct (decide (size (Children e) = 0)) as [H0|H0].
  - destruct ls as [|l ls']; [done|].
    assert (l ∈ l :: ls') as Hl by (apply elem_of_cons; by left).
    assert (ch `prefix_of` strings_Split (License.Package l)) as [rest Hrest].
    { destruct (decide (ch = [])) as [->|Hne]; [apply prefix_nil|].
      by apply descend_common. }
    destruct rest as [|p rest].
    + rewrite app_nil_r in Hrest. rewrite <- Hrest. by apply Hq.
    + exfalso. apply map_size_empty_iff in H0.
      assert (is_Some (walk (buildTree (l :: ls')) (ch ++ [p]))) as Hs.
      { apply walk_buildTree. right. exists l. split; [done|].
        rewrite Hrest. apply prefix_app. apply prefix_cons, prefix_nil. }
      rewrite (walk_app _ _ _ _ He) in Hs. cbn in Hs.
      rewrite H0, lookup_empty in Hs. by destruct Hs.
  - destruct (two_keys (Children e)) as (p1 & p2 & Hne & H1 & H2); [lia|].
    destruct (Hchild _ H1) as (l1 & Hl1 & Hp1).
    destruct (Hchild _ H2) as (l2 & Hl2 & Hp2).
    destruct (prefix_weak_total _ _ _ (Hq l1 Hl1) Hp1) as [Hc|Hc].
    + destruct Hc as [rest Hrest].
      destruct rest as [|x rest _] using rev_ind.
      * exfalso. rewrite app_nil_r in Hrest.
        pose proof (Hq l2 Hl2) as Hq2. rewrite <- Hrest in Hq2.
        by apply Hne, (prefix_fork ch p1 p2 (strings_Split (License.Package l2))).
      * rewrite app_assoc in Hrest. apply app_inj_tail in Hrest as [-> _].
        by exists rest.
    + exfalso. pose proof (Hq l2 Hl2) as Hq2.
      apply Hne, (prefix_fork ch p1 p2 (strings_Split (License.Package l2)));
        [by etrans | done].
Qed.

(** X21.  When no import path of the rows is made of the first elements of
    another one, a result of [longestCommonPrefix] that is not empty is made
    of the first elements of every import path, and every string that is so is
    made of the first elements of the result. *)
Theorem longestCommonPrefix_of_unnested licenses :
  unnested licenses ->
  licenses <> [] ->
  (longestCommonPrefix licenses <> "" ->
   forall l, l ∈ licenses ->
     isPathPrefix (longestCommonPrefix licenses) (License.Package l))
  /\ (forall prefix,
        (forall l, l ∈ licenses -> isPathPrefix prefix (License.Package l)) ->
        isPathPrefix prefix (longestCommonPrefix licenses)).
Proof.
  intros Hu Hls. split.
  - intros Hne l Hl. apply longestCommonPrefix_not_nil in Hne.
    unfold isPathPrefix. rewrite (longestCommonPrefix_split _ Hne).
    by apply descend_common.
  - intros q Hq.
    pose proof (descend_longest licenses (strings_Split q) Hu Hls Hq) as Hp.
    unfold isPathPrefix. rewrite longestCommonPrefix_split; [exact Hp|].
    intros E. rewrite E in Hp. apply prefix_nil_inv in Hp.
    by apply (split_not_nil q).
Qed.

Lemma longestCommonPrefix_of_unnested_witness :
  unnested [row "a/b/x" "a/LICENSE"; row "a/b/y" "a/LICENSE"]
  /\ [row "a/b/x" "a/LICENSE"; row "a/b/y" "a/LICENSE"] <> []
  /\ longestCommonPrefix [row "a/b/x" "a/LICENSE"; row "a/b/y" "a/LICENSE"]
     = "a/b"
  /\ (forall prefix,
        (forall l, l ∈ [row "a/b/x" "a/LICENSE"; row "a/b/y" "a/LICENSE"] ->
           isPathPrefix prefix (License.Package l)) ->
        isPathPrefix prefix
          (longestCommonPrefix
             [row "a/b/x" "a/LICENSE"; row "a/b/y" "a/LICENSE"])).
Proof.
  assert (unnested [row "a/b/x" "a/LICENSE"; row "a/b/y" "a/LICENSE"]) as Hu.
  { intros l l' Hl Hl'.
    apply elem_of_cons in Hl as [->|Hl%list_elem_of_singleton];
      apply elem_of_cons in Hl' as [->|Hl'%list_elem_of_singleton];
      subst; try reflexivity; intros [rest H]; vm_compute in H; discriminate. }
  split; [exact Hu|]. split; [discriminate|]. split; [vm_compute; reflexivity|].
  exact (proj2 (longestCommonPrefix_of_unnested _ Hu ltac:(discriminate))).
Defined.

(** X26.  When [groupLicenses] succeeds, the row of a license file that two
    packages or more share, none below another, is named after elements that
    start the import path of every one of them. *)
Theorem groupLicenses_names_common_prefix rangePaths licenses kept path :
  rangesPaths rangePaths ->
  groupLicenses rangePaths licenses = Ok kept ->
  path <> "" ->
  2 <= length (rowsOf path licenses) ->
  unnested (rowsOf path licenses) ->
  exists g,
    rowsOf path kept = [g]
    /\ License.Package g = longestCommonPrefix (rowsOf path licenses)
    /\ forall l, l ∈ licenses -> License.Path l = path ->
         isPathPrefix (License.Package g) (License.Package l).
Proof.
  intros Hrange Hg Hp Hlen Hu.
  destruct (groupLicenses_rows _ _ _ Hrange Hg) as [_ Hrows].
  assert (longestCommonPrefix (rowsOf path licenses) <> "") as Hne.
  { unfold groupLicenses in Hg.
    destruct (fold_left mergePath _ _) as [m'|e'] eqn:Hf; [|done].
    destruct (merged_paths _ _ _ Hrange Hf) as [_ Hlcp]. by apply Hlcp. }
  specialize (Hrows _ Hp).
  destruct (rowsOf path licenses) as [|l0 [|l1 v]] eqn:E; [simpl in Hlen; lia..|].
  exists (License.withPackage l0 (longestCommonPrefix (l0 :: l1 :: v))).
  split; [exact Hrows|]. split; [done|]. intros l Hl Hpath. cbn [License.withPackage License.Package].
  apply longestCommonPrefix_not_nil in Hne. unfold isPathPrefix.
  rewrite (longestCommonPrefix_split _ Hne). apply descend_common; [done| |done].
  rewrite <- E. apply list_elem_of_In, List.filter_In.
  split; [by apply list_elem_of_In | by apply String.eqb_eq].
Qed.

Lemma groupLicenses_names_common_prefix_witness :
  rangesPaths map_to_list
  /\ groupLicenses map_to_list
       [row "a/b/x" "a/LICENSE"; bareRow "p"; row "a/b/y" "a/LICENSE"]
     = Ok [row "a/b" "a/LICENSE"; bareRow "p"]
  /\ 2 <= length (rowsOf "a/LICENSE"
            [row "a/b/x" "a/LICENSE"; bareRow "p"; row "a/b/y" "a/LICENSE"])
  /\ unnested (rowsOf "a/LICENSE"
       [row "a/b/x" "a/LICENSE"; bareRow "p"; row "a/b/y" "a/LICENSE"])
  /\ exists g,
       rowsOf "a/LICENSE" [row "a/b" "a/LICENSE"; bareRow "p"] = [g]
       /\ License.Package g
          = longestCommonPrefix (rowsOf "a/LICENSE"
              [row "a/b/x" "a/LICENSE"; bareRow "p"; row "a/b/y" "a/LICENSE"])
       /\ forall l,
            l ∈ [row "a/b/x" "a/LICENSE"; bareRow "p"; row "a/b/y" "a/LICENSE"] ->
            License.Path l = "a/LICENSE" ->
            isPathPrefix (License.Package g) (License.Package l).
Proof.
  assert (groupLicenses map_to_list
       [row "a/b/x" "a/LICENSE"; bareRow "p"; row "a/b/y" "a/LICENSE"]
     = Ok [row "a/b" "a/LICENSE"; bareRow "p"]) as Hg
    by (vm_compute; reflexivity).
  assert (unnested (rowsOf "a/LICENSE"
       [row "a/b/x" "a/LICENSE"; bareRow "p"; row "a/b/y" "a/LICENSE"])) as Hu.
  { change (rowsOf "a/LICENSE"
       [row "a/b/x" "a/LICENSE"; bareRow "p"; row "a/b/y" "a/LICENSE"])
      with [row "a/b/x" "a/LICENSE"; row "a/b/y" "a/LICENSE"].
    intros l l' Hl Hl'.
    apply elem_of_cons in Hl as [->|Hl%list_elem_of_singleton];
      apply elem_of_cons in Hl' as [->|Hl'%list_elem_of_singleton];
      subst; try reflexivity; intros [rest H]; vm_compute in H; discriminate. }
  split; [exact rangesPaths_map_to_list|]. split; [exact Hg|].
  split; [cbn; lia|]. split; [exact Hu|].
  exact (groupLicenses_names_common_prefix map_to_list _ _ "a/LICENSE"
           rangesPaths_map_to_list Hg ltac:(discriminate) ltac:(cbn; lia) Hu).
Defined.

(** ** The environment of the go command *)

Lemma keep_env_fold environ : forall kept,
  fold_left
    (fun kept env =>
       if negb (strings_HasPrefix env "GOPATH=") then kept ++ [env] else kept)
    environ kept
  = kept ++ List.filter (fun env => negb (isGopath env)) environ.
Proof.
  induction environ as [|e environ IH]; intros kept; cbn [fold_left List.filter].
  { by rewrite app_nil_r. }
  rewrite IH. unfold isGopath. destruct (strings_HasPrefix e "GOPATH="); cbn [negb].
  - done.
  - by rewrite <- app_assoc.
Qed.

Lemma filter_filter_neg (f : string -> bool) l :
  List.filter f (List.filter (fun x => negb (f x)) l) = [].
Proof.
  induction l as [|x l IH]; [done|]. cbn [List.filter].
  destruct (f x) eqn:E; cbn [negb List.filter]; [done|]. by rewrite E.
Qed.

Lemma filter_idem (f : string -> bool) l :
  List.filter f (List.filter f l) = List.filter f l.
Proof.
  induction l as [|x l IH]; [done|]. cbn [List.filter].
  destruct (f x) eqn:E; cbn [List.filter]; [|done]. by rewrite E, IH.
Qed.

(** X12.  For a GOPATH that is not empty, the environment that [fixEnv]
    returns binds GOPATH once, to that value, and has the other variables of
    the process, in the same order. *)
Theorem fixEnv_binds_gopath_once environ gopath :
  gopath <> "" ->
  exists kept,
    fixEnv environ gopath = Some kept
    /\ List.filter isGopath kept = ["GOPATH=" +:+ gopath]
    /\ List.filter (fun env => negb (isGopath env)) kept
       = List.filter (fun env => negb (isGopath env)) environ.
Proof.
  intros Hne. unfold fixEnv. destruct (String.eqb_spec gopath ""); [done|].
  eexists. split; [reflexivity|]. rewrite keep_env_fold.
  assert (isGopath ("GOPATH=" +:+ gopath) = true) as Hg.
  { unfold isGopath, strings_HasPrefix. cbn. by destruct gopath. }
  split.
  - rewrite List.filter_app, filter_filter_neg. cbn [List.filter]. by rewrite Hg.
  - rewrite List.filter_app, filter_idem. cbn [List.filter]. by rewrite Hg.
Qed.

Lemma fixEnv_binds_gopath_once_witness :
  "/go" <> ""
  /\ exists kept,
       fixEnv ["HOME=/root"; "GOPATH=/old"; "PATH=/bin"] "/go" = Some kept
       /\ List.filter isGopath kept = ["GOPATH=" +:+ "/go"]
       /\ List.filter (fun env => negb (isGopath env)) kept
          = List.filter (fun env => negb (isGopath env))
              ["HOME=/root"; "GOPATH=/old"; "PATH=/bin"].
Proof.
  split; [discriminate|].
  exact (fixEnv_binds_gopath_once ["HOME=/root"; "GOPATH=/old"; "PATH=/bin"]
           "/go" ltac:(discriminate)).
Defined.

(** ** The list of the packages and their dependencies *)

Lemma seenInv_add deps seen s :
  seenInv (deps, seen) -> default false (seen !! s) = false ->
  seenInv (deps ++ [s], <[s := true]> seen).
Proof.
  intros [Hnd Hseen] Hs. split; cbn [fst snd] in *.
  - apply NoDup_app. split; [done|]. split; [|apply NoDup_singleton].
    intros x Hx ->%list_elem_of_singleton. apply Hseen in Hx. congruence.
  - intros x. rewrite elem_of_app, list_elem_of_singleton.
    destruct (decide (x = s)) as [->|Hne].
    + rewrite lookup_insert_eq. cbn. split; [by right | done].
    + rewrite lookup_insert_ne by done. rewrite Hseen. split; [by left|].
      by intros [H|H].
Qed.

Lemma addDep_spec acc s :
  seenInv acc ->
  seenInv (addDep acc s)
  /\ forall x, x ∈ (addDep acc s).1
       <-> x ∈ acc.1 \/ (x <> "" /\ strings_TrimSpace s = x).
Proof.
  destruct acc as [deps seen]. intros Hinv. unfold addDep.
  destruct (String.eqb_spec (strings_TrimSpace s) "") as [E|E]; cbn [negb andb].
  { split; [done|]. intros x. split; [by left|]. intros [H|[H1 H2]]; [done|].
    congruence. }
  destruct (default false (seen !! strings_TrimSpace s)) eqn:Hs; cbn [negb].
  - split; [done|]. intros x. split; [by left|]. intros [H|[_ <-]]; [done|].
    by apply Hinv.
  - split; [by apply seenInv_add|]. intros x. cbn [fst].
    rewrite elem_of_app, list_elem_of_singleton. split.
    + intros [H| ->]; [by left | by right].
    + intros [H|[_ <-]]; [by left | by right].
Qed.

Lemma addPkg_spec acc pkg :
  seenInv acc ->
  seenInv (addPkg acc pkg)
  /\ forall x, x ∈ (addPkg acc pkg).1 <-> x ∈ acc.1 \/ x = pkg.
Proof.
  destruct acc as [deps seen]. intros Hinv. unfold addPkg.
  destruct (default false (seen !! pkg)) eqn:Hs; cbn [negb].
  - split; [done|]. intros x. split; [by left|]. intros [H| ->]; [done|].
    by apply Hinv.
  - split; [by apply seenInv_add|]. intros x. cbn [fst].
    by rewrite elem_of_app, list_elem_of_singleton.
Qed.

Lemma addDep_fold l : forall acc,
  seenInv acc ->
  seenInv (fold_left addDep l acc)
  /\ forall x, x ∈ (fold_left addDep l acc).1
       <-> x ∈ acc.1
           \/ (x <> "" /\ exists seg, seg ∈ l /\ strings_TrimSpace seg = x).
Proof.
  induction l as [|s l IH]; intros acc Hinv; cbn [fold_left].
  { split; [done|]. intros x. split; [by left|].
    intros [H|(_ & seg & Hseg & _)]; [done|]. by apply elem_of_nil in Hseg. }
  destruct (addDep_spec acc s Hinv) as [Hinv' Hmem].
  destruct (IH _ Hinv') as [Hinv'' Hmem']. split; [done|].
  intros x. rewrite Hmem', Hmem. split.
  - intros [[H|[Hx Hs]]|(Hx & seg & Hseg & Hs)].
    + by left.
    + right. split; [done|]. exists s. split; [by apply elem_of_cons; left | done].
    + right. split; [done|]. exists seg. split; [by apply elem_of_cons; right | done].
  - intros [H|(Hx & seg & [->|Hseg]%elem_of_cons & Hs)].
    + by left; left.
    + by left; right.
    + right. split; [done|]. by exists seg.
Qed.

Lemma addPkg_fold l : forall acc,
  seenInv acc ->
  seenInv (fold_left addPkg l acc)
  /\ forall x, x ∈ (fold_left addPkg l acc).1 <-> x ∈ acc.1 \/ x ∈ l.
Proof.
  induction l as [|s l IH]; intros acc Hinv; cbn [fold_left].
  { split; [done|]. intros x. split; [by left|]. intros [H|H]; [done|].
    by apply elem_of_nil in H. }
  destruct (addPkg_spec acc s Hinv) as [Hinv' Hmem].
  destruct (IH _ Hinv') as [Hinv'' Hmem']. split; [done|].
  intros x. rewrite Hmem', Hmem, elem_of_cons. tauto.
Qed.

(** X13.  When the two go commands succeed, [listPackagesAndDeps] returns, in
    ascending order and each one once, the packages asked for and the names of
    the output of the second command that are not empty. *)
Theorem listPackagesAndDeps_sorted_set environ goCommand gopath pkgs names out :
  expandPackages environ goCommand gopath pkgs = Ok names ->
  goCommand (fixEnv environ gopath)
    (["list"; "-f"; "{{range .Deps}}{{.}}|{{end}}"] ++ names) = (out, false) ->
  exists deps,
    listPackagesAndDeps environ goCommand gopath pkgs = Ok deps
    /\ Sorted strLe deps
    /\ NoDup deps
    /\ forall s,
         s ∈ deps
         <-> s ∈ names
             \/ (s <> ""
                 /\ exists seg,
                      seg ∈ strings_SplitOn "|" out
                      /\ strings_TrimSpace seg = s).
Proof.
  intros Hexp Hcmd. unfold listPackagesAndDeps. rewrite Hexp, Hcmd.
  assert (seenInv ([], ∅)) as H0.
  { split; [apply NoDup_nil_2|]. intros s. cbn. rewrite lookup_empty. cbn.
    split; [done|]. intros H. by apply elem_of_nil in H. }
  destruct (addDep_fold (strings_SplitOn "|" out) _ H0) as [H1 Hmem1].
  destruct (addPkg_fold names _ H1) as [[Hnd _] Hmem2].
  destruct (fold_left addPkg names _) as [deps seen] eqn:E. cbn [fst] in *.
  exists (sort_Strings deps). split; [done|]. unfold sort_Strings.
  split; [apply (Sorted_merge_sort strLe)|].
  split; [by rewrite merge_sort_Permutation|].
  intros s. rewrite merge_sort_Permutation, Hmem2, Hmem1. cbn [fst].
  split.
  - intros [[H|H]|H]; [by apply elem_of_nil in H | by right | by left].
  - intros [H|H]; [by right | by left; right].
Qed.

Lemma listPackagesAndDeps_sorted_set_witness :
  expandPackages [] sampleGo "" ["a"] = Ok ["a"]
  /\ sampleGo (fixEnv [] "")
       (["list"; "-f"; "{{range .Deps}}{{.}}|{{end}}"] ++ ["a"])
     = (" b| c|b|", false)
  /\ exists deps,
       listPackagesAndDeps [] sampleGo "" ["a"] = Ok deps
       /\ Sorted strLe deps
       /\ NoDup deps
       /\ forall s,
            s ∈ deps
            <-> s ∈ ["a"]
                \/ (s <> ""
                    /\ exists seg,
                         seg ∈ strings_SplitOn "|" " b| c|b|"
                         /\ strings_TrimSpace seg = s).
Proof.
  split; [vm_compute; reflexivity|]. split; [reflexivity|].
  apply (listPackagesAndDeps_sorted_set [] sampleGo "" ["a"] ["a"] " b| c|b|");
    [vm_compute; reflexivity | reflexivity].
Defined.

Example listPackagesAndDeps_sample :
  listPackagesAndDeps [] sampleGo "" ["a"] = Ok ["a"; "b"; "c"].
Proof. vm_compute. reflexivity. Qed.

(** ** The loop of the report *)

Section ListerLoop.

Variable unicodeLower : string -> string.
Variable rangeWords : nat -> nat -> gmap string nat -> list (string * nat).
Variable sortWords : nat -> list Word -> list Word.
Variable ReadDir : string -> result string (list FileInfo.t).
Variable ReadFile : string -> result string string.
Variable fuel : nat.
Variable templates : list Template.
Variable stdSet : gmap string bool.

Local Abbreviation body :=
  (listLicense unicodeLower rangeWords sortWords ReadDir ReadFile fuel
     templates stdSet).
Local Abbreviation row_of :=
  (rowOf unicodeLower rangeWords sortWords ReadDir ReadFile fuel templates).
Local Abbreviation cache_ok :=
  (cacheInv unicodeLower rangeWords sortWords ReadFile templates).

Lemma listLicense_None infos : fold_left body infos None = None.
Proof. induction infos as [|i infos IH]; [done|]. exact IH. Qed.

Lemma listLicense_Err infos e :
  fold_left body infos (Some (Err e)) = Some (Err e).
Proof. induction infos as [|i infos IH]; [done|]. exact IH. Qed.

Lemma rowOf_weaken matched matched' info l :
  matched ⊆ matched' -> row_of matched info l -> row_of matched' info l.
Proof.
  intros Hsub. unfold rowOf. destruct (PkgInfo.Error info); [done|].
  intros (path & Hf & H). exists path. split; [done|].
  destruct (String.eqb path ""); [done|].
  destruct H as (m & Hm & Hof & ->). exists m.
  split; [by eapply lookup_weaken | done].
Qed.

Lemma listLicense_rows infos : forall matched0 licenses0 matched licenses,
  cache_ok matched0 ->
  fold_left body infos (Some (Ok (matched0, licenses0)))
  = Some (Ok (matched, licenses)) ->
  cache_ok matched /\ matched0 ⊆ matched
  /\ exists new,
       licenses = licenses0 ++ new
       /\ Forall2 (row_of matched) (List.filter (shown stdSet) infos) new.
Proof.
  induction infos as [|info infos IH]; intros matched0 licenses0 matched licenses Hc Hf.
  { cbn in Hf. injection Hf as <- <-. split; [done|]. split; [done|].
    exists []. by rewrite app_nil_r. }
  cbn [fold_left] in Hf. cbn [List.filter]. unfold shown at 1.
  unfold listLicense at 2 in Hf.
  destruct (PkgInfo.Error info) as [err|] eqn:Herr; cbn [isSome orb].
  { destruct (IH _ _ _ _ Hc Hf) as (Hc' & Hsub & new & -> & Hrows).
    split; [done|]. split; [done|]. exists (failedRow info err :: new).
    rewrite <- app_assoc. split; [done|]. constructor; [|done].
    unfold rowOf. by rewrite Herr. }
  destruct (default false (stdSet !! PkgInfo.ImportPath info)); cbn [negb].
  { by apply IH. }
  destruct (findLicense ReadDir fuel info) as [[path|e]|] eqn:Hfind;
    [|by rewrite listLicense_Err in Hf|by rewrite listLicense_None in Hf].
  destruct (String.eqb path "") eqn:Hp; cbn [negb] in Hf.
  { destruct (IH _ _ _ _ Hc Hf) as (Hc' & Hsub & new & -> & Hrows).
    split; [done|]. split; [done|]. exists (unlocatedRow info path :: new).
    rewrite <- app_assoc. split; [done|]. constructor; [|done].
    unfold rowOf. rewrite Herr. exists path. by rewrite Hp. }
  set (fpath := filepath_Join [PkgInfo.Root info; "src"; path]) in *.
  destruct (matched0 !! fpath) as [m|] eqn:Hm.
  { destruct (IH _ _ _ _ Hc Hf) as (Hc' & Hsub & new & -> & Hrows).
    split; [done|]. split; [done|]. exists (matchedRow info path m :: new).
    rewrite <- app_assoc. split; [done|]. constructor; [|done].
    unfold rowOf. rewrite Herr. exists path. rewrite Hp. split; [done|].
    exists m. split; [by eapply lookup_weaken|]. split; [by apply Hc | done]. }
  destruct (ReadFile fpath) as [data|e] eqn:Hread;
    [|by rewrite listLicense_Err in Hf].
  set (m := matchTemplates unicodeLower (rangeWords (size matched0))
              (sortWords (size matched0)) data templates) in *.
  assert (matchOf unicodeLower rangeWords sortWords ReadFile templates fpath m)
    as Hof by (by exists (size matched0), data).
  assert (cache_ok (<[fpath := m]> matched0)) as Hc1.
  { intros f m' [[<- <-]|[_ H]]%lookup_insert_Some; [done | by apply Hc]. }
  destruct (IH _ _ _ _ Hc1 Hf) as (Hc' & Hsub & new & -> & Hrows).
  split; [done|]. split.
  { etrans; [|exact Hsub]. by apply insert_subseteq. }
  exists (matchedRow info path m :: new).
  rewrite <- app_assoc. split; [done|]. constructor; [|done].
  unfold rowOf. rewrite Herr. exists path. rewrite Hp. split; [done|].
  exists m. split; [|done]. eapply lookup_weaken; [|exact Hsub].
  apply lookup_insert_eq.
Qed.

Lemma listLicense_returns infos : forall acc,
  (forall info, info ∈ infos -> PkgInfo.Error info = None ->
     PkgInfo.ImportPath info <> ""
     /\ isRooted (PkgInfo.ImportPath info) = false
     /\ length (strings_Split (PkgInfo.ImportPath info)) <= fuel) ->
  exists r, fold_left body infos (Some acc) = Some r.
Proof.
  induction infos as [|info infos IH]; intros acc Hall; [by eexists|].
  cbn [fold_left].
  assert (forall i, i ∈ infos -> PkgInfo.Error i = None ->
     PkgInfo.ImportPath i <> ""
     /\ isRooted (PkgInfo.ImportPath i) = false
     /\ length (strings_Split (PkgInfo.ImportPath i)) <= fuel) as Hrest.
  { intros i Hi. apply Hall. by apply elem_of_cons; right. }
  assert (exists acc', body (Some acc) info = Some acc') as [acc' ->];
    [|by apply IH].
  unfold listLicense. destruct acc as [[matched licenses]|e]; [|by eexists].
  destruct (PkgInfo.Error info) eqn:Herr; [by eexists|].
  destruct (default false (stdSet !! PkgInfo.ImportPath info)); [by eexists|].
  destruct (Hall info) as (Hne & Hrel & Hlen); [by apply elem_of_cons; left | done |].
  destruct (ancestor_reaches_root _ Hne Hrel) as (n & Hn & Ha).
  destruct (findLicense_loop_returns ReadDir (PkgInfo.Root info) n
              (PkgInfo.ImportPath info) fuel Ha ltac:(lia)) as [r Hr].
  unfold findLicense. rewrite Hr. destruct r as [path|e]; [|by eexists].
  destruct (negb (String.eqb path "")); [|by eexists].
  destruct (matched !! _); [by eexists|]. destruct (ReadFile _); by eexists.
Qed.

End ListerLoop.

Lemma stdSet_lookup std : forall (s : gmap string bool) n,
  default false (fold_left (fun s n => <[n := true]> s) std s !! n)
  = bool_decide (n ∈ std) || default false (s !! n).
Proof.
  induction std as [|x std IH]; intros s n; cbn [fold_left].
  { by rewrite bool_decide_eq_false_2 by apply not_elem_of_nil. }
  rewrite IH. destruct (decide (n = x)) as [->|Hne].
  - rewrite lookup_insert_eq. cbn.
    rewrite (bool_decide_eq_true_2 (x ∈ x :: std)) by (by apply elem_of_cons; left).
    by rewrite orb_true_r.
  - rewrite lookup_insert_ne by done. f_equal.
    apply bool_decide_ext. rewrite elem_of_cons. naive_solver.
Qed.

Lemma shown_reported std infos :
  List.filter (shown (fold_left (fun s n => <[n := true]> s) std ∅)) infos
  = List.filter (reported std) infos.
Proof.
  induction infos as [|i infos IH]; [done|]. cbn [List.filter]. rewrite IH.
  unfold shown, reported. rewrite stdSet_lookup, lookup_empty. cbn.
  by rewrite orb_false_r.
Qed.

(** X18.  When [listLicenses] succeeds, its rows are, in the order of
    [getPackagesInfo], those of the packages that have an error or are not
    standard packages: a package with an error has a row with that error;
    another one has the path that [findLicense] returns and, when the path is
    not empty, the match of the content of that file against the templates,
    the same match for every row of the same file. *)
Theorem listLicenses_rows unicodeLower rangeWords sortWords assets environ
    goCommand getPackagesInfo ReadDir ReadFile fuel gopath pkgs licenses :
  listLicenses unicodeLower rangeWords sortWords assets environ goCommand
    getPackagesInfo ReadDir ReadFile fuel gopath pkgs = Some (Ok licenses) ->
  exists templates deps std infos matched,
    loadTemplates unicodeLower assets = Ok templates
    /\ listPackagesAndDeps environ goCommand gopath pkgs = Ok deps
    /\ listStandardPackages environ goCommand gopath = Ok std
    /\ getPackagesInfo gopath deps = Ok infos
    /\ Forall2
         (rowOf unicodeLower rangeWords sortWords ReadDir ReadFile fuel
            templates matched)
         (List.filter (reported std) infos) licenses.
Proof.
  unfold listLicenses.
  destruct (loadTemplates unicodeLower assets) as [templates|e] eqn:Ht; [|done].
  destruct (listPackagesAndDeps environ goCommand gopath pkgs)
    as [deps|[o|msg]] eqn:Hd; [|done|done].
  destruct (listStandardPackages environ goCommand gopath) as [std|e] eqn:Hs;
    [|done].
  destruct (getPackagesInfo gopath deps) as [infos|e] eqn:Hi; [|done].
  destruct (fold_left _ infos _) as [[[matched rows]|e]|] eqn:Hf; [|done|done].
  intros [= <-]. exists templates, deps, std, infos, matched.
  do 4 (split; [done|]).
  apply listLicense_rows in Hf as (_ & _ & new & -> & Hrows).
  - by rewrite shown_reported in Hrows.
  - intros f m H. by rewrite lookup_empty in H.
Qed.

Lemma listLicenses_rows_witness :
  exists licenses,
    sampleReport = Some (Ok licenses)
    /\ exists templates deps std infos matched,
         loadTemplates noUnicode [permissionAsset; warrantyAsset] = Ok templates
         /\ listPackagesAndDeps [] listerGo "" ["a/b/c"] = Ok deps
         /\ listStandardPackages [] listerGo "" = Ok std
         /\ sampleInfos "" deps = Ok infos
         /\ Forall2
              (rowOf noUnicode (fun _ => rangeInOrder) (fun _ => mergeSortWords)
                 sampleTree sampleFiles 3 templates matched)
              (List.filter (reported std) infos) licenses.
Proof.
  assert (exists licenses, sampleReport = Some (Ok licenses)) as [licenses H]
    by (vm_compute; eexists; reflexivity).
  exists licenses. split; [exact H|].
  exact (listLicenses_rows _ _ _ _ _ _ _ _ _ _ _ _ _ H).
Defined.

(** X19.  [listLicenses] returns when the fuel of [findLicense] is at least
    the number of elements of the import path of every package listed without
    error, these import paths being neither empty nor rooted. *)
Theorem listLicenses_returns unicodeLower rangeWords sortWords assets environ
    goCommand getPackagesInfo ReadDir ReadFile fuel gopath pkgs :
  (forall deps infos info,
     listPackagesAndDeps environ goCommand gopath pkgs = Ok deps ->
     getPackagesInfo gopath deps = Ok infos ->
     info ∈ infos -> PkgInfo.Error info = None ->
     PkgInfo.ImportPath info <> ""
     /\ isRooted (PkgInfo.ImportPath info) = false
     /\ length (strings_Split (PkgInfo.ImportPath info)) <= fuel) ->
  exists r,
    listLicenses unicodeLower rangeWords sortWords assets environ goCommand
      getPackagesInfo ReadDir ReadFile fuel gopath pkgs = Some r.
Proof.
  intros Hall. unfold listLicenses.
  destruct (loadTemplates unicodeLower assets) as [templates|e]; [|by eexists].
  destruct (listPackagesAndDeps environ goCommand gopath pkgs)
    as [deps|[o|msg]] eqn:Hd; [|by eexists|by eexists].
  destruct (listStandardPackages environ goCommand gopath) as [std|e];
    [|by eexists].
  destruct (getPackagesInfo gopath deps) as [infos|e] eqn:Hi; [|by eexists].
  destruct (listLicense_returns unicodeLower rangeWords sortWords ReadDir
              ReadFile fuel templates
              (fold_left (fun s n => <[n := true]> s) std ∅) infos
              (Ok (∅, []))) as [r Hr].
  { intros info. by apply (Hall deps infos). }
  rewrite Hr. destruct r as [[m l]|e]; by eexists.
Qed.

Lemma listLicenses_returns_witness :
  (forall deps infos info,
     listPackagesAndDeps [] listerGo "" ["a/b/c"] = Ok deps ->
     sampleInfos "" deps = Ok infos ->
     info ∈ infos -> PkgInfo.Error info = None ->
     PkgInfo.ImportPath info <> ""
     /\ isRooted (PkgInfo.ImportPath info) = false
     /\ length (strings_Split (PkgInfo.ImportPath info)) <= 3)
  /\ exists r, sampleReport = Some r.
Proof.
  assert (forall deps infos info,
     listPackagesAndDeps [] listerGo "" ["a/b/c"] = Ok deps ->
     sampleInfos "" deps = Ok infos ->
     info ∈ infos -> PkgInfo.Error info = None ->
     PkgInfo.ImportPath info <> ""
     /\ isRooted (PkgInfo.ImportPath info) = false
     /\ length (strings_Split (PkgInfo.ImportPath info)) <= 3) as Hall.
  { intros deps infos info Hd Hi Hin _. vm_compute in Hd. injection Hd as <-.
    injection Hi as <-. cbn in Hin.
    repeat (apply elem_of_cons in Hin as [->|Hin];
            [split; [discriminate|]; split; [reflexivity | cbn; lia]|]).
    by apply elem_of_nil in Hin. }
  split; [exact Hall|].
  exact (listLicenses_returns noUnicode (fun _ => rangeInOrder)
           (fun _ => mergeSortWords) [permissionAsset; warrantyAsset] []
           listerGo sampleInfos sampleTree sampleFiles 3 "" ["a/b/c"] Hall).
Defined.

(** The report of the sample: the two packages below [a/b] have the same
    license file, the standard package has no row and [x/y] has no license
    file. *)
Example sampleReport_rows :
  option_map
    (fun r => match r with
              | Ok rows =>
                  (fun l => (License.Package l, License.Path l,
                             License.Score l)) <$> rows
              | Err _ => []
              end) sampleReport
  = Some [("a/b", "a/b/COPYING", FVal (14 # 14));
          ("a/b/c", "a/b/COPYING", FVal (14 # 14));
          ("x/y", "", FVal 0)].
Proof. vm_compute. reflexivity. Qed.
